(** * Exact diagonalisation of the transverse-field Ising ring

    A shallow embedding of [Example.ipynb]: the bit utilities
    ([CountBit], [FilpBit], [ReadBit], [PickBit], [RotLBit], [RotRBit]),
    the action of the Hamiltonian on a basis state ([ActingH]), the
    momentum-sector basis ([BuildBasisNk]) and the sparse sector matrix
    ([BuildHNk]).

    Python integers are unbounded, so spin states, chain lengths and
    momenta are [Z]; bit operations are those of [Z] (two's complement,
    as in Python).  The couplings [J] and [g] and the matrix values are
    modelled with exact real and complex arithmetic ([R] and pairs of
    [R]): [np.exp] of an imaginary argument is [cos + i sin], [np.sqrt]
    is [sqrt].  Python exceptions are the [Raise] branch of [result].
    The expression of a stored value is given a second time in IEEE
    double precision ([contribution64], on the kernel's binary64
    floats), to show where the value the notebook stores leaves the
    exact one.

    The development first embeds the notebook, then introduces the
    notions the properties are stated with (states, rotations by an
    integer, period, representative, finite sums), and proves in turn:
    the bit-level facts; that translations act on [L]-bit states; that
    the sector bases partition the [2^L] states; that the triplet
    accumulator of [BuildHNk] sums the contributions per index pair; and
    that the resulting matrix elements are Hermitian. *)

From Stdlib Require Import PrimFloat Uint63.
From Stdlib Require Import ZArith List Lia Reals Lra String Ascii.
From stdpp Require Import base list sorting gmap.

Local Open Scope Z_scope.

(* ===================================================================== *)
(** ** Exceptions *)
(* ===================================================================== *)

Inductive exn : Set :=
| ValueError
| TypeError
| ZeroDivisionError
| IndexError.

Inductive result (A : Type) : Type :=
| Ok (a : A)
| Raise (e : exn).
Arguments Ok {A} a.
Arguments Raise {A} e.

#[global] Instance result_ret : MRet result := λ A a, Ok a.
#[global] Instance result_bind : MBind result := λ A B f m,
  match m with
  | Ok a => f a
  | Raise e => Raise e
  end.

Definition raise {A} (e : exn) : result A := Raise e.

(** A Python [for] loop whose body may raise: the loop state is threaded
    from left to right and the first exception aborts the loop. *)
Fixpoint for_each {A S} (body : S → A → result S) (l : list A) (s : S)
  : result S :=
  match l with
  | [] => mret s
  | x :: l' => s' ← body s x ; for_each body l' s'
  end.

(* ===================================================================== *)
(** ** Python built-ins used by the notebook *)
(* ===================================================================== *)

(** [range(0, n)] for an integer [n]; empty when [n <= 0]. *)
Definition range0 (n : Z) : list Z := seqZ 0 n.

(** [l.index(x)]: position of the first occurrence, [ValueError] if
    there is none. *)
Fixpoint index_from (x : Z) (l : list Z) (i : nat) : result nat :=
  match l with
  | [] => raise ValueError
  | y :: l' => if y =? x then mret i else index_from x l' (S i)
  end.

Definition py_index (x : Z) (l : list Z) : result nat := index_from x l 0.

(** [min(l)]: [ValueError] on the empty list. *)
Definition py_min (l : list Z) : result Z :=
  match l with
  | [] => raise ValueError
  | y :: l' => mret (fold_left Z.min l' y)
  end.

(** [x in l]. *)
Definition py_in (x : Z) (l : list Z) : bool := existsb (Z.eqb x) l.

(** [a % b] on integers: floored remainder, [ZeroDivisionError] when
    [b == 0].  [Z.modulo] has the sign of the divisor, as Python's. *)
Definition py_mod (a b : Z) : result Z :=
  if b =? 0 then raise ZeroDivisionError else mret (a mod b).

(** [np.binary_repr(i)] with no width: the binary digits of [|i|], most
    significant first, with a leading minus sign for negative [i]. *)
Fixpoint pos_binary (p : positive) : string :=
  match p with
  | xH => "1"
  | xO q => String.append (pos_binary q) "0"
  | xI q => String.append (pos_binary q) "1"
  end.

Definition binary_repr (i : Z) : string :=
  match i with
  | Z0 => "0"
  | Zpos p => pos_binary p
  | Zneg p => String.append "-" (pos_binary p)
  end.

(** [s.count(c)] for a one-character pattern. *)
Fixpoint str_count (c : ascii) (s : string) : Z :=
  match s with
  | EmptyString => 0
  | String a s' => (if Ascii.eqb a c then 1 else 0) + str_count c s'
  end.

(* ===================================================================== *)
(** ** BitState: an integer as an L-bit spin configuration *)
(* ===================================================================== *)

(** [np.binary_repr(i).count('1')] *)
Definition CountBit (i : Z) : Z := str_count "1"%char (binary_repr i).

(** [i ^ (1 << n)] *)
Definition FilpBit (i n : Z) : Z := Z.lxor i (Z.shiftl 1 n).

(** [(i & (1 << n)) >> n] *)
Definition ReadBit (i n : Z) : Z := Z.shiftr (Z.land i (Z.shiftl 1 n)) n.

(** [(i & ((2 ** n - 1) << k)) >> k].  The notebook only calls it with
    [n >= 0] and [k = 0]; for a negative [n] Python's [2 ** n] is a
    float and [&] raises, which the callers modelled here never reach. *)
Definition PickBit (i k n : Z) : Z :=
  Z.shiftr (Z.land i (Z.shiftl (2 ^ n - 1) k)) k.

(** [(PickBit(i, 0, L - n) << n) + (i >> (L - n))] *)
Definition RotLBit (i L n : Z) : Z :=
  Z.shiftl (PickBit i 0 (L - n)) n + Z.shiftr i (L - n).

(** [(PickBit(i, 0, n) << (L - n)) + (i >> n)] *)
Definition RotRBit (i L n : Z) : Z :=
  Z.shiftl (PickBit i 0 n) (L - n) + Z.shiftr i n.

(* ===================================================================== *)
(** ** HamiltonianAction *)
(* ===================================================================== *)

(** The bonds [(i, (i + 1) % L)] for [i] in [range(0, L)].  The list is
    empty unless [L >= 1], so the remainder never divides by zero. *)
Definition ising_bonds (L : Z) : list (Z * Z) :=
  (λ i, (i, (i + 1) mod L)) <$> range0 L.

(** One iteration of the second loop of [ActingH]. *)
Definition diag_step (n : Z) (J : R) (diag : R) (j : Z * Z) : R :=
  if ReadBit n j.1 =? ReadBit n j.2 then (diag - J)%R else (diag + J)%R.

Definition ActingH (n L : Z) (J g : R) : list (Z * R) :=
  let ising := ising_bonds L in
  let output := (λ i, (Z.lxor n (Z.shiftl 1 i), (- J * g)%R)) <$> range0 L in
  let diag := fold_left (diag_step n J) ising 0%R in
  output ++ [(n, diag)].

(* ===================================================================== *)
(** ** SymmetryBasis *)
(* ===================================================================== *)

(** [range(0, 2 ** L)]: for a negative [L] the power is a float and
    [range] raises [TypeError]. *)
Definition BuildBasisN (L : Z) : result (list Z) :=
  if L <? 0 then raise TypeError else mret (range0 (2 ^ L)).

(** [[RotLBit(n, L, i) for i in range(0, L + 1)]] *)
Definition Tlist_of (n L : Z) : list Z :=
  (λ i, RotLBit n L i) <$> range0 (L + 1).

(** [Tlist[1:].index(n) + 1] *)
Definition period_of (n : Z) (Tlist : list Z) : result Z :=
  i ← py_index n (drop 1 Tlist) ; mret (Z.of_nat i + 1).

(** The body of the loop of [BuildBasisNk]. *)
Definition basisNk_step (L k : Z) (basisNk : list Z) (n : Z)
  : result (list Z) :=
  let Tlist := Tlist_of n L in
  m ← py_min Tlist ;
  R ← period_of n Tlist ;
  keep ← (if m =? n
          then r ← py_mod (k * R) L ; mret (r =? 0)
          else mret false) ;
  mret (if keep : bool then basisNk ++ [n] else basisNk).

Definition BuildBasisNk (L k : Z) : result (list Z) :=
  basisN ← BuildBasisN L ;
  for_each (basisNk_step L k) basisN [].

(* ===================================================================== *)
(** ** Exact complex arithmetic for the matrix values *)
(* ===================================================================== *)

Definition C : Type := (R * R)%type.

Definition C0 : C := (0%R, 0%R).
Definition Ci : C := (0%R, 1%R).
Definition RtoC (x : R) : C := (x, 0%R).
Definition Cadd (z w : C) : C := ((z.1 + w.1)%R, (z.2 + w.2)%R).
Definition Cconj (z : C) : C := (z.1, (- z.2)%R).
(** complex times real, real times complex, complex over real *)
Definition Cmulr (z : C) (x : R) : C := ((z.1 * x)%R, (z.2 * x)%R).
Definition Rmulc (x : R) (z : C) : C := ((x * z.1)%R, (x * z.2)%R).
Definition Cdivr (z : C) (x : R) : C := ((z.1 / x)%R, (z.2 / x)%R).
(** [np.exp] on a complex argument *)
Definition Cexp (z : C) : C :=
  ((exp z.1 * cos z.2)%R, (exp z.1 * sin z.2)%R).

(** [1j * k * d * 2 * math.pi / L] *)
Definition phase_arg (k : Z) (d : nat) (L : Z) : C :=
  Cdivr (Cmulr (Cmulr (Cmulr (Cmulr Ci (IZR k)) (INR d)) 2%R) PI) (IZR L).

(** [h * np.exp(1j * k * d * 2 * math.pi / L) * np.sqrt(Rn) / np.sqrt(Rm)] *)
Definition contribution (h : R) (k : Z) (d : nat) (L Rn Rm : Z) : C :=
  Cdivr (Cmulr (Rmulc h (Cexp (phase_arg k d L))) (sqrt (IZR Rn)))
        (sqrt (IZR Rm)).

(* ===================================================================== *)
(** ** SectorMatrixBuilder *)
(* ===================================================================== *)

(** The accumulators of [BuildHNk]: the three triplet lists and the
    dictionary [pos] from a pair [(a, b)] to its slot in the lists. *)
Record HNk_state : Type := mkHNk {
  HNk_col : list nat;
  HNk_row : list nat;
  HNk_val : list C;
  pos : gmap (nat * nat) nat
}.

Definition HNk_init : HNk_state := mkHNk [] [] [] ∅.

(** [l[p]], raising [IndexError] out of range. *)
Definition py_get (l : list C) (p : nat) : result C :=
  match l !! p with
  | Some x => mret x
  | None => raise IndexError
  end.

(** The [if (not (a, b) in pos) ... else ...] statement. *)
Definition accumulate (a b : nat) (v : C) (st : HNk_state)
  : result HNk_state :=
  match pos st !! (a, b) with
  | None =>
      let col := HNk_col st ++ [a] in
      let row := HNk_row st ++ [b] in
      let val := HNk_val st ++ [v] in
      mret (mkHNk col row val (<[(a, b) := (length col - 1)%nat]> (pos st)))
  | Some p =>
      x ← py_get (HNk_val st) p ;
      mret (mkHNk (HNk_col st) (HNk_row st)
                  (<[p := Cadd x v]> (HNk_val st)) (pos st))
  end.

(** The body of the inner loop, for one pair [(m, h)] of [ActingH]. *)
Definition HNk_inner (L k : Z) (basisNk : list Z) (n : Z) (b : nat)
    (st : HNk_state) (mh : Z * R) : result HNk_state :=
  let '(m, h) := mh in
  let Tlist := Tlist_of m L in
  m_rs ← py_min Tlist ;
  Rm ← period_of m Tlist ;
  d ← py_index m_rs Tlist ;
  let Tlist := Tlist_of n L in
  Rn ← period_of n Tlist ;
  if py_in m_rs basisNk then
    a ← py_index m_rs basisNk ;
    accumulate a b (contribution h k d L Rn Rm) st
  else mret st.

(** The body of the outer loop, for one basis state [n]. *)
Definition HNk_outer (L k : Z) (J g : R) (basisNk : list Z)
    (st : HNk_state) (n : Z) : result HNk_state :=
  b ← py_index n basisNk ;
  let output := ActingH n L J g in
  for_each (HNk_inner L k basisNk n b) output st.

Definition BuildHNk (L k : Z) (J g : R)
  : result (list nat * list nat * list C * nat * list Z) :=
  basisNk ← BuildBasisNk L k ;
  st ← for_each (HNk_outer L k J g basisNk) basisNk HNk_init ;
  mret (HNk_col st, HNk_row st, HNk_val st, length basisNk, basisNk).

(** The sector loop of [Task], up to the hand-over of the merged
    triplets to [coo_matrix] and the eigensolver (which are external):
    the couplings are the notebook's [J_list = [1]], [g_list = [1]]. *)
Definition Task_step (L : Z)
    (acc : list nat * list nat * list C * nat) (k : Z)
  : result (list nat * list nat * list C * nat) :=
  let '(Hx, Hy, Hn, count) := acc in
  '(X, Y, N, Cn, basis) ← BuildHNk L k 1%R 1%R ;
  mret (Hx ++ ((λ p, p + count)%nat <$> X),
        Hy ++ ((λ p, p + count)%nat <$> Y),
        Hn ++ N,
        (count + Cn)%nat).

Definition Task_triplets (L : Z)
  : result (list nat * list nat * list C * nat) :=
  for_each (Task_step L) (range0 L) ([], [], [], 0%nat).

(* ===================================================================== *)
(** ** The stored value in double precision *)
(* ===================================================================== *)








(* ===================================================================== *)
(** * Definitions used to state and prove the properties *)
(* ===================================================================== *)

(** Settle [r = a mod b] or [a mod b = r] from the quotient [q]. *)
Ltac solve_mod q :=
  first [ apply (Z.mod_unique _ _ q); lia
        | symmetry; apply (Z.mod_unique _ _ q); lia ].

(** [n] is an [L]-bit spin configuration. *)
Definition is_state (L n : Z) : Prop := 0 ≤ n < 2 ^ L.

(** Rotation by an arbitrary integer number of steps, reduced modulo
    [L]; [RotLBit n L s] is [rotZ L n s] on the range [0 <= s <= L] the
    notebook uses. *)
Definition rotZ (L n t : Z) : Z := RotLBit n L (t mod L).

(** The values the notebook computes from the rotation list of [n]:
    [R = Tlist[1:].index(n) + 1], [min(Tlist)] and
    [Tlist.index(min(Tlist))]; with a default where the search raises. *)
Definition period (L n : Z) : Z :=
  match period_of n (Tlist_of n L) with Ok r => r | Raise _ => 0 end.

Definition rep (L n : Z) : Z :=
  match py_min (Tlist_of n L) with Ok m => m | Raise _ => 0 end.

Definition dist (L n : Z) : nat :=
  match py_index (rep L n) (Tlist_of n L) with Ok d => d | Raise _ => 0%nat end.

(** The selection rule of [BuildBasisNk], on the values it computes. *)
Definition in_sector (L k n : Z) : Prop :=
  rep L n = n ∧ (k * period L n) mod L = 0.

#[global] Instance in_sector_dec L k n : Decision (in_sector L k n).
Proof. unfold in_sector. apply _. Defined.

Definition sector_basis (L k : Z) : list Z :=
  filter (in_sector L k) (seqZ 0 (2 ^ L)).

Definition sum_over {A I : Type} (add : A → A → A) (zero : A)
    (l : list I) (f : I → A) : A :=
  foldr (λ i acc, add (f i) acc) zero l.

(** [v] added to itself [q] times. *)
Definition rep_add {A : Type} (add : A → A → A) (zero : A) (q : nat) (v : A) : A :=
  Nat.iter q (add v) zero.

Abbreviation Zsum := (sum_over Z.add 0).

(** The states reached from [m] by fewer than [period L m] rotations. *)
Definition orbit_list (L m : Z) : list Z :=
  (λ t, rotZ L m t) <$> seqZ 0 (period L m).

Abbreviation Csum := (sum_over Cadd C0).

(** The matrix denoted by triplet lists, with the convention of
    [coo_matrix]: the entry at [(r, c)] is the sum of the values stored
    with row [r] and column [c] (zero when there is none). *)
Definition matrix_entry (cols rows : list nat) (vals : list C) (r c : nat) : C :=
  Csum (zip (zip cols rows) vals)
       (λ t, if decide (t.1.2 = r ∧ t.1.1 = c) then t.2 else C0).

(** A contribution is a key [(a, b)] (column, row) with a value; the sum
    of the contributions with a given key. *)
Definition key_sum (cs : list (nat * nat * C)) (key : nat * nat) : C :=
  Csum cs (λ c, if decide (c.1 = key) then c.2 else C0).

(** The state of [BuildHNk] after the contributions [cs]. *)
Record acc_inv (cs : list (nat * nat * C)) (st : HNk_state) : Prop := {
  inv_len_row : length (HNk_row st) = length (HNk_col st);
  inv_len_val : length (HNk_val st) = length (HNk_col st);
  inv_pos : ∀ key p,
    pos st !! key = Some p ↔
    HNk_col st !! p = Some key.1 ∧ HNk_row st !! p = Some key.2;
  inv_val : ∀ key p,
    pos st !! key = Some p → HNk_val st !! p = Some (key_sum cs key);
  inv_absent : ∀ key,
    pos st !! key = None → ∀ c, c ∈ cs → c.1 ≠ key;
  inv_present : ∀ key p,
    pos st !! key = Some p → ∃ c, c ∈ cs ∧ c.1 = key
}.

Definition acc_step (st : HNk_state) (c : nat * nat * C) : result HNk_state :=
  accumulate c.1.1 c.1.2 c.2 st.

(** [basisNk.index(x)], with a default where it raises. *)
Definition idx (basis : list Z) (x : Z) : nat :=
  match py_index x basis with Ok i => i | Raise _ => 0%nat end.

(** What one pair [(m, h)] of [ActingH(n)] adds to the triplets. *)
Definition contrib_of (L k : Z) (basis : list Z) (n : Z) (mh : Z * R)
  : option (nat * nat * C) :=
  if py_in (rep L mh.1) basis
  then Some ((idx basis (rep L mh.1), idx basis n),
             contribution mh.2 k (dist L mh.1) L (period L n) (period L mh.1))
  else None.

Definition all_contribs (L k : Z) (J g : R) (basis : list Z)
  : list (nat * nat * C) :=
  basis ≫= (λ n, omap (contrib_of L k basis n) (ActingH n L J g)).

(** The sum of the contributions of [ActingH(n)] whose image has
    representative [y]: the entry at row [n], column [y]. *)
Definition elem (L k : Z) (J g : R) (n y : Z) : C :=
  Csum (ActingH n L J g)
       (λ mh, if decide (rep L mh.1 = y)
              then contribution mh.2 k (dist L mh.1) L (period L n) (period L mh.1)
              else C0).

(** The number of set bits among the [L] low bits. *)
Definition weight (L n : Z) : Z :=
  Zsum (seqZ 0 L) (λ j, Z.b2z (Z.testbit n j)).

(** The phase [exp(i k t 2π / L)]. *)
Definition theta (k L t : Z) : R :=
  (IZR (k * t) * (2 * PI) / IZR L)%R.

Definition ph (k L t : Z) : C := (cos (theta k L t), sin (theta k L t)).

(** The phases collected from the spin flips of [n] that land in the
    orbit of [y], as [BuildHNk] does (one term per flipped site, with
    the rotation distance to the representative) ... *)
Definition S_sum (L k n y : Z) : C :=
  Csum (seqZ 0 L)
       (λ i, if decide (rep L (FilpBit n i) = y)
             then ph k L (Z.of_nat (dist L (FilpBit n i))) else C0).

(** ... and over every rotation that maps a flipped state to [y]. *)
Definition T_sum (L k n y : Z) : C :=
  Csum (seqZ 0 L)
       (λ i, Csum (seqZ 0 L)
               (λ t, if decide (rotZ L (FilpBit n i) t = y)
                     then ph k L t else C0)).

(** The diagonal amplitude computed by the second loop of [ActingH]. *)
Definition diag_of (n L : Z) (J : R) : R :=
  fold_left (diag_step n J) (ising_bonds L) 0%R.

(** The period of [n] in the words of the specification: the smallest
    positive [r <= L] such that rotating [n] left by [r] bits gives [n]. *)
Definition is_period (L n r : Z) : Prop :=
  1 ≤ r ≤ L ∧ RotLBit n L r = n ∧ ∀ r', 1 ≤ r' < r → RotLBit n L r' ≠ n.


(** The sum over the sectors of the lengths of the sector bases. *)
Definition total_dim (L : Z) : result Z :=
  for_each (λ acc k, basisNk ← BuildBasisNk L k ;
                     mret (acc + Z.of_nat (length basisNk)))
           (range0 L) 0.

(** The Ising energy of the bond [(i, (i + 1) mod L)]: [-J] when the two
    spins are equal and [+J] when they differ; and their sum. *)
Definition bond_energy (n L : Z) (J : R) (i : Z) : R :=
  if Bool.eqb (Z.testbit n i) (Z.testbit n ((i + 1) mod L))
  then (- J)%R else J.

Definition diagSum (n L : Z) (J : R) : R :=
  sum_over Rplus 0%R (range0 L) (bond_energy n L J).

(** Results of the error monad can be compared when their values can. *)
#[global] Instance exn_eq_dec : EqDecision exn.
Proof. solve_decision. Defined.

#[global] Instance result_eq_dec {A} `{EqDecision A} : EqDecision (result A).
Proof. solve_decision. Defined.

(** What the sector loop of [Task] keeps true of its accumulators: the
    three merged lists have one length, every index is below the running
    dimension [count], and the matrix of the merged triplets is
    Hermitian. *)
Definition Task_inv (acc : list nat * list nat * list C * nat) : Prop :=
  let '(Hx, Hy, Hn, count) := acc in
  length Hy = length Hx ∧ length Hn = length Hx ∧
  Forall (λ x, x < count)%nat Hx ∧ Forall (λ y, y < count)%nat Hy ∧
  ∀ r c : nat, matrix_entry Hx Hy Hn r c = Cconj (matrix_entry Hx Hy Hn c r).

(** The accumulators of [BuildHNk] with every stored value conjugated. *)
Definition conj_state (st : HNk_state) : HNk_state :=
  mkHNk (HNk_col st) (HNk_row st) (Cconj <$> HNk_val st) (pos st).

(** A contribution with its value conjugated. *)
Definition conj_contrib (c : nat * nat * C) : nat * nat * C :=
  (c.1, Cconj c.2).

(** Two accumulator states with the same index lists and dictionary, and
    as many values. *)
Definition same_slots (st st' : HNk_state) : Prop :=
  HNk_col st' = HNk_col st ∧ HNk_row st' = HNk_row st ∧
  pos st' = pos st ∧ length (HNk_val st') = length (HNk_val st).

Abbreviation Rsum := (sum_over Rplus 0%R).

(* ===================================================================== *)
(** * The embedding on the notebook's chain of four sites *)
(* ===================================================================== *)

Example Tlist_of_6 : Tlist_of 6 4 = [6; 12; 9; 3; 6].
Proof. reflexivity. Qed.

Example RotRBit_12 : RotRBit 12 4 1 = 6.
Proof. reflexivity. Qed.

Example CountBit_13 : CountBit 13 = 3.
Proof. reflexivity. Qed.

Example BuildBasisNk_4 :
  BuildBasisNk 4 <$> [0; 1; 2; 3] =
    [Ok [0; 1; 3; 5; 7; 15]; Ok [1; 3; 7]; Ok [1; 3; 5; 7]; Ok [1; 3; 7]].
Proof. vm_compute. reflexivity. Qed.

Example BuildBasisNk_bad_length :
  BuildBasisNk 0 0 = Raise ValueError ∧ BuildBasisNk (-1) 0 = Raise TypeError.
Proof. split; reflexivity. Qed.

Example total_dim_4 : total_dim 4 = Ok 16.
Proof. vm_compute. reflexivity. Qed.

(* ===================================================================== *)
(** * Bit-level facts *)
(* ===================================================================== *)

Lemma testbit_high L n j : 0 ≤ L → is_state L n → L ≤ j → Z.testbit n j = false.
Proof.
  intros HL [H0 H1] Hj.
  rewrite <- (Z.mod_small n (2 ^ L)) by lia.
  apply Z.mod_pow2_bits_high; lia.
Qed.

Lemma low_bits_state L n :
  0 ≤ L → 0 ≤ n → (∀ j, L ≤ j → Z.testbit n j = false) → is_state L n.
Proof.
  intros HL Hn H. split; [done|].
  assert (n = n mod 2 ^ L) as ->.
  { apply Z.bits_inj'. intros j Hj.
    destruct (Z.lt_ge_cases j L).
    - rewrite Z.mod_pow2_bits_low; [done|lia].
    - rewrite Z.mod_pow2_bits_high, H; [done|lia|lia]. }
  apply Z.mod_pos_bound. lia.
Qed.

Lemma state_ext L x y :
  0 ≤ L → is_state L x → is_state L y →
  (∀ j, 0 ≤ j < L → Z.testbit x j = Z.testbit y j) → x = y.
Proof.
  intros HL Hx Hy H. apply Z.bits_inj'. intros j Hj.
  destruct (Z.lt_ge_cases j L).
  - apply H. lia.
  - rewrite !(testbit_high L); done.
Qed.

Lemma PickBit_low i n : 0 ≤ n → PickBit i 0 n = i mod 2 ^ n.
Proof.
  intros Hn. unfold PickBit.
  rewrite Z.shiftl_0_r, Z.shiftr_0_r.
  replace (2 ^ n - 1) with (Z.ones n) by (rewrite Z.ones_equiv; lia).
  by apply Z.land_ones.
Qed.

Lemma RotLBit_arith n L s :
  0 ≤ s ≤ L → RotLBit n L s = (n mod 2 ^ (L - s)) * 2 ^ s + n / 2 ^ (L - s).
Proof.
  intros Hs. unfold RotLBit.
  rewrite PickBit_low by lia.
  rewrite Z.shiftl_mul_pow2, Z.shiftr_div_pow2 by lia. done.
Qed.

Lemma RotRBit_arith n L s :
  0 ≤ s ≤ L → RotRBit n L s = (n mod 2 ^ s) * 2 ^ (L - s) + n / 2 ^ s.
Proof.
  intros Hs. unfold RotRBit.
  rewrite PickBit_low by lia.
  rewrite Z.shiftl_mul_pow2, Z.shiftr_div_pow2 by lia. done.
Qed.

(** The top [s] bits of an [L]-bit state fit in [s] bits. *)
Lemma state_high_part L n s :
  0 ≤ s ≤ L → is_state L n → 0 ≤ n / 2 ^ (L - s) < 2 ^ s.
Proof.
  intros Hs [H0 H1].
  assert (0 < 2 ^ (L - s)) by (apply Z.pow_pos_nonneg; lia).
  split; [by apply Z.div_pos|].
  apply Z.div_lt_upper_bound; [done|].
  rewrite <- Z.pow_add_r by lia. by replace (L - s + s) with L by lia.
Qed.

Lemma RotLBit_state L n s :
  0 ≤ s ≤ L → is_state L n → is_state L (RotLBit n L s).
Proof.
  intros Hs Hn. rewrite RotLBit_arith by done.
  pose proof (state_high_part L n s Hs Hn) as Hh.
  assert (0 < 2 ^ (L - s)) by (apply Z.pow_pos_nonneg; lia).
  assert (0 < 2 ^ s) by (apply Z.pow_pos_nonneg; lia).
  pose proof (Z.mod_pos_bound n (2 ^ (L - s)) ltac:(done)) as Hl.
  unfold is_state.
  assert (2 ^ L = 2 ^ (L - s) * 2 ^ s) as ->.
  { rewrite <- Z.pow_add_r by lia. f_equal. lia. }
  split; nia.
Qed.

(** Bit [j] of [a * 2^s + b] when [b] fits in [s] bits. *)
Lemma testbit_concat a b s j :
  0 ≤ s → 0 ≤ b < 2 ^ s → 0 ≤ j →
  Z.testbit (a * 2 ^ s + b) j =
    if j <? s then Z.testbit b j else Z.testbit a (j - s).
Proof.
  intros Hs Hb Hj. destruct (Z.ltb_spec j s).
  - rewrite <- (Z.mod_pow2_bits_low (a * 2 ^ s + b) s j) by lia.
    rewrite Z.add_comm, Z.mod_add by lia.
    rewrite Z.mod_small by lia. done.
  - replace j with (j - s + s) at 1 by lia.
    rewrite <- Z.div_pow2_bits by lia.
    rewrite Z.add_comm, Z.div_add by lia.
    rewrite Z.div_small by lia. done.
Qed.

Lemma RotLBit_testbit L n s j :
  0 ≤ s ≤ L → is_state L n → 0 ≤ j < L →
  Z.testbit (RotLBit n L s) j = Z.testbit n ((j - s) mod L).
Proof.
  intros Hs Hn Hj. rewrite RotLBit_arith by done.
  pose proof (state_high_part L n s Hs Hn) as Hh.
  rewrite testbit_concat by lia.
  destruct (Z.ltb_spec j s).
  - rewrite Z.div_pow2_bits by lia.
    f_equal. solve_mod (-1).
  - rewrite Z.mod_pow2_bits_low by lia.
    f_equal. solve_mod 0.
Qed.

Lemma RotLBit_0 L n : 0 ≤ L → is_state L n → RotLBit n L 0 = n.
Proof.
  intros HL [H0 H1]. rewrite RotLBit_arith by lia.
  rewrite Z.sub_0_r, Z.mod_small, Z.div_small by lia. simpl. lia.
Qed.

Lemma RotLBit_L L n : 0 ≤ L → RotLBit n L L = n.
Proof.
  intros HL. rewrite RotLBit_arith by lia.
  rewrite Z.sub_diag. simpl. rewrite Z.mod_1_r, Z.div_1_r. lia.
Qed.

Lemma RotR_RotL L n s :
  0 ≤ s ≤ L → is_state L n → RotRBit (RotLBit n L s) L s = n.
Proof.
  intros Hs Hn.
  pose proof (state_high_part L n s Hs Hn) as Hh.
  assert (0 < 2 ^ s) by (apply Z.pow_pos_nonneg; lia).
  assert (0 < 2 ^ (L - s)) by (apply Z.pow_pos_nonneg; lia).
  rewrite RotRBit_arith, RotLBit_arith by done.
  set (lo := n mod 2 ^ (L - s)). set (hi := n / 2 ^ (L - s)).
  pose proof (Z.div_mod n (2 ^ (L - s)) ltac:(lia)) as Hdm.
  fold lo hi in Hdm, Hh.
  replace (lo * 2 ^ s + hi) with (hi + lo * 2 ^ s) by lia.
  rewrite Z.mod_add, Z.div_add, Z.mod_small, Z.div_small by lia. lia.
Qed.

Lemma FilpBit_testbit n i j :
  0 ≤ i → Z.testbit (FilpBit n i) j = xorb (Z.testbit n j) (i =? j).
Proof.
  intros Hi. unfold FilpBit.
  rewrite Z.lxor_spec, Z.shiftl_1_l, Z.pow2_bits_eqb by done. done.
Qed.

Lemma FilpBit_state L n i :
  0 ≤ i < L → is_state L n → is_state L (FilpBit n i).
Proof.
  intros Hi Hn. apply low_bits_state; [lia| |].
  - unfold FilpBit. apply Z.lxor_nonneg. destruct Hn.
    rewrite Z.shiftl_1_l. split; intros _; [|done].
    apply Z.pow_nonneg. lia.
  - intros j Hj. rewrite FilpBit_testbit by lia.
    rewrite (testbit_high L) by (done || lia).
    destruct (Z.eqb_spec i j); [lia|done].
Qed.

Lemma FilpBit_involutive n i : FilpBit (FilpBit n i) i = n.
Proof.
  unfold FilpBit. rewrite Z.lxor_assoc, Z.lxor_nilpotent, Z.lxor_0_r. done.
Qed.

(* ===================================================================== *)
(** * Translations as an action of the integers *)
(* ===================================================================== *)

Section Rotations.
Variable L : Z.
Hypothesis HL : 1 ≤ L.

Lemma rotZ_state n t : is_state L n → is_state L (rotZ L n t).
Proof.
  intros Hn. apply RotLBit_state; [|done].
  pose proof (Z.mod_pos_bound t L). lia.
Qed.

Lemma rotZ_testbit n t j :
  is_state L n → 0 ≤ j < L →
  Z.testbit (rotZ L n t) j = Z.testbit n ((j - t) mod L).
Proof.
  intros Hn Hj. unfold rotZ.
  pose proof (Z.mod_pos_bound t L).
  rewrite RotLBit_testbit by (done || lia).
  by rewrite Zminus_mod_idemp_r.
Qed.

Lemma RotLBit_rotZ n s :
  is_state L n → 0 ≤ s ≤ L → RotLBit n L s = rotZ L n s.
Proof.
  intros Hn Hs. unfold rotZ.
  destruct (decide (s = L)) as [->|].
  - rewrite Z.mod_same, RotLBit_L, RotLBit_0 by (done || lia). done.
  - rewrite Z.mod_small by lia. done.
Qed.

Lemma rotZ_0 n : is_state L n → rotZ L n 0 = n.
Proof. intros Hn. unfold rotZ. rewrite Z.mod_0_l by lia. apply RotLBit_0; [lia|done]. Qed.

Lemma rotZ_mod n t : rotZ L n (t mod L) = rotZ L n t.
Proof. unfold rotZ. by rewrite Z.mod_mod by lia. Qed.

Lemma rotZ_congr n t t' : t mod L = t' mod L → rotZ L n t = rotZ L n t'.
Proof. unfold rotZ. by intros ->. Qed.

Lemma rotZ_add n a b :
  is_state L n → rotZ L (rotZ L n a) b = rotZ L n (a + b).
Proof.
  intros Hn. apply (state_ext L); [lia|by do 2 apply rotZ_state|by apply rotZ_state|].
  intros j Hj.
  pose proof (Z.mod_pos_bound (j - b) L).
  rewrite !rotZ_testbit by (by try apply rotZ_state || lia).
  rewrite Zminus_mod_idemp_l. f_equal. f_equal. lia.
Qed.

Lemma rotZ_L n : is_state L n → rotZ L n L = n.
Proof.
  intros Hn. rewrite <- (rotZ_0 n) at 2 by done.
  apply rotZ_congr. rewrite Z.mod_same, Z.mod_0_l; lia.
Qed.

Lemma rotZ_inv n m t : is_state L n → rotZ L n t = m → rotZ L m (- t) = n.
Proof.
  intros Hn <-. rewrite rotZ_add by done.
  replace (t + - t) with 0 by lia. by apply rotZ_0.
Qed.

Lemma rotZ_FilpBit n i t :
  is_state L n → 0 ≤ i < L →
  rotZ L (FilpBit n i) t = FilpBit (rotZ L n t) ((i + t) mod L).
Proof.
  intros Hn Hi.
  pose proof (Z.mod_pos_bound (i + t) L).
  apply (state_ext L); [lia| | |].
  - by apply rotZ_state, FilpBit_state.
  - apply FilpBit_state; [lia|by apply rotZ_state].
  - intros j Hj.
    pose proof (Z.mod_pos_bound (j - t) L).
    rewrite rotZ_testbit by (by try apply FilpBit_state || lia).
    rewrite !FilpBit_testbit by lia.
    rewrite rotZ_testbit by (done || lia). f_equal.
    destruct (Z.eqb_spec i ((j - t) mod L)) as [E|E];
      destruct (Z.eqb_spec ((i + t) mod L) j) as [E'|E']; try done.
    + exfalso. apply E'. rewrite E, Zplus_mod_idemp_l.
      replace (j - t + t) with j by lia. apply Z.mod_small; lia.
    + exfalso. apply E. rewrite <- E', Zminus_mod_idemp_l.
      replace (i + t - t) with i by lia. symmetry. apply Z.mod_small; lia.
Qed.

End Rotations.

(* ===================================================================== *)
(** * The Python built-ins *)
(* ===================================================================== *)

Lemma bind_Ok {A B} (m : result A) (f : A → result B) a :
  m = Ok a → m ≫= f = f a.
Proof. by intros ->. Qed.

Lemma index_from_find x l i0 :
  index_from x l i0 =
    match list_find (λ y, y = x) l with
    | Some (i, _) => Ok (i0 + i)%nat
    | None => Raise ValueError
    end.
Proof.
  revert i0. induction l as [|y l IH]; intros i0; simpl; [done|].
  destruct (Z.eqb_spec y x) as [->|Hne].
  - rewrite decide_True by done. simpl. f_equal. lia.
  - rewrite decide_False by done. rewrite IH.
    destruct (list_find _ l) as [[i z]|]; simpl; [|done].
    f_equal. lia.
Qed.

Lemma py_index_Ok x l i :
  py_index x l = Ok i ↔
  l !! i = Some x ∧ ∀ j, (j < i)%nat → l !! j ≠ Some x.
Proof.
  unfold py_index. rewrite index_from_find.
  destruct (list_find _ l) as [[i' z]|] eqn:E.
  - apply list_find_Some in E as (Hl & -> & Hmin). split.
    + intros [= <-]. split; [done|]. intros j Hj Hjx. by eapply Hmin.
    + intros [Hi Hm]. f_equal. simpl.
      destruct (Nat.lt_trichotomy i' i) as [?|[?|?]]; [|done|].
      * by destruct (Hm i').
      * by destruct (Hmin i x).
  - apply list_find_None in E. split; [done|]. intros [Hi _].
    apply list_elem_of_lookup_2 in Hi.
    rewrite Forall_forall in E. by destruct (E x).
Qed.

Lemma py_index_elem x l : x ∈ l → ∃ i, py_index x l = Ok i.
Proof.
  intros Hx. unfold py_index. rewrite index_from_find.
  destruct (list_find _ l) as [[i' z]|] eqn:E; [by eexists|].
  apply list_find_None in E. rewrite Forall_forall in E. by destruct (E x).
Qed.

Lemma py_index_not_elem x l : x ∉ l → py_index x l = Raise ValueError.
Proof.
  intros Hx. unfold py_index. rewrite index_from_find.
  destruct (list_find _ l) as [[i' z]|] eqn:E; [|done].
  apply list_find_Some in E as (Hl & -> & _).
  by apply list_elem_of_lookup_2 in Hl.
Qed.

Lemma fold_left_min_spec l y :
  let m := fold_left Z.min l y in
  m ∈ y :: l ∧ ∀ z, z ∈ y :: l → m ≤ z.
Proof.
  revert y. induction l as [|x l IH]; intros y; simpl.
  - split; [by left|]. intros z [->|[]%elem_of_nil]%elem_of_cons. lia.
  - destruct (IH (Z.min y x)) as [Hin Hle]. split.
    + apply elem_of_cons in Hin as [->|Hin]; [|by do 2 right].
      destruct (Z.min_spec y x) as [[_ ->]|[_ ->]]; [by left|right; by left].
    + intros z Hz.
      pose proof (Hle (Z.min y x) ltac:(by left)).
      apply elem_of_cons in Hz as [->|Hz]; [lia|].
      apply elem_of_cons in Hz as [->|Hz]; [lia|].
      apply Hle. by right.
Qed.

Lemma py_min_Ok l m :
  py_min l = Ok m ↔ m ∈ l ∧ ∀ z, z ∈ l → m ≤ z.
Proof.
  destruct l as [|y l]; simpl.
  - split; [done|]. intros [H _]. by apply elem_of_nil in H.
  - pose proof (fold_left_min_spec l y) as [Hin Hle]. split.
    + by intros [= <-].
    + intros [Hm Hm']. f_equal.
      pose proof (Hle m Hm). pose proof (Hm' _ Hin). lia.
Qed.

Lemma py_in_spec x l : py_in x l = true ↔ x ∈ l.
Proof.
  unfold py_in. rewrite existsb_exists. split.
  - intros (y & Hy & ->%Z.eqb_eq). by apply list_elem_of_In.
  - intros Hx. exists x. split; [by apply list_elem_of_In|apply Z.eqb_refl].
Qed.

(* ===================================================================== *)
(** * Period, representative and rotation distance *)
(* ===================================================================== *)

Lemma Tlist_lookup n L (i : nat) :
  Z.of_nat i ≤ L → Tlist_of n L !! i = Some (RotLBit n L (Z.of_nat i)).
Proof.
  intros Hi. unfold Tlist_of, range0.
  rewrite list_lookup_fmap, lookup_seqZ_lt by lia. done.
Qed.

Lemma Tlist_lookup_Some n L (i : nat) x :
  Tlist_of n L !! i = Some x → Z.of_nat i ≤ L ∧ x = RotLBit n L (Z.of_nat i).
Proof.
  unfold Tlist_of, range0. rewrite list_lookup_fmap.
  destruct (seqZ 0 (L + 1) !! i) as [z|] eqn:E; [|done].
  apply lookup_seqZ in E as [-> ?]. intros [= <-]. split; [lia|].
  f_equal.
Qed.

Lemma Tlist_elem n L x :
  x ∈ Tlist_of n L ↔ ∃ s, 0 ≤ s ≤ L ∧ x = RotLBit n L s.
Proof.
  unfold Tlist_of, range0. rewrite list_elem_of_fmap. split.
  - intros (s & -> & Hs%elem_of_seqZ). exists s. split; [lia|done].
  - intros (s & Hs & ->). exists s. split; [done|]. apply elem_of_seqZ. lia.
Qed.

Section Orbits.
Variable L : Z.
Hypothesis HL : 1 ≤ L.

Lemma period_of_Ok n :
  is_state L n →
  ∃ r, period_of n (Tlist_of n L) = Ok r ∧ 1 ≤ r ≤ L ∧
       RotLBit n L r = n ∧ ∀ t, 1 ≤ t < r → RotLBit n L t ≠ n.
Proof.
  intros Hn. unfold period_of.
  assert (n ∈ drop 1 (Tlist_of n L)) as Hin.
  { apply list_elem_of_lookup. exists (Z.to_nat (L - 1)).
    rewrite lookup_drop, Tlist_lookup by lia.
    replace (Z.of_nat (1 + Z.to_nat (L - 1))) with L by lia.
    by rewrite RotLBit_L by lia. }
  destruct (py_index_elem _ _ Hin) as [i Hi]. rewrite Hi. simpl.
  exists (Z.of_nat i + 1). split; [done|].
  apply py_index_Ok in Hi as [Hi Hmin].
  rewrite lookup_drop in Hi.
  apply Tlist_lookup_Some in Hi as [Hle Heq].
  replace (Z.of_nat (1 + i)) with (Z.of_nat i + 1) in * by lia.
  split; [lia|]. split; [done|].
  intros t Ht Hfix. apply (Hmin (Z.to_nat (t - 1))); [lia|].
  rewrite lookup_drop, Tlist_lookup by lia.
  replace (Z.of_nat (1 + Z.to_nat (t - 1))) with t by lia.
  by rewrite Hfix.
Qed.

Lemma period_spec n :
  is_state L n →
  1 ≤ period L n ≤ L ∧ rotZ L n (period L n) = n ∧
  ∀ t, 1 ≤ t < period L n → rotZ L n t ≠ n.
Proof.
  intros Hn. destruct (period_of_Ok n Hn) as (r & Hr & Hrange & Hfix & Hmin).
  unfold period. rewrite Hr. split; [done|]. split.
  - rewrite <- RotLBit_rotZ by (done || lia). done.
  - intros t Ht. rewrite <- RotLBit_rotZ by (done || lia). by apply Hmin.
Qed.

Lemma rotZ_period_mul n (q : nat) :
  is_state L n → rotZ L n (period L n * Z.of_nat q) = n.
Proof.
  intros Hn. induction q as [|q IH].
  - rewrite Z.mul_0_r. by apply rotZ_0.
  - replace (period L n * Z.of_nat (S q))
      with (period L n * Z.of_nat q + period L n) by lia.
    rewrite <- rotZ_add, IH by done. by apply period_spec.
Qed.

Lemma rotZ_fix_nonneg n t :
  is_state L n → 0 ≤ t → rotZ L n t = n ↔ t mod period L n = 0.
Proof.
  intros Hn Ht.
  destruct (period_spec n Hn) as (Hp & Hfix & Hmin).
  pose proof (Z.mod_pos_bound t (period L n) ltac:(lia)) as Hb.
  assert (rotZ L n t = rotZ L n (t mod period L n)) as ->.
  { rewrite (Z.div_mod t (period L n)) at 1 by lia.
    rewrite <- rotZ_add by done.
    replace (t / period L n) with (Z.of_nat (Z.to_nat (t / period L n))).
    - by rewrite rotZ_period_mul.
    - apply Z2Nat.id, Z.div_pos; lia. }
  split.
  - intros Hf. destruct (decide (t mod period L n = 0)); [done|].
    destruct (Hmin (t mod period L n)); [lia|done].
  - intros ->. by apply rotZ_0.
Qed.

Lemma period_divides n : is_state L n → L mod period L n = 0.
Proof.
  intros Hn. apply rotZ_fix_nonneg; [done|lia|]. by apply rotZ_L.
Qed.

Lemma mod_mod_divides a p :
  0 < p → L mod p = 0 → (a mod L) mod p = a mod p.
Proof.
  intros Hp Hd. apply Z.mod_divide in Hd as [q Hq]; [|lia].
  rewrite (Z.div_mod a L) at 2 by lia.
  rewrite Hq at 2.
  replace (q * p * (a / L) + a mod L) with (a mod L + (q * (a / L)) * p) by lia.
  by rewrite Z.mod_add by lia.
Qed.

Lemma rotZ_fix n t :
  is_state L n → rotZ L n t = n ↔ t mod period L n = 0.
Proof.
  intros Hn. destruct (period_spec n Hn) as (Hp & _).
  rewrite <- rotZ_mod by done.
  rewrite rotZ_fix_nonneg; [|done|by apply Z.mod_pos_bound; lia].
  rewrite mod_mod_divides; [done|lia|by apply period_divides].
Qed.

Lemma rotZ_eq n a b :
  is_state L n → rotZ L n a = rotZ L n b ↔ (a - b) mod period L n = 0.
Proof.
  intros Hn. rewrite <- rotZ_fix by done. split.
  - intros H. replace (a - b) with (a + - b) by lia.
    rewrite <- rotZ_add, H, rotZ_add by done.
    replace (b + - b) with 0 by lia. by apply rotZ_0.
  - intros H. replace a with ((a - b) + b) by lia.
    rewrite <- rotZ_add by done. by rewrite H.
Qed.

Lemma period_unique n r :
  is_state L n → 1 ≤ r → rotZ L n r = n →
  (∀ t, 1 ≤ t < r → rotZ L n t ≠ n) → period L n = r.
Proof.
  intros Hn Hr Hfix Hmin.
  destruct (period_spec n Hn) as (Hp & Hfix' & Hmin').
  destruct (Z.lt_trichotomy (period L n) r) as [?|[?|?]]; [|done|].
  - destruct (Hmin (period L n)); [lia|done].
  - assert (r mod period L n = 0) as H0 by (by apply rotZ_fix).
    rewrite Z.mod_small in H0; lia.
Qed.

Lemma period_rotZ n t :
  is_state L n → period L (rotZ L n t) = period L n.
Proof.
  intros Hn. destruct (period_spec n Hn) as (Hp & Hfix' & Hmin').
  apply period_unique; [by apply rotZ_state|lia| |].
  - rewrite rotZ_add by done. apply rotZ_eq; [done|].
    replace (t + period L n - t) with (period L n) by lia.
    apply Z.mod_same. lia.
  - intros s Hs. rewrite rotZ_add by done. rewrite rotZ_eq by done.
    replace (t + s - t) with s by lia.
    rewrite Z.mod_small; lia.
Qed.

Lemma rep_Ok n : ∃ m, py_min (Tlist_of n L) = Ok m.
Proof.
  unfold Tlist_of, range0. rewrite seqZ_cons by lia. simpl. by eexists.
Qed.

Lemma rep_spec n :
  is_state L n →
  (∃ t, 0 ≤ t < L ∧ rep L n = rotZ L n t) ∧ ∀ t, rep L n ≤ rotZ L n t.
Proof.
  intros Hn. unfold rep. destruct (rep_Ok n) as [m Hm]. rewrite Hm.
  apply py_min_Ok in Hm as [Hin Hle]. split.
  - apply Tlist_elem in Hin as (s & Hs & ->).
    exists (s mod L). split; [apply Z.mod_pos_bound; lia|].
    rewrite rotZ_mod by lia. by apply RotLBit_rotZ.
  - intros t. apply Hle, Tlist_elem. exists (t mod L).
    pose proof (Z.mod_pos_bound t L). split; [lia|done].
Qed.

Lemma rep_state n : is_state L n → is_state L (rep L n).
Proof.
  intros Hn. destruct (rep_spec n Hn) as [(t & _ & ->) _].
  by apply rotZ_state.
Qed.

Lemma rep_unique n x t :
  is_state L n → x = rotZ L n t → (∀ s, x ≤ rotZ L n s) → rep L n = x.
Proof.
  intros Hn Hx Hle. destruct (rep_spec n Hn) as [(t' & _ & Hr) Hle'].
  pose proof (Hle t'). pose proof (Hle' t). lia.
Qed.

Lemma rep_rotZ n t : is_state L n → rep L (rotZ L n t) = rep L n.
Proof.
  intros Hn. destruct (rep_spec n Hn) as [(t' & _ & Hr) Hle'].
  apply (rep_unique _ _ (t' - t)); [by apply rotZ_state| |].
  - rewrite rotZ_add by done. rewrite Hr. f_equal. lia.
  - intros s. rewrite rotZ_add by done. apply Hle'.
Qed.

Lemma rep_idem n : is_state L n → rep L (rep L n) = rep L n.
Proof.
  intros Hn. destruct (rep_spec n Hn) as [(t & _ & Hr) _].
  rewrite Hr at 1. by apply rep_rotZ.
Qed.

Lemma period_rep n : is_state L n → period L (rep L n) = period L n.
Proof.
  intros Hn. destruct (rep_spec n Hn) as [(t & _ & ->) _].
  by apply period_rotZ.
Qed.

Lemma rep_le n : is_state L n → rep L n ≤ n.
Proof.
  intros Hn. destruct (rep_spec n Hn) as [_ Hle].
  specialize (Hle 0). by rewrite rotZ_0 in Hle.
Qed.

End Orbits.

Section Distance.
Variable L : Z.
Hypothesis HL : 1 ≤ L.

Lemma dist_Ok n :
  is_state L n →
  py_index (rep L n) (Tlist_of n L) = Ok (dist L n) ∧
  rotZ L n (Z.of_nat (dist L n)) = rep L n ∧
  0 ≤ Z.of_nat (dist L n) < period L n.
Proof using HL.
  intros Hn.
  destruct (rep_spec L HL n Hn) as [(t & Ht & Hr) _].
  destruct (period_spec L HL n Hn) as (Hp & _ & _).
  assert (rep L n ∈ Tlist_of n L) as Hin.
  { apply Tlist_elem. exists t. split; [lia|].
    rewrite Hr. symmetry. apply RotLBit_rotZ; [lia|done|lia]. }
  destruct (py_index_elem _ _ Hin) as [d Hd].
  unfold dist. rewrite Hd. split; [done|].
  apply py_index_Ok in Hd as [Hd Hmin].
  apply Tlist_lookup_Some in Hd as [Hle Heq].
  rewrite RotLBit_rotZ in Heq by (done || lia).
  split; [done|]. split; [lia|].
  pose proof (Z.mod_pos_bound (Z.of_nat d) (period L n) ltac:(lia)) as Hb.
  destruct (decide (Z.of_nat d < period L n)) as [|Hge]; [done|exfalso].
  apply (Hmin (Z.to_nat (Z.of_nat d mod period L n))).
  - pose proof (Z.mod_le (Z.of_nat d) (period L n)). lia.
  - rewrite Tlist_lookup by lia. f_equal.
    rewrite RotLBit_rotZ by (done || lia).
    rewrite Heq. apply rotZ_eq; [done..|].
    rewrite Z2Nat.id by lia.
    rewrite Zminus_mod_idemp_l. replace (_ - _) with 0 by lia.
    apply Z.mod_0_l. lia.
Qed.

Lemma rotZ_rep_iff n t :
  is_state L n →
  rotZ L n t = rep L n ↔ (t - Z.of_nat (dist L n)) mod period L n = 0.
Proof using HL.
  intros Hn. destruct (dist_Ok n Hn) as (_ & <- & _). by apply rotZ_eq.
Qed.

Lemma dist_rep n : is_state L n → rep L n = n → dist L n = 0%nat.
Proof using HL.
  intros Hn Hr. destruct (dist_Ok n Hn) as (Hd & _ & _).
  apply py_index_Ok in Hd as [_ Hmin].
  destruct (dist L n) as [|d]; [done|exfalso].
  apply (Hmin 0%nat); [lia|].
  rewrite Tlist_lookup, Hr by lia. f_equal. apply RotLBit_0; [lia|done].
Qed.

End Distance.

(* ===================================================================== *)
(** * The sector basis *)
(* ===================================================================== *)

Lemma basisNk_step_spec L k acc n :
  1 ≤ L → is_state L n →
  basisNk_step L k acc n =
    Ok (if decide (in_sector L k n) then acc ++ [n] else acc).
Proof.
  intros HL Hn. unfold basisNk_step.
  destruct (rep_Ok L HL n) as [m Hm].
  destruct (period_of_Ok L HL n Hn) as (r & Hr & _).
  assert (rep L n = m) as Hrep by (unfold rep; by rewrite Hm).
  assert (period L n = r) as Hper by (unfold period; by rewrite Hr).
  rewrite Hm, Hr. simpl.
  unfold py_mod. destruct (Z.eqb_spec L 0); [lia|].
  destruct (decide (in_sector L k n)) as [[H1 H2]|Hno].
  - rewrite Hrep in H1. rewrite Hper in H2.
    destruct (Z.eqb_spec m n); [|done]. simpl. by rewrite H2.
  - destruct (Z.eqb_spec m n) as [E|]; simpl; [|done].
    destruct (Z.eqb_spec ((k * r) mod L) 0) as [E'|]; [|done].
    destruct Hno. split; congruence.
Qed.

Lemma for_each_basisNk L k l acc :
  1 ≤ L → Forall (is_state L) l →
  for_each (basisNk_step L k) l acc = Ok (acc ++ filter (in_sector L k) l).
Proof.
  intros HL Hl. revert acc.
  induction Hl as [|n l Hn Hl IH]; intros acc; simpl.
  - by rewrite app_nil_r.
  - rewrite basisNk_step_spec by done. simpl. rewrite filter_cons.
    destruct (decide (in_sector L k n)); rewrite IH; [|done].
    by rewrite <- app_assoc.
Qed.

Lemma BuildBasisNk_spec L k : 1 ≤ L → BuildBasisNk L k = Ok (sector_basis L k).
Proof.
  intros HL. unfold BuildBasisNk, BuildBasisN.
  destruct (Z.ltb_spec L 0); [lia|]. simpl.
  rewrite for_each_basisNk; [done..|].
  apply Forall_seqZ. unfold is_state. lia.
Qed.

Lemma sector_basis_elem L k n :
  n ∈ sector_basis L k ↔ in_sector L k n ∧ is_state L n.
Proof.
  unfold sector_basis. rewrite list_elem_of_filter, elem_of_seqZ.
  unfold is_state. split; intros [? ?]; (split; [done|lia]).
Qed.

Lemma sector_basis_NoDup L k : NoDup (sector_basis L k).
Proof. apply NoDup_filter, NoDup_seqZ. Qed.




(* ===================================================================== *)
(** * Finite sums over a commutative monoid *)
(* ===================================================================== *)

Section BigSum.
Context {A : Type} (add : A → A → A) (zero : A).
Hypothesis add_assoc : ∀ x y z, add x (add y z) = add (add x y) z.
Hypothesis add_comm : ∀ x y, add x y = add y x.
Hypothesis add_zero_l : ∀ x, add zero x = x.

Local Abbreviation Σ := (sum_over add zero).

Lemma sum_over_cons {I} (x : I) l f : Σ (x :: l) f = add (f x) (Σ l f).
Proof. done. Qed.

Lemma add_zero_r x : add x zero = x.
Proof using add_comm add_zero_l. by rewrite add_comm. Qed.

Lemma sum_over_app {I} (l1 l2 : list I) f :
  Σ (l1 ++ l2) f = add (Σ l1 f) (Σ l2 f).
Proof using add_assoc add_zero_l.
  induction l1 as [|x l1 IH]; simpl; [by rewrite add_zero_l|].
  by rewrite IH, add_assoc.
Qed.

Lemma sum_over_ext {I} (l : list I) f g :
  (∀ x, x ∈ l → f x = g x) → Σ l f = Σ l g.
Proof.
  induction l as [|x l IH]; intros H; simpl; [done|].
  rewrite H by left. rewrite IH; [done|]. intros y Hy. apply H. by right.
Qed.

Lemma sum_over_perm {I} (l l' : list I) f : l ≡ₚ l' → Σ l f = Σ l' f.
Proof using add_assoc add_comm.
  induction 1 as [|x l l' _ IH|x y l|l l' l'' _ IH1 _ IH2]; simpl.
  - done.
  - by rewrite IH.
  - by rewrite !add_assoc, (add_comm (f y)).
  - by rewrite IH1.
Qed.

Lemma sum_over_fmap {I I'} (h : I → I') (l : list I) f :
  Σ (h <$> l) f = Σ l (f ∘ h).
Proof.
  induction l as [|x l IH]; [done|].
  rewrite fmap_cons, !sum_over_cons. by rewrite IH.
Qed.

Lemma sum_over_zero {I} (l : list I) f :
  (∀ x, x ∈ l → f x = zero) → Σ l f = zero.
Proof using add_zero_l.
  induction l as [|x l IH]; intros H; simpl; [done|].
  rewrite H by left. rewrite add_zero_l. apply IH. intros y Hy. apply H. by right.
Qed.

Lemma sum_over_add {I} (l : list I) f g :
  Σ l (λ x, add (f x) (g x)) = add (Σ l f) (Σ l g).
Proof using add_assoc add_comm add_zero_l.
  induction l as [|x l IH]; simpl; [by rewrite add_zero_l|].
  rewrite IH, !add_assoc. f_equal.
  rewrite <- !add_assoc. f_equal. apply add_comm.
Qed.

Lemma sum_over_swap {I I'} (li : list I) (lj : list I') (f : I → I' → A) :
  Σ li (λ i, Σ lj (f i)) = Σ lj (λ j, Σ li (λ i, f i j)).
Proof using add_assoc add_comm add_zero_l.
  induction li as [|i li IH]; simpl.
  - symmetry. by apply sum_over_zero.
  - by rewrite IH, <- sum_over_add.
Qed.

Lemma sum_over_single {I} `{EqDecision I} (l : list I) (i : I) v :
  NoDup l → i ∈ l → Σ l (λ j, if decide (j = i) then v else zero) = v.
Proof using add_comm add_zero_l.
  induction 1 as [|x l Hx Hl IH]; intros Hi; [by apply elem_of_nil in Hi|].
  simpl. destruct (decide (x = i)) as [->|Hne].
  - rewrite sum_over_zero; [apply add_zero_r|].
    intros y Hy. rewrite decide_False; [done|]. by intros ->.
  - rewrite add_zero_l. apply IH.
    apply elem_of_cons in Hi as [->|Hi]; done.
Qed.

Lemma rep_add_S q v : rep_add add zero (S q) v = add v (rep_add add zero q v).
Proof. done. Qed.

(** The residue class of [d] modulo [r] in [[0, r * q)] has [q] members. *)
Lemma sum_over_mod_class (r d : Z) (q : nat) v :
  0 ≤ d < r →
  Σ (seqZ 0 (r * Z.of_nat q)) (λ t, if decide (t mod r = d) then v else zero)
  = rep_add add zero q v.
Proof using add_assoc add_comm add_zero_l.
  intros Hd. induction q as [|q IH].
  - by rewrite Z.mul_0_r.
  - replace (r * Z.of_nat (S q)) with (r * Z.of_nat q + r) by lia.
    assert (0 ≤ r * Z.of_nat q) by nia.
    rewrite seqZ_app, sum_over_app, IH by lia.
    rewrite rep_add_S, add_comm. f_equal.
    replace (seqZ (0 + r * Z.of_nat q) r)
      with (Z.add (r * Z.of_nat q) <$> seqZ 0 r)
      by (rewrite fmap_add_seqZ; f_equal; lia).
    rewrite sum_over_fmap.
    erewrite sum_over_ext.
    + apply (sum_over_single _ d); [apply NoDup_seqZ|apply elem_of_seqZ; lia].
    + intros u Hu%elem_of_seqZ. simpl.
      assert ((r * Z.of_nat q + u) mod r = u) as ->.
      { rewrite Z.add_comm, Z.mul_comm, Z.mod_add by lia.
        apply Z.mod_small. lia. }
      done.
Qed.

Lemma sum_over_bind {I I'} (g : I → list I') (l : list I) f :
  Σ (l ≫= g) f = Σ l (λ x, Σ (g x) f).
Proof using add_assoc add_zero_l.
  induction l as [|x l IH]; [done|].
  rewrite bind_cons, sum_over_app, sum_over_cons. by rewrite IH.
Qed.

Lemma sum_over_filter {I} (P : I → Prop) `{∀ x, Decision (P x)} (l : list I) f :
  Σ (filter P l) f = Σ l (λ x, if decide (P x) then f x else zero).
Proof using add_zero_l.
  induction l as [|x l IH]; [done|].
  rewrite filter_cons, sum_over_cons.
  destruct (decide (P x)); [by rewrite sum_over_cons, IH|].
  by rewrite add_zero_l.
Qed.

Lemma sum_over_omap {I I'} (g : I → option I') (l : list I) f :
  Σ (omap g l) f = Σ l (λ x, match g x with Some c => f c | None => zero end).
Proof using add_zero_l.
  induction l as [|x l IH]; [done|].
  rewrite sum_over_cons.
  change (omap g (x :: l))
    with (match g x with Some y => y :: omap g l | None => omap g l end).
  destruct (g x); [rewrite sum_over_cons|rewrite add_zero_l]; by rewrite IH.
Qed.

Lemma sum_over_const {I} (l : list I) v :
  Σ l (λ _, v) = rep_add add zero (length l) v.
Proof.
  induction l as [|x l IH]; [done|].
  by rewrite sum_over_cons, IH.
Qed.

End BigSum.

(** A self-map of [[0, L)] that is injective there permutes the range. *)
Lemma seqZ_reindex (L : Z) (σ : Z → Z) :
  (∀ i, 0 ≤ i < L → 0 ≤ σ i < L) →
  (∀ i j, 0 ≤ i < L → 0 ≤ j < L → σ i = σ j → i = j) →
  σ <$> seqZ 0 L ≡ₚ seqZ 0 L.
Proof.
  intros Hran Hinj. apply submseteq_length_Permutation.
  - apply NoDup_submseteq.
    + apply NoDup_fmap_2_strong; [|apply NoDup_seqZ].
      intros i j Hi%elem_of_seqZ Hj%elem_of_seqZ. apply Hinj; lia.
    + intros x (i & -> & Hi%elem_of_seqZ)%list_elem_of_fmap.
      apply elem_of_seqZ. specialize (Hran i). lia.
  - by rewrite length_fmap.
Qed.

(* ===================================================================== *)
(** * Counting: the sector bases exhaust the Hilbert space *)
(* ===================================================================== *)

Lemma Zsum_perm {I} (l l' : list I) f : l ≡ₚ l' → Zsum l f = Zsum l' f.
Proof. apply sum_over_perm; intros; lia. Qed.

Lemma Zsum_swap {I I'} (li : list I) (lj : list I') (f : I → I' → Z) :
  Zsum li (λ i, Zsum lj (f i)) = Zsum lj (λ j, Zsum li (λ i, f i j)).
Proof. apply sum_over_swap; intros; lia. Qed.

Lemma Zrep_add (q : nat) v : rep_add Z.add 0 q v = Z.of_nat q * v.
Proof.
  induction q as [|q IH]; [done|].
  rewrite rep_add_S, IH. lia.
Qed.

Lemma length_Zsum {I} (l : list I) : Z.of_nat (length l) = Zsum l (λ _, 1).
Proof. rewrite sum_over_const, Zrep_add. lia. Qed.

Lemma length_filter_Zsum {I} (P : I → Prop) `{∀ x, Decision (P x)} (l : list I) :
  Z.of_nat (length (filter P l)) = Zsum l (λ x, if decide (P x) then 1 else 0).
Proof. rewrite length_Zsum, sum_over_filter; [done|intros; lia]. Qed.

Lemma mod_zero_small p d : 0 < p → - p < d < p → d mod p = 0 → d = 0.
Proof.
  intros Hp Hd [q Hq]%Z.mod_divide; [|lia].
  destruct (Z.lt_trichotomy q 0) as [?|[?|?]]; nia.
Qed.

Lemma orbit_list_NoDup L m : 1 ≤ L → is_state L m → NoDup (orbit_list L m).
Proof.
  intros HL Hm. apply NoDup_fmap_2_strong; [|apply NoDup_seqZ].
  intros t t' Ht%elem_of_seqZ Ht'%elem_of_seqZ Heq.
  apply rotZ_eq in Heq; [|done..].
  apply mod_zero_small in Heq; lia.
Qed.

Lemma orbit_list_elem L m x :
  1 ≤ L → is_state L m → x ∈ orbit_list L m ↔ ∃ t, x = rotZ L m t.
Proof.
  intros HL Hm. destruct (period_spec L HL m Hm) as (Hp & _).
  unfold orbit_list. rewrite list_elem_of_fmap. split.
  - intros (t & -> & _). by eexists.
  - intros (t & ->). exists (t mod period L m). split.
    + apply rotZ_eq; [done..|].
      rewrite Zminus_mod_idemp_r, Z.sub_diag. apply Z.mod_0_l. lia.
    + apply elem_of_seqZ. pose proof (Z.mod_pos_bound t (period L m)). lia.
Qed.

Lemma orbit_partition L :
  1 ≤ L →
  seqZ 0 (2 ^ L) ≡ₚ filter (λ m, rep L m = m) (seqZ 0 (2 ^ L)) ≫= orbit_list L.
Proof.
  intros HL.
  assert (∀ m, m ∈ filter (λ m, rep L m = m) (seqZ 0 (2 ^ L)) ↔
               rep L m = m ∧ is_state L m) as Hfilter.
  { intros m. rewrite list_elem_of_filter, elem_of_seqZ. unfold is_state.
    split; intros [? ?]; (split; [done|lia]). }
  apply NoDup_Permutation.
  - apply NoDup_seqZ.
  - apply NoDup_bind.
    + intros m1 m2 y [Hr1 Hm1]%Hfilter [Hr2 Hm2]%Hfilter.
      intros [t1 ->]%orbit_list_elem [t2 Heq]%orbit_list_elem; [|done..].
      rewrite <- Hr1, <- Hr2.
      rewrite <- (rep_rotZ L HL m1 t1), <- (rep_rotZ L HL m2 t2) by done.
      by rewrite Heq.
    + intros m [_ Hm]%Hfilter. by apply orbit_list_NoDup.
    + apply NoDup_filter, NoDup_seqZ.
  - intros x. rewrite list_elem_of_bind, elem_of_seqZ. split.
    + intros Hx. assert (is_state L x) as Hs by (unfold is_state; lia).
      exists (rep L x). split.
      * apply orbit_list_elem; [done|by apply rep_state|].
        destruct (rep_spec L HL x Hs) as [(t & _ & Hr) _].
        exists (- t). symmetry. by apply rotZ_inv.
      * apply Hfilter. split; [by apply rep_idem|by apply rep_state].
    + intros (m & Hx & [_ Hm]%Hfilter).
      apply orbit_list_elem in Hx as [t ->]; [|done..].
      pose proof (rotZ_state L HL m t Hm) as [? ?]. lia.
Qed.

Lemma sector_count L n :
  1 ≤ L → is_state L n →
  Zsum (seqZ 0 L) (λ k, if decide ((k * period L n) mod L = 0) then 1 else 0)
  = period L n.
Proof.
  intros HL Hn. destruct (period_spec L HL n Hn) as (Hp & _).
  pose proof (period_divides L HL n Hn) as Hd.
  apply Z.mod_divide in Hd as [q Hq]; [|lia].
  assert (0 < q) by nia.
  transitivity (rep_add Z.add 0 (Z.to_nat (period L n)) 1);
    [|rewrite Zrep_add; lia].
  rewrite <- (sum_over_mod_class Z.add 0 Z.add_assoc Z.add_comm Z.add_0_l q 0)
    by lia.
  rewrite Z2Nat.id by lia.
  replace (q * period L n) with L by lia.
  apply sum_over_ext. intros k _.
  assert ((k * period L n) mod L = (k mod q) * period L n) as Hm.
  { transitivity ((k * period L n) mod (q * period L n)); [f_equal; lia|].
    apply Z.mul_mod_distr_r; lia. }
  destruct (decide (k mod q = 0)) as [E|E].
  - rewrite decide_True; [done|]. rewrite Hm, E. lia.
  - rewrite decide_False; [done|]. rewrite Hm. nia.
Qed.

Lemma sector_dims_sum L :
  1 ≤ L →
  Zsum (seqZ 0 L) (λ k, Z.of_nat (length (sector_basis L k))) = 2 ^ L.
Proof.
  intros HL.
  transitivity (Zsum (seqZ 0 (2 ^ L))
                  (λ n, if decide (rep L n = n) then period L n else 0)).
  - transitivity
      (Zsum (seqZ 0 L) (λ k, Zsum (seqZ 0 (2 ^ L))
                               (λ n, if decide (in_sector L k n) then 1 else 0))).
    { apply sum_over_ext. intros k _. apply length_filter_Zsum. }
    rewrite Zsum_swap. apply sum_over_ext. intros n Hn%elem_of_seqZ.
    assert (is_state L n) as Hs by (unfold is_state; lia).
    destruct (decide (rep L n = n)) as [Hr|Hr].
    + rewrite <- (sector_count L n) by done.
      apply sum_over_ext. intros k _. unfold in_sector.
      destruct (decide ((k * period L n) mod L = 0)).
      * by rewrite decide_True.
      * rewrite decide_False; [done|]. by intros [_ ?].
    + apply sum_over_zero; [intros; lia|]. intros k _.
      rewrite decide_False; [done|]. by intros [? _].
  - assert (0 ≤ 2 ^ L) by (apply Z.pow_nonneg; lia).
    transitivity (Z.of_nat (length (seqZ 0 (2 ^ L))));
      [|rewrite length_seqZ; lia].
    rewrite length_Zsum.
    rewrite (Zsum_perm _ _ (λ _, 1) (orbit_partition L HL)).
    rewrite sum_over_bind, sum_over_filter by (intros; lia).
    symmetry. apply sum_over_ext. intros n Hn%elem_of_seqZ.
    assert (is_state L n) as Hs by (unfold is_state; lia).
    destruct (period_spec L HL n Hs) as (Hp & _).
    destruct (decide (rep L n = n)); [|done].
    unfold orbit_list. rewrite <- length_Zsum, length_fmap, length_seqZ. lia.
Qed.

(* ===================================================================== *)
(** * Complex sums *)
(* ===================================================================== *)

Lemma Cadd_assoc x y z : Cadd x (Cadd y z) = Cadd (Cadd x y) z.
Proof. unfold Cadd. simpl. f_equal; lra. Qed.

Lemma Cadd_comm x y : Cadd x y = Cadd y x.
Proof. unfold Cadd. f_equal; lra. Qed.

Lemma Cadd_0_l x : Cadd C0 x = x.
Proof. destruct x. unfold Cadd, C0. simpl. f_equal; lra. Qed.

Lemma Cadd_0_r x : Cadd x C0 = x.
Proof. by rewrite Cadd_comm, Cadd_0_l. Qed.

Lemma Csum_app {I} (l1 l2 : list I) f :
  Csum (l1 ++ l2) f = Cadd (Csum l1 f) (Csum l2 f).
Proof. apply sum_over_app; [apply Cadd_assoc|apply Cadd_0_l]. Qed.

Lemma Csum_zero {I} (l : list I) f : (∀ x, x ∈ l → f x = C0) → Csum l f = C0.
Proof. apply sum_over_zero, Cadd_0_l. Qed.

Lemma Csum_perm {I} (l l' : list I) f : l ≡ₚ l' → Csum l f = Csum l' f.
Proof. apply sum_over_perm; [apply Cadd_assoc|apply Cadd_comm]. Qed.

Lemma Csum_swap {I I'} (li : list I) (lj : list I') (f : I → I' → C) :
  Csum li (λ i, Csum lj (f i)) = Csum lj (λ j, Csum li (λ i, f i j)).
Proof. apply sum_over_swap; [apply Cadd_assoc|apply Cadd_comm|apply Cadd_0_l]. Qed.

(** A sum with at most one non-zero term, at position [p]. *)
Lemma Csum_at {I} (l : list I) (p : nat) (x : I) f :
  l !! p = Some x →
  (∀ q y, l !! q = Some y → q ≠ p → f y = C0) →
  Csum l f = f x.
Proof.
  intros Hp Hz. rewrite <- (take_drop_middle l p x Hp).
  assert (p < length l)%nat by by eapply lookup_lt_Some.
  rewrite Csum_app, sum_over_cons.
  rewrite !Csum_zero, ?Cadd_0_l, ?Cadd_0_r; [done| |].
  - intros y [q Hq]%list_elem_of_lookup. rewrite lookup_drop in Hq.
    apply (Hz _ _ Hq). lia.
  - intros y [q Hq]%list_elem_of_lookup.
    pose proof (lookup_lt_Some _ _ _ Hq) as Hlt.
    rewrite length_take in Hlt. rewrite lookup_take_lt in Hq by lia.
    apply (Hz _ _ Hq). lia.
Qed.

(* ===================================================================== *)
(** * The triplet accumulator *)
(* ===================================================================== *)

Lemma key_sum_snoc cs c key :
  key_sum (cs ++ [c]) key =
    Cadd (key_sum cs key) (if decide (c.1 = key) then c.2 else C0).
Proof.
  unfold key_sum. rewrite Csum_app. f_equal. simpl. apply Cadd_0_r.
Qed.

Lemma key_sum_absent cs key :
  (∀ c, c ∈ cs → c.1 ≠ key) → key_sum cs key = C0.
Proof.
  intros H. apply Csum_zero. intros c Hc.
  rewrite decide_False; [done|]. by apply H.
Qed.

Lemma acc_inv_init : acc_inv [] HNk_init.
Proof.
  split; simpl; try done.
  - intros key p. rewrite lookup_empty. split; [done|]. by intros [? _].
  - intros key _ c Hc. by apply elem_of_nil in Hc.
Qed.

Lemma accumulate_inv cs st a b v :
  acc_inv cs st →
  ∃ st', accumulate a b v st = Ok st' ∧ acc_inv (cs ++ [((a, b), v)]) st'.
Proof.
  intros [Hlr Hlv Hpos Hval Habs Hpre]. unfold accumulate.
  destruct (pos st !! (a, b)) as [p|] eqn:Hp.
  - (* the pair has a slot: add to it *)
    pose proof (Hval _ _ Hp) as Hx. unfold py_get. rewrite Hx. simpl.
    eexists. split; [done|].
    assert (p < length (HNk_val st))%nat by by eapply lookup_lt_Some.
    split; simpl.
    + done.
    + by rewrite length_insert.
    + done.
    + intros key p' Hp'. rewrite key_sum_snoc. simpl.
      destruct (decide ((a, b) = key)) as [<-|Hne].
      * assert (p' = p) as -> by congruence.
        by rewrite list_lookup_insert_eq.
      * rewrite Cadd_0_r, list_lookup_insert_ne; [by apply Hval|].
        intros ->. apply Hne.
        apply Hpos in Hp as [? ?]. apply Hpos in Hp' as [? ?].
        destruct key. simpl in *. congruence.
    + intros key Hk c [Hc| ->%list_elem_of_singleton]%elem_of_app.
      * by apply Habs.
      * simpl. congruence.
    + intros key p' Hp'. destruct (Hpre _ _ Hp') as (c & Hc & Hck).
      exists c. split; [|done]. apply elem_of_app. by left.
  - (* a new pair: append a triplet *)
    simpl. eexists. split; [done|].
    rewrite length_app. simpl.
    replace (length (HNk_col st) + 1 - 1)%nat with (length (HNk_col st)) by lia.
    split; simpl.
    + by rewrite !length_app, Hlr.
    + by rewrite !length_app, Hlv.
    + intros key p. destruct (decide ((a, b) = key)) as [<-|Hne].
      * rewrite lookup_insert_eq. simpl. split.
        -- intros [= <-]. rewrite <- Hlr at 2.
           by rewrite !list_lookup_middle.
        -- intros [Hc Hr]. f_equal.
           destruct (decide (p < length (HNk_col st))%nat) as [Hlt|Hge].
           ++ rewrite lookup_app_l in Hc, Hr by lia.
              assert (pos st !! (a, b) = Some p) by by apply Hpos.
              congruence.
           ++ apply lookup_lt_Some in Hc. rewrite length_app in Hc.
              simpl in Hc. lia.
      * rewrite lookup_insert_ne by done. rewrite Hpos. split.
        -- intros [Hc Hr]. pose proof (lookup_lt_Some _ _ _ Hc).
           rewrite !lookup_app_l by lia. done.
        -- intros [Hc Hr].
           destruct (decide (p < length (HNk_col st))%nat) as [Hlt|Hge].
           ++ rewrite !lookup_app_l in Hc, Hr by lia. done.
           ++ pose proof (lookup_lt_Some _ _ _ Hc) as Hlt.
              rewrite length_app in Hlt. simpl in Hlt.
              assert (p = length (HNk_col st)) as -> by lia.
              rewrite list_lookup_middle in Hc by done.
              rewrite list_lookup_middle in Hr by done.
              destruct key. simpl in *. congruence.
    + intros key p. rewrite key_sum_snoc. simpl.
      destruct (decide ((a, b) = key)) as [<-|Hne].
      * rewrite lookup_insert_eq. intros [= <-].
        rewrite list_lookup_middle by done.
        rewrite (key_sum_absent cs) by by apply Habs.
        by rewrite Cadd_0_l.
      * rewrite lookup_insert_ne by done. intros Hk.
        pose proof (Hval _ _ Hk) as Hv.
        pose proof (lookup_lt_Some _ _ _ Hv).
        rewrite lookup_app_l, Cadd_0_r by lia. done.
    + intros key Hk c [Hc| ->%list_elem_of_singleton]%elem_of_app.
      * apply Habs; [|done].
        destruct (decide ((a, b) = key)) as [<-|Hne]; [done|].
        by rewrite lookup_insert_ne in Hk.
      * simpl. intros <-. by rewrite lookup_insert_eq in Hk.
    + intros key p. destruct (decide ((a, b) = key)) as [<-|Hne].
      * intros _. exists ((a, b), v). split; [|done].
        apply elem_of_app. right. by apply list_elem_of_singleton.
      * rewrite lookup_insert_ne by done. intros Hk.
        destruct (Hpre _ _ Hk) as (c & Hc & Hck).
        exists c. split; [|done]. apply elem_of_app. by left.
Qed.

Lemma for_each_app {A S} (f : S → A → result S) l1 l2 s :
  for_each f (l1 ++ l2) s = for_each f l1 s ≫= for_each f l2.
Proof.
  revert s. induction l1 as [|x l1 IH]; intros s; simpl; [done|].
  destruct (f s x); simpl; [apply IH|done].
Qed.

Lemma for_each_ext {A S} (f f' : S → A → result S) l s :
  (∀ s x, x ∈ l → f s x = f' s x) → for_each f l s = for_each f' l s.
Proof.
  revert s. induction l as [|x l IH]; intros s H; simpl; [done|].
  rewrite H by left. destruct (f' s x); simpl; [|done].
  apply IH. intros s' y Hy. apply H. by right.
Qed.

Lemma for_each_bind {A B S} (f : S → B → result S) (g : A → list B) l s :
  for_each f (l ≫= g) s = for_each (λ s x, for_each f (g x) s) l s.
Proof.
  revert s. induction l as [|x l IH]; intros s; [done|].
  rewrite bind_cons, for_each_app. simpl.
  destruct (for_each f (g x) s); simpl; [apply IH|done].
Qed.

Lemma for_each_omap {A B S} (f : S → B → result S) (g : A → option B) l s :
  for_each f (omap g l) s =
  for_each (λ s x, match g x with Some c => f s c | None => Ok s end) l s.
Proof.
  revert s. induction l as [|x l IH]; intros s; simpl; [done|].
  destruct (g x); simpl; [|apply IH].
  destruct (f s b); simpl; [apply IH|done].
Qed.

Lemma acc_list_inv cs :
  ∃ st, for_each acc_step cs HNk_init = Ok st ∧ acc_inv cs st.
Proof.
  induction cs as [|c cs IH] using rev_ind.
  - exists HNk_init. split; [done|apply acc_inv_init].
  - destruct IH as (st & Hst & Hinv).
    rewrite for_each_app, Hst. simpl.
    destruct c as [[a b] v].
    destruct (accumulate_inv cs st a b v Hinv) as (st' & Hst' & Hinv').
    exists st'. unfold acc_step. simpl. by rewrite Hst'.
Qed.

Lemma triplet_lookup (cols rows : list nat) (vals : list C) q t :
  zip (zip cols rows) vals !! q = Some t ↔
  cols !! q = Some t.1.1 ∧ rows !! q = Some t.1.2 ∧ vals !! q = Some t.2.
Proof.
  split.
  - intros (cr & v & -> & Hcr & Hv)%lookup_zip_with_Some.
    apply lookup_zip_with_Some in Hcr as (c & r & -> & Hc & Hr). done.
  - intros (Hc & Hr & Hv). apply lookup_zip_with_Some. exists t.1, t.2. split; [by destruct t|].
    split; [|done]. apply lookup_zip_with_Some.
    exists t.1.1, t.1.2. split; [by destruct t as [[? ?] ?]|done].
Qed.

Lemma matrix_entry_inv cs st r c :
  acc_inv cs st →
  matrix_entry (HNk_col st) (HNk_row st) (HNk_val st) r c = key_sum cs (c, r).
Proof.
  intros [Hlr Hlv Hpos Hval Habs Hpre]. unfold matrix_entry.
  destruct (pos st !! (c, r)) as [p|] eqn:Hp.
  - pose proof (Hval _ _ Hp) as Hv. apply Hpos in Hp as [Hc Hr]. simpl in *.
    rewrite (Csum_at _ p ((c, r), key_sum cs (c, r))).
    + simpl. by rewrite decide_True.
    + by apply triplet_lookup.
    + intros q t (Hc' & Hr' & _)%triplet_lookup Hne.
      rewrite decide_False; [done|]. intros [E1 E2]. apply Hne.
      assert (pos st !! (c, r) = Some q) as Hq.
      { apply Hpos. simpl. by rewrite <- E1, <- E2. }
      assert (pos st !! (c, r) = Some p) as Hp' by by apply Hpos.
      congruence.
  - rewrite key_sum_absent by by apply Habs.
    apply Csum_zero. intros t [q (Hc & Hr & _)%triplet_lookup]%list_elem_of_lookup.
    rewrite decide_False; [done|]. intros [E1 E2].
    assert (pos st !! (c, r) = Some q) as Hq; [|congruence].
    apply Hpos. simpl. by rewrite <- E1, <- E2.
Qed.

(* ===================================================================== *)
(** * The loops of [BuildHNk] as a list of contributions *)
(* ===================================================================== *)

Lemma idx_lookup basis x : x ∈ basis → basis !! idx basis x = Some x.
Proof.
  intros Hx. unfold idx. destruct (py_index_elem _ _ Hx) as [i Hi].
  rewrite Hi. by apply py_index_Ok in Hi as [? _].
Qed.

Lemma idx_py_index basis x : x ∈ basis → py_index x basis = Ok (idx basis x).
Proof.
  intros Hx. unfold idx. destruct (py_index_elem _ _ Hx) as [i Hi].
  by rewrite Hi.
Qed.

Lemma idx_NoDup basis i x : NoDup basis → basis !! i = Some x → idx basis x = i.
Proof.
  intros Hnd Hi. eapply NoDup_lookup; [done| |done].
  apply idx_lookup. by eapply list_elem_of_lookup_2.
Qed.

Lemma ActingH_elem n L J g m h :
  (m, h) ∈ ActingH n L J g →
  (∃ i, 0 ≤ i < L ∧ m = FilpBit n i ∧ h = (- J * g)%R) ∨
  (m = n ∧ h = fold_left (diag_step n J) (ising_bonds L) 0%R).
Proof.
  unfold ActingH. simpl. rewrite elem_of_app, list_elem_of_fmap. intros [H|H].
  - left. destruct H as (i & [= -> ->] & Hi%elem_of_seqZ).
    exists i. split; [lia|done].
  - right. apply list_elem_of_singleton in H as [= -> ->]. done.
Qed.

Lemma ActingH_state n L J g m h :
  is_state L n → (m, h) ∈ ActingH n L J g → is_state L m.
Proof.
  intros Hn [(i & Hi & -> & _)|[-> _]]%ActingH_elem; [|done].
  by apply FilpBit_state.
Qed.

Lemma HNk_inner_spec L k basis n b st m h :
  1 ≤ L → is_state L n → is_state L m → b = idx basis n →
  HNk_inner L k basis n b st (m, h) =
    match contrib_of L k basis n (m, h) with
    | Some c => acc_step st c
    | None => Ok st
    end.
Proof.
  intros HL Hn Hm ->. unfold HNk_inner, contrib_of. simpl.
  destruct (rep_Ok L HL m) as [m_rs Hrs].
  destruct (period_of_Ok L HL m Hm) as (Rm & HRm & _).
  destruct (period_of_Ok L HL n Hn) as (Rn & HRn & _).
  destruct (dist_Ok L HL m Hm) as (Hd & _).
  assert (rep L m = m_rs) as Hrep by (unfold rep; by rewrite Hrs).
  assert (period L m = Rm) as HpM by (unfold period; by rewrite HRm).
  assert (period L n = Rn) as HpN by (unfold period; by rewrite HRn).
  rewrite Hrs, HRm. simpl. rewrite <- Hrep, Hd. simpl.
  rewrite HRn. simpl. rewrite HpM, HpN.
  destruct (py_in (rep L m) basis) eqn:Hin; [|done].
  apply py_in_spec in Hin. rewrite (idx_py_index _ _ Hin). done.
Qed.

Lemma HNk_outer_spec L k J g basis st n :
  1 ≤ L → is_state L n → n ∈ basis →
  HNk_outer L k J g basis st n =
    for_each acc_step (omap (contrib_of L k basis n) (ActingH n L J g)) st.
Proof.
  intros HL Hn Hin. unfold HNk_outer.
  rewrite (idx_py_index _ _ Hin). simpl.
  rewrite for_each_omap. apply for_each_ext.
  intros s [m h] Hmh. apply HNk_inner_spec; [done..| |done].
  by eapply ActingH_state.
Qed.

Lemma BuildHNk_acc L k J g :
  1 ≤ L →
  let basis := sector_basis L k in
  ∃ st, BuildHNk L k J g =
          Ok (HNk_col st, HNk_row st, HNk_val st, length basis, basis) ∧
        acc_inv (all_contribs L k J g basis) st.
Proof.
  intros HL basis. unfold BuildHNk.
  rewrite BuildBasisNk_spec by done. simpl. fold basis.
  destruct (acc_list_inv (all_contribs L k J g basis)) as (st & Hst & Hinv).
  exists st. split; [|done].
  unfold all_contribs in Hst. rewrite for_each_bind in Hst.
  erewrite for_each_ext; [rewrite Hst; done|].
  intros s n Hn. simpl. apply HNk_outer_spec; [done| |done].
  by apply sector_basis_elem in Hn as [_ ?].
Qed.

(* ===================================================================== *)
(** * Matrix elements between representatives *)
(* ===================================================================== *)

Lemma key_sum_elem L k J g a b n y :
  let basis := sector_basis L k in
  basis !! b = Some n → basis !! a = Some y →
  key_sum (all_contribs L k J g basis) (a, b) = elem L k J g n y.
Proof.
  intros basis Hb Ha.
  pose proof (sector_basis_NoDup L k) as Hnd. fold basis in Hnd.
  unfold key_sum, all_contribs.
  rewrite sum_over_bind by (apply Cadd_assoc || apply Cadd_0_l).
  rewrite (Csum_at _ b n); [|done|].
  - rewrite sum_over_omap by apply Cadd_0_l.
    apply sum_over_ext. intros [m h] _. unfold contrib_of. simpl.
    rewrite (idx_NoDup basis b n) by done.
    destruct (py_in (rep L m) basis) eqn:Hin.
    + apply py_in_spec in Hin. simpl.
      destruct (decide (rep L m = y)) as [E|E].
      * rewrite decide_True; [done|]. f_equal.
        apply idx_NoDup; [done|]. by rewrite E.
      * rewrite decide_False; [done|]. intros [= E' ]. apply E.
        pose proof (idx_lookup _ _ Hin) as Hl. rewrite E' in Hl. congruence.
    + rewrite decide_False; [done|]. intros <-.
      assert (py_in (rep L m) basis = true); [|congruence].
      apply py_in_spec. by eapply list_elem_of_lookup_2.
  - intros q n' Hq Hne.
    rewrite sum_over_omap by apply Cadd_0_l.
    apply Csum_zero. intros [m h] _. unfold contrib_of. simpl.
    destruct (py_in (rep L m) basis); [|done]. simpl.
    rewrite decide_False; [done|]. intros [= _ E]. apply Hne.
    rewrite <- E. symmetry. by apply idx_NoDup.
Qed.

Lemma all_contribs_key L k J g basis c :
  c ∈ all_contribs L k J g basis →
  (c.1.1 < length basis)%nat ∧ (c.1.2 < length basis)%nat.
Proof.
  unfold all_contribs. rewrite list_elem_of_bind.
  intros (n & Hc & Hn). apply list_elem_of_omap in Hc as ([m h] & _ & Hc).
  unfold contrib_of in Hc. simpl in Hc.
  destruct (py_in (rep L m) basis) eqn:Hin; [|done].
  apply py_in_spec in Hin. injection Hc as <-. simpl. split.
  - eapply lookup_lt_Some. by apply idx_lookup.
  - eapply lookup_lt_Some. by apply idx_lookup.
Qed.

Lemma key_sum_out_of_range L k J g basis a b :
  (length basis ≤ a)%nat ∨ (length basis ≤ b)%nat →
  key_sum (all_contribs L k J g basis) (a, b) = C0.
Proof.
  intros Hab. apply key_sum_absent. intros c Hc E.
  apply all_contribs_key in Hc as [? ?]. rewrite E in *. simpl in *. lia.
Qed.

(* ===================================================================== *)
(** * The number of set bits *)
(* ===================================================================== *)

Lemma Zsum_reindex (L : Z) (σ : Z → Z) (f : Z → Z) :
  (∀ i, 0 ≤ i < L → 0 ≤ σ i < L) →
  (∀ i j, 0 ≤ i < L → 0 ≤ j < L → σ i = σ j → i = j) →
  Zsum (seqZ 0 L) (f ∘ σ) = Zsum (seqZ 0 L) f.
Proof.
  intros Hran Hinj. rewrite <- sum_over_fmap.
  apply Zsum_perm. by apply seqZ_reindex.
Qed.

Lemma shift_inj L t i j :
  1 ≤ L → 0 ≤ i < L → 0 ≤ j < L → (i + t) mod L = (j + t) mod L → i = j.
Proof.
  intros HL Hi Hj E.
  assert ((i - j) mod L = 0) as H0.
  { replace (i - j) with ((i + t) - (j + t)) by lia.
    rewrite Zminus_mod, E, Z.sub_diag. apply Z.mod_0_l. lia. }
  apply mod_zero_small in H0; lia.
Qed.

Lemma weight_rotZ L n t :
  1 ≤ L → is_state L n → weight L (rotZ L n t) = weight L n.
Proof.
  intros HL Hn. unfold weight.
  rewrite <- (Zsum_reindex L (λ j, (j + - t) mod L)
                (λ j, Z.b2z (Z.testbit n j))).
  - apply sum_over_ext. intros j Hj%elem_of_seqZ. simpl.
    rewrite rotZ_testbit by (done || lia). done.
  - intros i _. apply Z.mod_pos_bound. lia.
  - intros i j Hi Hj. by apply shift_inj.
Qed.

Lemma weight_FilpBit L n i :
  0 ≤ i < L →
  weight L (FilpBit n i) = weight L n + (1 - 2 * Z.b2z (Z.testbit n i)).
Proof.
  intros Hi. unfold weight.
  rewrite <- (sum_over_single Z.add 0 Z.add_comm Z.add_0_l (seqZ 0 L) i
                (1 - 2 * Z.b2z (Z.testbit n i)));
    [|apply NoDup_seqZ|apply elem_of_seqZ; lia].
  rewrite <- sum_over_add by (intros; lia).
  apply sum_over_ext. intros j _.
  rewrite FilpBit_testbit by lia.
  destruct (decide (j = i)) as [->|Hne].
  - rewrite Z.eqb_refl. by destruct (Z.testbit n i).
  - destruct (Z.eqb_spec i j); [lia|]. by destruct (Z.testbit n j).
Qed.

Lemma weight_FilpBit_ne L n i : 0 ≤ i < L → weight L (FilpBit n i) ≠ weight L n.
Proof.
  intros Hi. rewrite weight_FilpBit by done. destruct (Z.testbit n i); simpl; lia.
Qed.

(** Flipping a spin leaves the translation orbit. *)
Lemma FilpBit_other_orbit L n i t :
  1 ≤ L → is_state L n → 0 ≤ i < L → rotZ L (FilpBit n i) t ≠ n.
Proof.
  intros HL Hn Hi E. apply (weight_FilpBit_ne L n i Hi).
  rewrite <- E at 2. symmetry. apply weight_rotZ; [done|].
  by apply FilpBit_state.
Qed.

Lemma rep_FilpBit_ne L n i :
  1 ≤ L → is_state L n → 0 ≤ i < L → rep L (FilpBit n i) ≠ n.
Proof.
  intros HL Hn Hi E.
  destruct (rep_spec L HL (FilpBit n i)) as [(t & _ & Hr) _];
    [by apply FilpBit_state|].
  apply (FilpBit_other_orbit L n i t); congruence.
Qed.

Lemma str_count_append c s1 s2 :
  str_count c (String.append s1 s2) = str_count c s1 + str_count c s2.
Proof. induction s1 as [|a s1 IH]; simpl; [done|]. rewrite IH. lia. Qed.

Lemma CountBit_double x (c : bool) :
  0 ≤ x → CountBit (2 * x + Z.b2z c) = CountBit x + Z.b2z c.
Proof.
  intros Hx. destruct x as [|p|p]; [by destruct c| |lia].
  unfold CountBit. destruct c; simpl; by rewrite str_count_append.
Qed.

Lemma CountBit_weight L n : 0 ≤ L → is_state L n → CountBit n = weight L n.
Proof.
  intros HL. revert n. pattern L. apply natlike_ind; [| |done].
  - intros n [? ?]. assert (n = 0) as -> by (simpl in *; lia). done.
  - clear L HL. intros L HL IH n [Hn0 Hn1].
    unfold weight. rewrite seqZ_cons by lia.
    replace (Z.pred (Z.succ L)) with L by lia.
    replace (seqZ (Z.succ 0) L) with (Z.add 1 <$> seqZ 0 L)
      by (by rewrite fmap_add_seqZ).
    rewrite sum_over_cons, sum_over_fmap.
    assert (is_state L (n / 2)) as Hh.
    { rewrite Z.pow_succ_r in Hn1 by done. split.
      - apply Z.div_pos; lia.
      - apply Z.div_lt_upper_bound; lia. }
    transitivity (Z.b2z (Z.testbit n 0) + weight L (n / 2)).
    + rewrite <- IH by done.
      rewrite (Z.div_mod n 2) at 1 by lia.
      rewrite <- (Z.bit0_mod n), CountBit_double by (apply Z.div_pos; lia). lia.
    + f_equal. apply sum_over_ext. intros j Hj%elem_of_seqZ. simpl.
      f_equal. rewrite <- Z.div2_div, Z.div2_spec, Z.shiftr_spec by lia.
      f_equal. lia.
Qed.

(* ===================================================================== *)
(** * Phase factors *)
(* ===================================================================== *)

Local Open Scope R_scope.

Lemma Cexp_phase_arg k d L : Cexp (phase_arg k d L) = ph k L (Z.of_nat d).
Proof.
  unfold Cexp, phase_arg, ph, theta, Cdivr, Cmulr, Ci. simpl.
  replace (0 * IZR k * INR d * 2 * PI / IZR L) with 0 by (unfold Rdiv; ring).
  replace (1 * IZR k * INR d * 2 * PI / IZR L)
    with (IZR (k * Z.of_nat d) * (2 * PI) / IZR L)
    by (rewrite mult_IZR, <- INR_IZR_INZ; unfold Rdiv; ring).
  rewrite exp_0. f_equal; ring.
Qed.

Lemma contribution_ph h k d L Rn Rm :
  contribution h k d L Rn Rm =
    Rmulc (h * sqrt (IZR Rn) / sqrt (IZR Rm)) (ph k L (Z.of_nat d)).
Proof.
  unfold contribution. rewrite Cexp_phase_arg.
  unfold Cdivr, Cmulr, Rmulc. simpl. f_equal; unfold Rdiv; ring.
Qed.

Lemma cos_period_Z x q : cos (x + 2 * IZR q * PI) = cos x.
Proof.
  destruct (Z.le_gt_cases 0 q).
  - rewrite <- (Z2Nat.id q), <- INR_IZR_INZ by done. apply cos_period.
  - rewrite <- (cos_period (x + 2 * IZR q * PI) (Z.to_nat (- q))).
    f_equal. rewrite INR_IZR_INZ, Z2Nat.id, opp_IZR by lia. ring.
Qed.

Lemma sin_period_Z x q : sin (x + 2 * IZR q * PI) = sin x.
Proof.
  destruct (Z.le_gt_cases 0 q).
  - rewrite <- (Z2Nat.id q), <- INR_IZR_INZ by done. apply sin_period.
  - rewrite <- (sin_period (x + 2 * IZR q * PI) (Z.to_nat (- q))).
    f_equal. rewrite INR_IZR_INZ, Z2Nat.id, opp_IZR by lia. ring.
Qed.

Lemma ph_congr k L t t' :
  (1 ≤ L)%Z → ((k * t) mod L = (k * t') mod L)%Z → ph k L t = ph k L t'.
Proof.
  intros HL E.
  assert (IZR L ≠ 0) as HL0 by (apply not_0_IZR; lia).
  pose proof (Z.div_mod (k * t) L ltac:(lia)) as H1.
  pose proof (Z.div_mod (k * t') L ltac:(lia)) as H2.
  set (q := (k * t / L - k * t' / L)%Z).
  assert (k * t = k * t' + L * q)%Z as Hq by (unfold q; lia).
  clearbody q.
  assert (theta k L t = theta k L t' + 2 * IZR q * PI) as Hth.
  { unfold theta. rewrite Hq, plus_IZR, !mult_IZR. by field. }
  unfold ph. by rewrite Hth, cos_period_Z, sin_period_Z.
Qed.

Lemma ph_conj k L t : Cconj (ph k L t) = ph k L (- t).
Proof.
  unfold ph, Cconj. simpl.
  assert (theta k L (- t) = - theta k L t) as ->.
  { unfold theta. replace (k * - t)%Z with (- (k * t))%Z by lia.
    rewrite opp_IZR. unfold Rdiv. ring. }
  by rewrite cos_neg, sin_neg.
Qed.

Lemma ph_0 k L : ph k L 0 = (1, 0).
Proof.
  unfold ph, theta. rewrite Z.mul_0_r.
  replace (0 * (2 * PI) / IZR L) with 0 by (unfold Rdiv; ring).
  by rewrite cos_0, sin_0.
Qed.

(** Linearity of complex sums. *)
Lemma Rmulc_Csum {I} x (l : list I) f :
  Rmulc x (Csum l f) = Csum l (λ i, Rmulc x (f i)).
Proof.
  induction l as [|i l IH]; simpl.
  - unfold Rmulc, C0. simpl. f_equal; ring.
  - rewrite <- IH. unfold Rmulc, Cadd. simpl. f_equal; ring.
Qed.

Lemma Cconj_Csum {I} (l : list I) f :
  Cconj (Csum l f) = Csum l (λ i, Cconj (f i)).
Proof.
  induction l as [|i l IH]; simpl.
  - unfold Cconj, C0. simpl. f_equal; ring.
  - rewrite <- IH. unfold Cconj, Cadd. simpl. f_equal; ring.
Qed.

Lemma Rmulc_0 x : Rmulc x C0 = C0.
Proof. unfold Rmulc, C0. simpl. f_equal; ring. Qed.

Lemma Cconj_0 : Cconj C0 = C0.
Proof. unfold Cconj, C0. simpl. f_equal; ring. Qed.

Lemma Crep_add (q : nat) v : rep_add Cadd C0 q v = Rmulc (INR q) v.
Proof.
  induction q as [|q IH].
  - unfold Rmulc, C0. simpl. f_equal; ring.
  - rewrite rep_add_S, IH, S_INR. unfold Rmulc, Cadd. simpl. f_equal; ring.
Qed.

Lemma Csum_reindex (L : Z) (σ : Z → Z) (f : Z → C) :
  (∀ i, (0 ≤ i < L)%Z → (0 ≤ σ i < L)%Z) →
  (∀ i j, (0 ≤ i < L)%Z → (0 ≤ j < L)%Z → σ i = σ j → i = j) →
  Csum (seqZ 0 L) (f ∘ σ) = Csum (seqZ 0 L) f.
Proof.
  intros Hran Hinj. rewrite <- sum_over_fmap.
  apply Csum_perm. by apply seqZ_reindex.
Qed.

Local Close Scope R_scope.

(* ===================================================================== *)
(** * Hermiticity of the matrix elements *)
(* ===================================================================== *)

Section Hermitian.
Variables L k : Z.
Hypothesis HL : 1 ≤ L.

Lemma mod_sub_iff t d p : 0 ≤ d < p → (t - d) mod p = 0 ↔ t mod p = d.
Proof.
  intros Hd. split.
  - intros [c Hc]%Z.mod_divide; [|lia]. solve_mod c.
  - intros <-. rewrite Zminus_mod_idemp_r, Z.sub_diag. apply Z.mod_0_l. lia.
Qed.

Lemma orbit_phase_sum m y :
  is_state L m → rep L y = y → is_state L y → (k * period L y) mod L = 0 →
  Csum (seqZ 0 L) (λ t, if decide (rotZ L m t = y) then ph k L t else C0) =
    if decide (rep L m = y)
    then Rmulc (IZR (L / period L y)) (ph k L (Z.of_nat (dist L m)))
    else C0.
Proof using HL.
  intros Hm Hy Hys Hk. destruct (decide (rep L m = y)) as [E|E].
  - assert (period L y = period L m) as Hp
      by (rewrite <- E; by apply period_rep).
    rewrite Hp in *. clear Hp.
    destruct (period_spec L HL m Hm) as (Hp & _).
    destruct (dist_Ok L HL m Hm) as (_ & _ & Hd).
    pose proof (period_divides L HL m Hm) as Hdiv.
    set (p := period L m) in *. set (d := Z.of_nat (dist L m)) in *.
    assert (L = p * (L / p)) as HLp.
    { pose proof (Z.div_mod L p ltac:(lia)). lia. }
    assert (0 ≤ L / p) by (apply Z.div_pos; lia).
    rewrite <- (Z2Nat.id (L / p)), <- INR_IZR_INZ, <- Crep_add by done.
    rewrite <- (sum_over_mod_class Cadd C0 Cadd_assoc Cadd_comm Cadd_0_l p d)
      by done.
    rewrite Z2Nat.id, <- HLp by done.
    apply sum_over_ext. intros t _.
    pose proof (rotZ_rep_iff L HL m t Hm) as Hiff.
    fold p d in Hiff. rewrite E in Hiff.
    pose proof (mod_sub_iff t d p Hd) as Hiff'.
    destruct (decide (t mod p = d)) as [Et|Et].
    + rewrite decide_True by by apply Hiff, Hiff'.
      apply ph_congr; [done|].
      apply Z.mod_divide in Hk as [e He]; [|lia].
      pose proof (Z.div_mod t p ltac:(lia)) as Ht. rewrite Et in Ht.
      rewrite Ht at 1.
      replace (k * (p * (t / p) + d)) with (k * d + (e * (t / p)) * L)
        by (rewrite Z.mul_add_distr_l, Z.mul_assoc, He; ring).
      apply Z.mod_add. lia.
    + rewrite decide_False; [done|]. intros Hr. by apply Et, Hiff', Hiff.
  - apply Csum_zero. intros t _. rewrite decide_False; [done|].
    intros Ht. apply E. rewrite <- Hy, <- Ht. symmetry. by apply rep_rotZ.
Qed.

Lemma T_S n y :
  is_state L n → is_state L y → rep L y = y → (k * period L y) mod L = 0 →
  T_sum L k n y = Rmulc (IZR (L / period L y)) (S_sum L k n y).
Proof using HL.
  intros Hn Hys Hy Hk. unfold T_sum, S_sum. rewrite Rmulc_Csum.
  apply sum_over_ext. intros i Hi%elem_of_seqZ.
  rewrite orbit_phase_sum; [|by apply FilpBit_state; [lia|]|done..].
  destruct (decide (rep L (FilpBit n i) = y)); [done|].
  by rewrite Rmulc_0.
Qed.

Lemma neg_inj i j :
  0 ≤ i < L → 0 ≤ j < L → (- i) mod L = (- j) mod L → i = j.
Proof using HL.
  intros Hi Hj E.
  assert ((j - i) mod L = 0) as H0.
  { replace (j - i) with (- i - - j) by lia.
    rewrite Zminus_mod, E, Z.sub_diag. apply Z.mod_0_l. lia. }
  apply mod_zero_small in H0; lia.
Qed.

(** A flip of [n] rotated onto [y] is a flip of [y] rotated back onto [n]. *)
Lemma flip_rot_swap n y i t :
  is_state L n → is_state L y → 0 ≤ i < L →
  rotZ L (FilpBit n i) t = y ↔ rotZ L (FilpBit y ((i + t) mod L)) (- t) = n.
Proof using HL.
  intros Hn Hy Hi.
  pose proof (Z.mod_pos_bound (i + t) L ltac:(lia)) as Hb.
  rewrite rotZ_FilpBit by done. split.
  - intros <-. rewrite FilpBit_involutive. rewrite rotZ_add by done.
    replace (t + - t) with 0 by lia. by apply rotZ_0.
  - intros E. apply (rotZ_inv L HL) in E; [|by apply FilpBit_state].
    rewrite Z.opp_involutive in E. rewrite E. apply FilpBit_involutive.
Qed.

Lemma T_conj n y :
  is_state L n → is_state L y → T_sum L k y n = Cconj (T_sum L k n y).
Proof using HL.
  intros Hn Hy. unfold T_sum.
  set (F := λ j s, if decide (rotZ L (FilpBit y j) s = n)
                   then ph k L s else C0).
  change (Csum (seqZ 0 L) (λ j, Csum (seqZ 0 L) (λ s, F j s)) =
          Cconj (Csum (seqZ 0 L)
                   (λ i, Csum (seqZ 0 L)
                           (λ t, if decide (rotZ L (FilpBit n i) t = y)
                                 then ph k L t else C0)))).
  transitivity (Csum (seqZ 0 L)
                  (λ i, Csum (seqZ 0 L)
                          (λ t, F ((i + t) mod L) ((- t) mod L)))).
  - symmetry.
    rewrite (Csum_swap _ _ (λ i t, F ((i + t) mod L) ((- t) mod L))).
    transitivity (Csum (seqZ 0 L)
                    (λ t, Csum (seqZ 0 L) (λ j, F j ((- t) mod L)))).
    + apply sum_over_ext. intros t _.
      apply (Csum_reindex L (λ i, (i + t) mod L) (λ j, F j ((- t) mod L))).
      * intros i _. apply Z.mod_pos_bound. lia.
      * intros i j Hi Hj. by apply shift_inj.
    + rewrite (Csum_swap _ _ (λ t j, F j ((- t) mod L))).
      apply sum_over_ext. intros j _.
      apply (Csum_reindex L (λ t, (- t) mod L) (λ s, F j s)).
      * intros i _. apply Z.mod_pos_bound. lia.
      * apply neg_inj.
  - rewrite Cconj_Csum. apply sum_over_ext. intros i Hi%elem_of_seqZ.
    rewrite Cconj_Csum. apply sum_over_ext. intros t _. unfold F.
    rewrite rotZ_mod by done.
    destruct (decide (rotZ L (FilpBit n i) t = y)) as [E|E].
    + rewrite decide_True by (apply (flip_rot_swap n y i t Hn Hy); [lia|done]).
      rewrite ph_conj. apply ph_congr; [done|].
      by rewrite Z.mul_mod_idemp_r by lia.
    + rewrite decide_False, Cconj_0; [done|].
      intros E'. apply E. apply (flip_rot_swap n y i t Hn Hy); [lia|done].
Qed.

End Hermitian.

Lemma ActingH_eq n L J g :
  ActingH n L J g =
    ((λ i, (FilpBit n i, (- J * g)%R)) <$> seqZ 0 L) ++ [(n, diag_of n L J)].
Proof. done. Qed.

Lemma elem_split L k J g n y :
  elem L k J g n y =
    Cadd (Csum (seqZ 0 L)
            (λ i, if decide (rep L (FilpBit n i) = y)
                  then contribution (- J * g) k (dist L (FilpBit n i)) L
                         (period L n) (period L (FilpBit n i))
                  else C0))
         (if decide (rep L n = y)
          then contribution (diag_of n L J) k (dist L n) L
                 (period L n) (period L n)
          else C0).
Proof.
  unfold elem. rewrite ActingH_eq, Csum_app, sum_over_fmap. f_equal.
  simpl. apply Cadd_0_r.
Qed.

Section Elements.
Variables L k : Z.
Variables J g : R.
Hypothesis HL : 1 ≤ L.

Lemma sqrt_period_pos n : is_state L n → (0 < sqrt (IZR (period L n)))%R.
Proof using HL.
  intros Hn. destruct (period_spec L HL n Hn) as (Hp & _).
  apply sqrt_lt_R0, IZR_lt. lia.
Qed.

Lemma elem_diag n :
  is_state L n → rep L n = n → elem L k J g n n = RtoC (diag_of n L J).
Proof using HL.
  intros Hn Hr. rewrite elem_split.
  rewrite Csum_zero, Cadd_0_l.
  - rewrite decide_True by done.
    rewrite contribution_ph, (dist_rep L HL n Hn Hr). simpl.
    rewrite ph_0. pose proof (sqrt_period_pos n Hn).
    unfold Rmulc, RtoC. simpl. f_equal; field; lra.
  - intros i Hi%elem_of_seqZ. rewrite decide_False; [done|].
    apply rep_FilpBit_ne; (done || lia).
Qed.

Lemma elem_offdiag n y :
  is_state L n → rep L n = n → n ≠ y →
  elem L k J g n y =
    Rmulc (- J * g * sqrt (IZR (period L n)) / sqrt (IZR (period L y)))
          (S_sum L k n y).
Proof using HL.
  intros Hn Hr Hne. rewrite elem_split.
  rewrite (decide_False (P := rep L n = y)) by congruence.
  rewrite Cadd_0_r. unfold S_sum. rewrite Rmulc_Csum.
  apply sum_over_ext. intros i Hi%elem_of_seqZ.
  destruct (decide (rep L (FilpBit n i) = y)) as [E|E]; [|by rewrite Rmulc_0].
  assert (period L (FilpBit n i) = period L y) as ->.
  { rewrite <- E. symmetry. apply period_rep; [done|].
    apply FilpBit_state; (done || lia). }
  by rewrite contribution_ph.
Qed.

Lemma elem_hermitian n y :
  n ∈ sector_basis L k → y ∈ sector_basis L k →
  elem L k J g n y = Cconj (elem L k J g y n).
Proof using HL.
  intros [[Hrn Hkn] Hn]%sector_basis_elem [[Hry Hky] Hy]%sector_basis_elem.
  destruct (decide (n = y)) as [->|Hne].
  - rewrite elem_diag by done. unfold Cconj, RtoC. simpl. f_equal. lra.
  - rewrite !elem_offdiag by done.
    pose proof (T_S L k HL n y Hn Hy Hry Hky) as H1.
    pose proof (T_S L k HL y n Hy Hn Hrn Hkn) as H2.
    pose proof (T_conj L k HL n y Hn Hy) as H3.
    rewrite H1, H2 in H3. clear H1 H2.
    pose proof (sqrt_period_pos n Hn) as Hsn.
    pose proof (sqrt_period_pos y Hy) as Hsy.
    destruct (period_spec L HL n Hn) as (Hpn & _).
    destruct (period_spec L HL y Hy) as (Hpy & _).
    pose proof (period_divides L HL n Hn) as Hdn.
    pose proof (period_divides L HL y Hy) as Hdy.
    assert (IZR L = IZR (L / period L n) * IZR (period L n))%R as HLn.
    { rewrite <- mult_IZR. f_equal.
      pose proof (Z.div_mod L (period L n) ltac:(lia)). lia. }
    assert (IZR L = IZR (L / period L y) * IZR (period L y))%R as HLy.
    { rewrite <- mult_IZR. f_equal.
      pose proof (Z.div_mod L (period L y) ltac:(lia)). lia. }
    assert (0 < IZR L)%R as HLpos by (apply IZR_lt; lia).
    assert (IZR (period L n) = sqrt (IZR (period L n)) * sqrt (IZR (period L n)))%R
      as Hqn by (symmetry; apply sqrt_sqrt, IZR_le; lia).
    assert (IZR (period L y) = sqrt (IZR (period L y)) * sqrt (IZR (period L y)))%R
      as Hqy by (symmetry; apply sqrt_sqrt, IZR_le; lia).
    revert H3 HLn HLy Hqn Hqy Hsn Hsy.
    generalize (sqrt (IZR (period L n))) (sqrt (IZR (period L y))).
    generalize (IZR (period L n)) (IZR (period L y)).
    generalize (IZR (L / period L n)) (IZR (L / period L y)).
    generalize (S_sum L k n y) (S_sum L k y n) (IZR L) HLpos.
    clear. intros [a b] [a' b'] Lr HLpos qn qy Pn Py sn sy.
    unfold Rmulc, Cconj. simpl. intros [= Ha Hb] HLn HLy -> -> Hsn Hsy.
    assert (qn ≠ 0)%R as Hqn0 by (intros ->; lra).
    assert (qy ≠ 0)%R as Hqy0 by (intros ->; lra).
    assert (a' = sn * sn * a / (sy * sy))%R as ->.
    { apply (Rmult_eq_reg_l (qn * (sy * sy))).
      - transitivity (sy * sy * (qy * a))%R; [rewrite <- Ha; ring|].
        transitivity ((qy * (sy * sy)) * a)%R; [ring|].
        rewrite <- HLy, HLn. field. lra.
      - apply Rmult_integral_contrapositive. split; [done|].
        apply Rmult_integral_contrapositive. split; lra. }
    assert (b' = - (sn * sn * b / (sy * sy)))%R as ->.
    { apply (Rmult_eq_reg_l (qn * (sy * sy))).
      - transitivity (sy * sy * (- (qy * b)))%R; [rewrite <- Hb; ring|].
        transitivity (- ((qy * (sy * sy)) * b))%R; [ring|].
        rewrite <- HLy, HLn. field. lra.
      - apply Rmult_integral_contrapositive. split; [done|].
        apply Rmult_integral_contrapositive. split; lra. }
    f_equal; field; lra.
Qed.

End Elements.

(* ===================================================================== *)
(** * The statements of the specification *)
(* ===================================================================== *)




Lemma ReadBit_b2z n i : 0 ≤ i → ReadBit n i = Z.b2z (Z.testbit n i).
Proof.
  intros Hi. unfold ReadBit. apply Z.bits_inj'. intros j Hj.
  rewrite Z.shiftr_spec, Z.land_spec, Z.shiftl_1_l, Z.pow2_bits_eqb by lia.
  destruct (Z.eqb_spec i (j + i)) as [E|E].
  - assert (j = 0) as -> by lia. rewrite Z.add_0_l.
    by destruct (Z.testbit n i).
  - rewrite andb_false_r.
    destruct (Z.testbit n i); simpl; destruct j; (done || lia).
Qed.

Lemma diag_step_bond n L J acc i :
  1 ≤ L → 0 ≤ i →
  diag_step n J acc (i, (i + 1) mod L) = (acc + bond_energy n L J i)%R.
Proof.
  intros HL Hi. unfold diag_step, bond_energy. simpl.
  pose proof (Z.mod_pos_bound (i + 1) L ltac:(lia)).
  rewrite !ReadBit_b2z by lia.
  destruct (Z.testbit n i), (Z.testbit n ((i + 1) mod L)); simpl; lra.
Qed.

Lemma diag_of_diagSum n L J : diag_of n L J = diagSum n L J.
Proof.
  unfold diag_of, diagSum, ising_bonds, range0.
  destruct (Z.le_gt_cases L 0) as [HL|HL]; [by rewrite seqZ_nil|].
  assert (∀ l acc, Forall (λ i, 0 ≤ i) l →
            fold_left (diag_step n J) ((λ i, (i, (i + 1) mod L)) <$> l) acc
            = (acc + sum_over Rplus 0%R l (bond_energy n L J))%R) as Hfold.
  { induction l as [|i l IH]; intros acc Hl; simpl; [lra|].
    apply Forall_cons in Hl as [Hi Hl].
    rewrite IH, diag_step_bond by (done || lia). lra. }
  rewrite Hfold; [lra|]. apply Forall_seqZ. lia.
Qed.

Lemma total_dim_spec L :
  1 ≤ L →
  total_dim L =
    Ok (Zsum (seqZ 0 L) (λ k, Z.of_nat (length (sector_basis L k)))).
Proof.
  intros HL. unfold total_dim, range0.
  assert (∀ l acc,
    for_each (λ acc k, basisNk ← BuildBasisNk L k ;
                       mret (acc + Z.of_nat (length basisNk))) l acc
    = Ok (acc + Zsum l (λ k, Z.of_nat (length (sector_basis L k))))) as H.
  { induction l as [|k l IH]; intros acc; simpl.
    - f_equal. lia.
    - rewrite BuildBasisNk_spec by done. simpl. rewrite IH. f_equal. lia. }
  by rewrite H.
Qed.

Lemma BuildHNk_Lneg L k J g : L < 0 → BuildHNk L k J g = Raise TypeError.
Proof.
  intros HL. unfold BuildHNk, BuildBasisNk, BuildBasisN.
  destruct (Z.ltb_spec L 0); [done|lia].
Qed.

Lemma BuildHNk_L0 k J g : BuildHNk 0 k J g = Raise ValueError.
Proof. done. Qed.

Lemma Task_triplets_nonpositive L :
  L ≤ 0 → Task_triplets L = Ok ([], [], [], 0%nat).
Proof. intros HL. unfold Task_triplets, range0. by rewrite seqZ_nil. Qed.

(** The diagonal contribution of a basis state is among the
    contributions. *)
Lemma diag_contrib_elem L k J g n :
  1 ≤ L → n ∈ sector_basis L k →
  ∃ v, ((idx (sector_basis L k) n, idx (sector_basis L k) n), v)
         ∈ all_contribs L k J g (sector_basis L k).
Proof.
  intros HL Hn. pose proof Hn as [[Hr _] Hs]%sector_basis_elem.
  eexists. unfold all_contribs. apply list_elem_of_bind. exists n.
  split; [|done]. apply list_elem_of_omap.
  exists (n, diag_of n L J). split.
  - rewrite ActingH_eq. apply elem_of_app. right. by apply list_elem_of_singleton.
  - unfold contrib_of. simpl. rewrite Hr.
    by rewrite (proj2 (py_in_spec _ _) Hn).
Qed.

Lemma Rmulc_0_l z : Rmulc 0 z = C0.
Proof. unfold Rmulc, C0. f_equal; lra. Qed.

Lemma CountBit_RotLBit L n s :
  0 ≤ s ≤ L → is_state L n → CountBit (RotLBit n L s) = CountBit n.
Proof.
  intros Hs Hn. destruct (decide (L = 0)) as [->|HL0].
  - assert (s = 0) as -> by lia. by rewrite RotLBit_0.
  - rewrite !(CountBit_weight L) by (done || lia || by apply RotLBit_state).
    rewrite RotLBit_rotZ by (done || lia). apply weight_rotZ; [lia|done].
Qed.

(** C1: for [L >= 1] and [k] in [[0, L)] (and all real [J], [g], in
    exact arithmetic) [BuildHNk] returns, and the matrix of its triplets
    is Hermitian: the entry at row [b], column [a] is the complex
    conjugate of the entry at row [a], column [b]. *)
Theorem BuildHNk_hermitian (L k : Z) (J g : R) :
  1 ≤ L → 0 ≤ k < L →
  ∃ cols rows vals dim basis,
    BuildHNk L k J g = Ok (cols, rows, vals, dim, basis) ∧
    ∀ a b : nat,
      matrix_entry cols rows vals b a = Cconj (matrix_entry cols rows vals a b).
Proof.
  intros HL _. destruct (BuildHNk_acc L k J g HL) as (st & Hst & Hinv).
  do 5 eexists. split; [exact Hst|]. intros a b.
  rewrite !(matrix_entry_inv _ _ _ _ Hinv).
  destruct (sector_basis L k !! a) as [y|] eqn:Ha;
    [destruct (sector_basis L k !! b) as [n|] eqn:Hb|].
  - rewrite (key_sum_elem L k J g a b n y Hb Ha).
    rewrite (key_sum_elem L k J g b a y n Ha Hb).
    apply elem_hermitian; [done|by eapply list_elem_of_lookup_2..].
  - apply lookup_ge_None in Hb.
    rewrite !key_sum_out_of_range by auto. by rewrite Cconj_0.
  - apply lookup_ge_None in Ha.
    rewrite !key_sum_out_of_range by auto. by rewrite Cconj_0.
Qed.

Lemma BuildHNk_hermitian_witness :
  (1 ≤ 4 ∧ 0 ≤ 1 < 4) ∧
  ∃ cols rows vals dim basis,
    BuildHNk 4 1 1 1 = Ok (cols, rows, vals, dim, basis) ∧
    ∀ a b : nat,
      matrix_entry cols rows vals b a = Cconj (matrix_entry cols rows vals a b).
Proof. split; [lia|]. apply (BuildHNk_hermitian 4 1 1 1); lia. Defined.

(** C2: for [L >= 1] the lengths of [BuildBasisNk(L, k)] for
    [k = 0 .. L-1] sum to [2^L]. *)
Theorem sector_dimensions_sum (L : Z) : 1 ≤ L → total_dim L = Ok (2 ^ L).
Proof.
  intros HL. rewrite total_dim_spec by done. f_equal.
  by apply sector_dims_sum.
Qed.

Lemma sector_dimensions_sum_witness : 1 ≤ 4 ∧ total_dim 4 = Ok (2 ^ 4).
Proof. split; [lia|]. apply (sector_dimensions_sum 4). lia. Defined.



(** C4: for [L >= 1] and an [L]-bit state [n], rotation by [L] gives
    [n] back, so the search [Tlist[1:].index(n)] succeeds; the value
    [R] it yields is the period of [n] and divides [L]. *)
Theorem period_defined_divides (L n : Z) :
  1 ≤ L → is_state L n →
  RotLBit n L L = n ∧
  ∃ r, period_of n (Tlist_of n L) = Ok r ∧ is_period L n r ∧ (r | L).
Proof.
  intros HL Hn. split; [apply RotLBit_L; lia|].
  destruct (period_of_Ok L HL n Hn) as (r & Hr & Hp).
  exists r. split; [done|]. split; [done|].
  pose proof (period_divides L HL n Hn) as Hd.
  unfold period in Hd. rewrite Hr in Hd.
  apply Z.mod_divide; [lia|done].
Qed.

Lemma period_defined_divides_witness :
  (1 ≤ 4 ∧ is_state 4 5) ∧
  RotLBit 5 4 4 = 5 ∧
  ∃ r, period_of 5 (Tlist_of 5 4) = Ok r ∧ is_period 4 5 r ∧ (r | 4).
Proof.
  assert (is_state 4 5) as Hn by (unfold is_state; simpl; lia).
  split; [split; [lia|exact Hn]|].
  apply (period_defined_divides 4 5); [lia|exact Hn].
Defined.

(** C5: for [L >= 1], [ActingH(n, L, J, g)] is the list of the [L]
    pairs [(FilpBit(n, i), -J*g)], [i = 0 .. L-1], followed by the pair
    [(n, diagSum)], where [diagSum] adds [-J] for each bond
    [(i, (i+1) mod L)] with equal bits and [+J] for each with different
    bits: [L + 1] pairs. *)
Theorem ActingH_pairs (n L : Z) (J g : R) :
  1 ≤ L → is_state L n →
  ActingH n L J g =
    ((λ i, (FilpBit n i, (- J * g)%R)) <$> range0 L) ++ [(n, diagSum n L J)] ∧
  Z.of_nat (length (ActingH n L J g)) = L + 1.
Proof.
  intros HL _. rewrite ActingH_eq, diag_of_diagSum. split; [done|].
  rewrite length_app, length_fmap, length_seqZ. simpl. lia.
Qed.

Lemma ActingH_pairs_witness :
  (1 ≤ 4 ∧ is_state 4 5) ∧
  ActingH 5 4 1 1 =
    ((λ i, (FilpBit 5 i, (- 1 * 1)%R)) <$> range0 4) ++ [(5, diagSum 5 4 1)] ∧
  Z.of_nat (length (ActingH 5 4 1 1)) = 4 + 1.
Proof.
  assert (is_state 4 5) as Hn by (unfold is_state; simpl; lia).
  split; [split; [lia|exact Hn]|].
  apply (ActingH_pairs 5 4 1 1); [lia|exact Hn].
Defined.

(** C6: for an [L]-bit state [n] and [0 <= s <= L], [RotLBit(n, L, s)]
    is [(PickBit(n, 0, L-s) << s) + (n >> (L-s))], which moves bit [j]
    of [n] to position [(j + s) mod L], and [RotRBit] undoes it:
    [RotRBit(RotLBit(n, L, s), L, s) = n]. *)
Theorem RotRBit_RotLBit (n L s : Z) :
  is_state L n → 0 ≤ s ≤ L →
  RotLBit n L s = Z.shiftl (PickBit n 0 (L - s)) s + Z.shiftr n (L - s) ∧
  (∀ j, 0 ≤ j < L →
        Z.testbit (RotLBit n L s) j = Z.testbit n ((j - s) mod L)) ∧
  RotRBit (RotLBit n L s) L s = n.
Proof.
  intros Hn Hs. split; [done|]. split; [|by apply RotR_RotL].
  intros j Hj. by apply RotLBit_testbit.
Qed.

Lemma RotRBit_RotLBit_witness :
  (is_state 4 6 ∧ 0 ≤ 3 ≤ 4) ∧
  RotLBit 6 4 3 = Z.shiftl (PickBit 6 0 (4 - 3)) 3 + Z.shiftr 6 (4 - 3) ∧
  (∀ j, 0 ≤ j < 4 →
        Z.testbit (RotLBit 6 4 3) j = Z.testbit 6 ((j - 3) mod 4)) ∧
  RotRBit (RotLBit 6 4 3) 4 3 = 6.
Proof.
  assert (is_state 4 6) as Hn by (unfold is_state; simpl; lia).
  split; [split; [exact Hn|lia]|].
  apply (RotRBit_RotLBit 6 4 3); [exact Hn|lia].
Defined.

(** C7, as the code has it: nothing validates the configuration.  For
    [L < 0] [BuildHNk] fails with the [TypeError] of
    [range(0, 2 ** L)] and for [L = 0] with the [ValueError] of
    [Tlist[1:].index(n)], both raised inside [BuildBasisNk]; the sector
    loop of [Task] runs no iteration for [L <= 0]; and for [L >= 1]
    [BuildHNk] returns normally for all real [J] and [g], negative ones
    included, with the sector basis enumerated. *)
Theorem BuildHNk_failure_modes (L k : Z) (J g : R) :
  (L < 0 → BuildHNk L k J g = Raise TypeError) ∧
  (L = 0 → BuildHNk L k J g = Raise ValueError) ∧
  (L ≤ 0 → Task_triplets L = Ok ([], [], [], 0%nat)) ∧
  (1 ≤ L →
   ∃ cols rows vals basis,
     BuildBasisNk L k = Ok basis ∧
     BuildHNk L k J g = Ok (cols, rows, vals, length basis, basis)).
Proof.
  split; [apply BuildHNk_Lneg|].
  split; [intros ->; apply BuildHNk_L0|].
  split; [apply Task_triplets_nonpositive|].
  intros HL. destruct (BuildHNk_acc L k J g HL) as (st & Hst & _).
  do 4 eexists. split; [by apply BuildBasisNk_spec|exact Hst].
Qed.

Lemma BuildHNk_failure_modes_witness :
  BuildHNk (-1) 0 (-1) 1 = Raise TypeError ∧
  BuildHNk 0 0 (-1) 1 = Raise ValueError ∧
  Task_triplets 0 = Ok ([], [], [], 0%nat) ∧
  ∃ cols rows vals basis,
    BuildBasisNk 2 0 = Ok basis ∧
    BuildHNk 2 0 (-1) 1 = Ok (cols, rows, vals, length basis, basis).
Proof.
  split; [apply (BuildHNk_failure_modes (-1) 0 (-1) 1); lia|].
  split; [apply (BuildHNk_failure_modes 0 0 (-1) 1); lia|].
  split; [apply (BuildHNk_failure_modes 0 0 (-1) 1); lia|].
  apply (BuildHNk_failure_modes 2 0 (-1) 1); lia.
Defined.

(** C7 as stated fails: with [J = -1 < 0] (and [L = 2], [k = 0],
    [g = 1]) [BuildHNk] raises nothing and returns the three-state
    sector basis. *)
Lemma negative_coupling_accepted :
  (-1 < 0)%R ∧
  ∃ cols rows vals,
    BuildHNk 2 0 (-1) 1 = Ok (cols, rows, vals, 3%nat, [0; 1; 3]).
Proof.
  split; [lra|].
  destruct (BuildHNk_acc 2 0 (-1) 1 ltac:(lia)) as (st & Hst & _).
  do 3 eexists. rewrite Hst. f_equal.
Qed.








(** The plain quotient [(3 * sqrt 3) / sqrt 3] rounds to the same
    number, so the result does not depend on how the division by the
    real number [np.sqrt(Rm)] is carried out. *)
Lemma sqrt_quotient_rounded :
  (3 * PrimFloat.sqrt 3 / PrimFloat.sqrt 3)%float
  = 0x1.8000000000001p+1%float.
Proof. reflexivity. Qed.







(** C10: for an [L]-bit state [n] and [0 <= s <= L], [RotLBit(n, L, s)]
    is an [L]-bit state with the same [CountBit]; hence the minimum of
    the rotation list, the representative, has the [CountBit] of [n]. *)
Theorem RotLBit_closed_CountBit (L n s : Z) :
  is_state L n → 0 ≤ s ≤ L →
  is_state L (RotLBit n L s) ∧
  CountBit (RotLBit n L s) = CountBit n ∧
  ∀ m, py_min (Tlist_of n L) = Ok m → is_state L m ∧ CountBit m = CountBit n.
Proof.
  intros Hn Hs. split; [by apply RotLBit_state|].
  split; [by apply CountBit_RotLBit|].
  intros m [(t & Ht & ->)%Tlist_elem _]%py_min_Ok.
  split; [by apply RotLBit_state|by apply CountBit_RotLBit].
Qed.

Lemma RotLBit_closed_CountBit_witness :
  (is_state 4 6 ∧ 0 ≤ 3 ≤ 4) ∧
  is_state 4 (RotLBit 6 4 3) ∧
  CountBit (RotLBit 6 4 3) = CountBit 6 ∧
  ∀ m, py_min (Tlist_of 6 4) = Ok m → is_state 4 m ∧ CountBit m = CountBit 6.
Proof.
  assert (is_state 4 6) as Hn by (unfold is_state; simpl; lia).
  split; [split; [exact Hn|lia]|].
  apply (RotLBit_closed_CountBit 4 6 3); [exact Hn|lia].
Defined.

(* ===================================================================== *)
(** * Further properties of the bit utilities *)
(* ===================================================================== *)

Lemma ReadBit_FilpBit_gen n i j :
  0 ≤ i → 0 ≤ j →
  ReadBit (FilpBit n i) j = if i =? j then 1 - ReadBit n j else ReadBit n j.
Proof.
  intros Hi Hj. rewrite !ReadBit_b2z, FilpBit_testbit by lia.
  destruct (Z.eqb_spec i j); destruct (Z.testbit n j); done.
Qed.

(** X1: for a site [0 <= i < L], [FilpBit] maps [L]-bit states to
    [L]-bit states, toggles bit [i] and no other bit, and is its own
    inverse. *)
Theorem FilpBit_toggles (L n i : Z) :
  is_state L n → 0 ≤ i < L →
  is_state L (FilpBit n i) ∧
  (∀ j, 0 ≤ j →
        Z.testbit (FilpBit n i) j = xorb (Z.testbit n j) (i =? j)) ∧
  FilpBit n i ≠ n ∧
  FilpBit (FilpBit n i) i = n.
Proof.
  intros Hn Hi. split; [by apply FilpBit_state|].
  split; [intros j _; apply FilpBit_testbit; lia|].
  split; [|apply FilpBit_involutive].
  intros E. assert (Z.testbit (FilpBit n i) i = Z.testbit n i) as Hb
    by by rewrite E.
  rewrite FilpBit_testbit, Z.eqb_refl in Hb by lia.
  by destruct (Z.testbit n i).
Qed.

Lemma FilpBit_toggles_witness :
  (is_state 4 5 ∧ 0 ≤ 1 < 4) ∧
  is_state 4 (FilpBit 5 1) ∧
  (∀ j, 0 ≤ j →
        Z.testbit (FilpBit 5 1) j = xorb (Z.testbit 5 j) (1 =? j)) ∧
  FilpBit 5 1 ≠ 5 ∧
  FilpBit (FilpBit 5 1) 1 = 5.
Proof.
  assert (is_state 4 5) as Hn by (unfold is_state; simpl; lia).
  split; [split; [exact Hn|lia]|].
  apply (FilpBit_toggles 4 5 1); [exact Hn|lia].
Defined.

(** X2: for [i, j >= 0], [ReadBit(n, i)] is [0] or [1], namely bit [i]
    of [n]; reading after [FilpBit(n, i)] gives the complement at site
    [i] and the old value at every other site. *)
Theorem ReadBit_after_FilpBit (n i j : Z) :
  0 ≤ i → 0 ≤ j →
  ReadBit n i = Z.b2z (Z.testbit n i) ∧
  (ReadBit n i = 0 ∨ ReadBit n i = 1) ∧
  ReadBit (FilpBit n i) i = 1 - ReadBit n i ∧
  (i ≠ j → ReadBit (FilpBit n i) j = ReadBit n j).
Proof.
  intros Hi Hj. split; [by apply ReadBit_b2z|]. split; [|split].
  - rewrite ReadBit_b2z by done. destruct (Z.testbit n i); auto.
  - rewrite ReadBit_FilpBit_gen, Z.eqb_refl by done. done.
  - intros Hne. rewrite ReadBit_FilpBit_gen by done.
    destruct (Z.eqb_spec i j); done.
Qed.

Lemma ReadBit_after_FilpBit_witness :
  (0 ≤ 1 ∧ 0 ≤ 2) ∧
  ReadBit 5 1 = Z.b2z (Z.testbit 5 1) ∧
  (ReadBit 5 1 = 0 ∨ ReadBit 5 1 = 1) ∧
  ReadBit (FilpBit 5 1) 1 = 1 - ReadBit 5 1 ∧
  (1 ≠ 2 → ReadBit (FilpBit 5 1) 2 = ReadBit 5 2).
Proof. split; [lia|]. apply (ReadBit_after_FilpBit 5 1 2); lia. Defined.

(** X3: for a start [k >= 0] and a width [w >= 0], [PickBit(i, k, w)]
    is the field [(i div 2^k) mod 2^w], a number below [2^w]; a field of
    width one is [ReadBit]. *)
Theorem PickBit_field (i k w : Z) :
  0 ≤ k → 0 ≤ w →
  PickBit i k w = (i / 2 ^ k) mod 2 ^ w ∧
  0 ≤ PickBit i k w < 2 ^ w ∧
  PickBit i k 1 = ReadBit i k.
Proof.
  intros Hk Hw.
  assert (∀ w', 0 ≤ w' → PickBit i k w' = (i / 2 ^ k) mod 2 ^ w') as Hpick.
  { intros w' Hw'. unfold PickBit.
    replace (2 ^ w' - 1) with (Z.ones w') by (rewrite Z.ones_equiv; lia).
    rewrite Z.shiftr_land, Z.shiftr_shiftl_l, Z.sub_diag, Z.shiftl_0_r by done.
    rewrite Z.land_ones, Z.shiftr_div_pow2 by done. done. }
  split; [by apply Hpick|]. split.
  - rewrite Hpick by done. apply Z.mod_pos_bound, Z.pow_pos_nonneg; lia.
  - rewrite Hpick, ReadBit_b2z, Z.testbit_spec' by lia. done.
Qed.

Lemma PickBit_field_witness :
  (0 ≤ 1 ∧ 0 ≤ 2) ∧
  PickBit 13 1 2 = (13 / 2 ^ 1) mod 2 ^ 2 ∧
  0 ≤ PickBit 13 1 2 < 2 ^ 2 ∧
  PickBit 13 1 1 = ReadBit 13 1.
Proof. split; [lia|]. apply (PickBit_field 13 1 2); lia. Defined.

Lemma RotRBit_as_RotLBit L n s :
  0 ≤ s ≤ L → RotRBit n L s = RotLBit n L (L - s).
Proof.
  intros Hs. rewrite RotRBit_arith, RotLBit_arith by lia.
  by replace (L - (L - s)) with s by lia.
Qed.

(** X4: for an [L]-bit state [n] and [0 <= s <= L], [RotRBit(n, L, s)]
    is an [L]-bit state, it is the left rotation by [L - s], and
    [RotLBit] undoes it. *)
Theorem RotLBit_RotRBit (n L s : Z) :
  is_state L n → 0 ≤ s ≤ L →
  is_state L (RotRBit n L s) ∧
  RotRBit n L s = RotLBit n L (L - s) ∧
  RotLBit (RotRBit n L s) L s = n.
Proof.
  intros Hn Hs. rewrite RotRBit_as_RotLBit by done.
  split; [apply RotLBit_state; (done || lia)|]. split; [done|].
  rewrite <- (RotR_RotL L n (L - s)) at 2 by (done || lia).
  rewrite RotRBit_as_RotLBit by lia. by replace (L - (L - s)) with s by lia.
Qed.

Lemma RotLBit_RotRBit_witness :
  (is_state 4 6 ∧ 0 ≤ 3 ≤ 4) ∧
  is_state 4 (RotRBit 6 4 3) ∧
  RotRBit 6 4 3 = RotLBit 6 4 (4 - 3) ∧
  RotLBit (RotRBit 6 4 3) 4 3 = 6.
Proof.
  assert (is_state 4 6) as Hn by (unfold is_state; simpl; lia).
  split; [split; [exact Hn|lia]|].
  apply (RotLBit_RotRBit 6 4 3); [exact Hn|lia].
Defined.

(** X5: on [L]-bit states rotations compose by adding the shifts modulo
    [L], and they commute. *)
Theorem RotLBit_compose (n L a b : Z) :
  is_state L n → 0 ≤ a ≤ L → 0 ≤ b ≤ L → 1 ≤ L →
  RotLBit (RotLBit n L a) L b = RotLBit n L ((a + b) mod L) ∧
  RotLBit (RotLBit n L a) L b = RotLBit (RotLBit n L b) L a.
Proof.
  intros Hn Ha Hb HL.
  assert (∀ x y, 0 ≤ x ≤ L → 0 ≤ y ≤ L →
            RotLBit (RotLBit n L x) L y = rotZ L n (x + y)) as Hc.
  { intros x y Hx Hy.
    rewrite (RotLBit_rotZ L HL n x), (RotLBit_rotZ L HL _ y)
      by (done || by apply rotZ_state).
    by apply rotZ_add. }
  split.
  - rewrite Hc by done. symmetry.
    pose proof (Z.mod_pos_bound (a + b) L ltac:(lia)).
    rewrite RotLBit_rotZ by (done || lia). by apply rotZ_mod.
  - rewrite !Hc by done. f_equal. lia.
Qed.

Lemma RotLBit_compose_witness :
  (is_state 4 6 ∧ 0 ≤ 3 ≤ 4 ∧ 0 ≤ 2 ≤ 4 ∧ 1 ≤ 4) ∧
  RotLBit (RotLBit 6 4 3) 4 2 = RotLBit 6 4 ((3 + 2) mod 4) ∧
  RotLBit (RotLBit 6 4 3) 4 2 = RotLBit (RotLBit 6 4 2) 4 3.
Proof.
  assert (is_state 4 6) as Hn by (unfold is_state; simpl; lia).
  split; [split; [exact Hn|lia]|].
  apply (RotLBit_compose 6 4 3 2); [exact Hn|lia..].
Defined.

(** X6: translating a state with a flipped spin is flipping the
    translated spin of the translated state: for [0 <= i < L] and
    [0 <= s <= L], [RotLBit(FilpBit(n, i), L, s)] is
    [FilpBit(RotLBit(n, L, s), (i + s) mod L)]. *)
Theorem RotLBit_FilpBit (n L i s : Z) :
  is_state L n → 0 ≤ i < L → 0 ≤ s ≤ L →
  RotLBit (FilpBit n i) L s = FilpBit (RotLBit n L s) ((i + s) mod L).
Proof.
  intros Hn Hi Hs. assert (1 ≤ L) as HL by lia.
  rewrite !(RotLBit_rotZ L HL) by (done || by apply FilpBit_state).
  by apply rotZ_FilpBit.
Qed.

Lemma RotLBit_FilpBit_witness :
  (is_state 4 6 ∧ 0 ≤ 1 < 4 ∧ 0 ≤ 3 ≤ 4) ∧
  RotLBit (FilpBit 6 1) 4 3 = FilpBit (RotLBit 6 4 3) ((1 + 3) mod 4).
Proof.
  assert (is_state 4 6) as Hn by (unfold is_state; simpl; lia).
  split; [split; [exact Hn|lia]|].
  apply (RotLBit_FilpBit 6 4 1 3); [exact Hn|lia..].
Defined.

Lemma Zsum_bits {I} (l : list I) (f : I → Z) :
  (∀ x, x ∈ l → f x = 0 ∨ f x = 1) →
  0 ≤ Zsum l f ≤ Z.of_nat (length l) ∧
  (Zsum l f = 0 → ∀ x, x ∈ l → f x = 0) ∧
  (Zsum l f = Z.of_nat (length l) → ∀ x, x ∈ l → f x = 1).
Proof.
  induction l as [|y l IH]; intros Hf.
  - simpl. split; [lia|]. split; intros _ x Hx; by apply elem_of_nil in Hx.
  - destruct IH as (Hb & H0 & H1); [intros x Hx; apply Hf; by right|].
    rewrite sum_over_cons. simpl length.
    pose proof (Hf y ltac:(by left)) as Hy.
    split; [lia|]. split.
    + intros E x [->|Hx]%elem_of_cons; [lia|]. apply H0; [lia|done].
    + intros E x [->|Hx]%elem_of_cons; [lia|]. apply H1; [lia|done].
Qed.

Lemma weight_bits L n :
  ∀ j, j ∈ seqZ 0 L →
       Z.b2z (Z.testbit n j) = 0 ∨ Z.b2z (Z.testbit n j) = 1.
Proof. intros j _. destruct (Z.testbit n j); auto. Qed.

Lemma ones_state L : 0 ≤ L → is_state L (2 ^ L - 1).
Proof.
  intros HL. assert (0 < 2 ^ L) by (apply Z.pow_pos_nonneg; lia).
  unfold is_state. lia.
Qed.

Lemma ones_testbit L j : 0 ≤ j < L → Z.testbit (2 ^ L - 1) j = true.
Proof.
  intros Hj. replace (2 ^ L - 1) with (Z.ones L)
    by (rewrite Z.ones_equiv; lia).
  by apply Z.ones_spec_low.
Qed.

(** X7: flipping a spin of an [L]-bit state changes [CountBit] by one:
    up when the bit read was [0], down when it was [1]. *)
Theorem CountBit_FilpBit (L n i : Z) :
  is_state L n → 0 ≤ i < L →
  CountBit (FilpBit n i) = CountBit n + 1 - 2 * ReadBit n i.
Proof.
  intros Hn Hi.
  rewrite !(CountBit_weight L) by (lia || done || by apply FilpBit_state).
  rewrite weight_FilpBit, ReadBit_b2z by lia. lia.
Qed.

Lemma CountBit_FilpBit_witness :
  (is_state 4 5 ∧ 0 ≤ 1 < 4) ∧
  CountBit (FilpBit 5 1) = CountBit 5 + 1 - 2 * ReadBit 5 1.
Proof.
  assert (is_state 4 5) as Hn by (unfold is_state; simpl; lia).
  split; [split; [exact Hn|lia]|].
  apply (CountBit_FilpBit 4 5 1); [exact Hn|lia].
Defined.

(** X8: on an [L]-bit state [CountBit] lies between [0] and [L], it is
    [0] only for the all-zero state and [L] only for the all-one state
    [2^L - 1]; on a negative number it counts the bits of the absolute
    value. *)
Theorem CountBit_bounds (L n : Z) :
  0 ≤ L → is_state L n →
  0 ≤ CountBit n ≤ L ∧
  (CountBit n = 0 ↔ n = 0) ∧
  (CountBit n = L ↔ n = 2 ^ L - 1) ∧
  CountBit (- n) = CountBit n.
Proof.
  intros HL Hn.
  assert (CountBit (- n) = CountBit n) as Hneg by by destruct n.
  destruct (Zsum_bits (seqZ 0 L) (λ j, Z.b2z (Z.testbit n j))
              (weight_bits L n)) as (Hb & H0 & H1).
  rewrite length_seqZ, Z2Nat.id in Hb, H1 by done.
  rewrite !(CountBit_weight L n HL Hn). fold (weight L n) in Hb, H0, H1.
  split; [done|]. split; [|split].
  - split.
    + intros E. apply (state_ext L); [done..|by split; [|apply Z.pow_pos_nonneg]|].
      intros j Hj. rewrite Z.bits_0.
      specialize (H0 E j ltac:(apply elem_of_seqZ; lia)).
      by destruct (Z.testbit n j).
    + intros ->. rewrite <- (CountBit_weight L 0 HL Hn). done.
  - split.
    + intros E. apply (state_ext L); [done..|by apply ones_state|].
      intros j Hj. rewrite ones_testbit by done.
      specialize (H1 E j ltac:(apply elem_of_seqZ; lia)).
      by destruct (Z.testbit n j).
    + intros ->. unfold weight.
      erewrite sum_over_ext.
      * rewrite <- length_Zsum, length_seqZ. lia.
      * intros j Hj%elem_of_seqZ. simpl. by rewrite ones_testbit by lia.
  - by rewrite Hneg, (CountBit_weight L n HL Hn).
Qed.

Lemma CountBit_bounds_witness :
  (0 ≤ 4 ∧ is_state 4 5) ∧
  0 ≤ CountBit 5 ≤ 4 ∧
  (CountBit 5 = 0 ↔ 5 = 0) ∧
  (CountBit 5 = 4 ↔ 5 = 2 ^ 4 - 1) ∧
  CountBit (- 5) = CountBit 5.
Proof.
  assert (is_state 4 5) as Hn by (unfold is_state; simpl; lia).
  split; [split; [lia|exact Hn]|].
  apply (CountBit_bounds 4 5); [lia|exact Hn].
Defined.

(* ===================================================================== *)
(** * Further properties of the orbits and of the sector bases *)
(* ===================================================================== *)

Lemma py_min_rep L n : 1 ≤ L → py_min (Tlist_of n L) = Ok (rep L n).
Proof.
  intros HL. destruct (rep_Ok L HL n) as [m Hm]. unfold rep. by rewrite Hm.
Qed.

Lemma period_of_period L n :
  1 ≤ L → is_state L n → period_of n (Tlist_of n L) = Ok (period L n).
Proof.
  intros HL Hn. destruct (period_of_Ok L HL n Hn) as (r & Hr & _).
  unfold period. by rewrite Hr.
Qed.

(** X9: the representative [min(Tlist)] and the period
    [Tlist[1:].index(n) + 1] are the same for every rotation of an
    [L]-bit state. *)
Theorem orbit_invariants (L n s : Z) :
  1 ≤ L → is_state L n → 0 ≤ s ≤ L →
  py_min (Tlist_of (RotLBit n L s) L) = py_min (Tlist_of n L) ∧
  period_of (RotLBit n L s) (Tlist_of (RotLBit n L s) L) =
    period_of n (Tlist_of n L).
Proof.
  intros HL Hn Hs. rewrite (RotLBit_rotZ L HL n s Hn Hs).
  rewrite !py_min_rep, !period_of_period by (done || by apply rotZ_state).
  by rewrite rep_rotZ, period_rotZ.
Qed.

Lemma orbit_invariants_witness :
  (1 ≤ 4 ∧ is_state 4 6 ∧ 0 ≤ 3 ≤ 4) ∧
  py_min (Tlist_of (RotLBit 6 4 3) 4) = py_min (Tlist_of 6 4) ∧
  period_of (RotLBit 6 4 3) (Tlist_of (RotLBit 6 4 3) 4) =
    period_of 6 (Tlist_of 6 4).
Proof.
  assert (is_state 4 6) as Hn by (unfold is_state; simpl; lia).
  split; [split; [lia|split; [exact Hn|lia]]|].
  apply (orbit_invariants 4 6 3); [lia|exact Hn|lia].
Defined.

(** X10: for an [L]-bit state [m], the three searches of [BuildHNk]
    succeed; the representative [m_rs] is an [L]-bit state not above
    [m], it is its own representative and has the period of [m]; and
    the distance [d = Tlist.index(m_rs)] is below the period and
    rotates [m] onto [m_rs]. *)
Theorem rotation_distance (L m : Z) :
  1 ≤ L → is_state L m →
  ∃ m_rs Rm d,
    py_min (Tlist_of m L) = Ok m_rs ∧
    period_of m (Tlist_of m L) = Ok Rm ∧
    py_index m_rs (Tlist_of m L) = Ok d ∧
    Z.of_nat d < Rm ∧
    RotLBit m L (Z.of_nat d) = m_rs ∧
    is_state L m_rs ∧ m_rs ≤ m ∧
    py_min (Tlist_of m_rs L) = Ok m_rs ∧
    period_of m_rs (Tlist_of m_rs L) = Ok Rm.
Proof.
  intros HL Hm. exists (rep L m), (period L m), (dist L m).
  destruct (dist_Ok L HL m Hm) as (Hd & Hrot & Hlt).
  destruct (period_spec L HL m Hm) as (Hp & _).
  pose proof (rep_state L HL m Hm) as Hrs.
  split; [by apply py_min_rep|]. split; [by apply period_of_period|].
  split; [done|]. split; [lia|].
  split; [rewrite RotLBit_rotZ by (done || lia); done|].
  split; [done|]. split; [by apply rep_le|].
  split; [by rewrite py_min_rep, rep_idem|].
  by rewrite period_of_period, period_rep.
Qed.

Lemma rotation_distance_witness :
  (1 ≤ 4 ∧ is_state 4 6) ∧
  ∃ m_rs Rm d,
    py_min (Tlist_of 6 4) = Ok m_rs ∧
    period_of 6 (Tlist_of 6 4) = Ok Rm ∧
    py_index m_rs (Tlist_of 6 4) = Ok d ∧
    Z.of_nat d < Rm ∧
    RotLBit 6 4 (Z.of_nat d) = m_rs ∧
    is_state 4 m_rs ∧ m_rs ≤ 6 ∧
    py_min (Tlist_of m_rs 4) = Ok m_rs ∧
    period_of m_rs (Tlist_of m_rs 4) = Ok Rm.
Proof.
  assert (is_state 4 6) as Hn by (unfold is_state; simpl; lia).
  split; [split; [lia|exact Hn]|].
  apply (rotation_distance 4 6); [lia|exact Hn].
Defined.

(** X11: the number of [L]-bit states whose representative is a given
    representative [m] is the period of [m]. *)
Theorem orbit_size (L m : Z) :
  1 ≤ L → is_state L m → py_min (Tlist_of m L) = Ok m →
  ∃ r, period_of m (Tlist_of m L) = Ok r ∧
       Z.of_nat (length (filter (λ n, py_min (Tlist_of n L) = Ok m)
                                (range0 (2 ^ L)))) = r.
Proof.
  intros HL Hm Hmin. exists (period L m).
  split; [by apply period_of_period|].
  assert (rep L m = m) as Hr by (unfold rep; by rewrite Hmin).
  destruct (period_spec L HL m Hm) as (Hp & _).
  transitivity (Z.of_nat (length (orbit_list L m)));
    [|unfold orbit_list; rewrite length_fmap, length_seqZ; lia].
  f_equal. apply Permutation_length, NoDup_Permutation.
  - apply NoDup_filter, NoDup_seqZ.
  - by apply orbit_list_NoDup.
  - intros n. rewrite list_elem_of_filter, orbit_list_elem by done.
    unfold range0. rewrite elem_of_seqZ, py_min_rep by done. split.
    + intros [[= E] Hn]. assert (is_state L n) as Hs by (unfold is_state; lia).
      destruct (rep_spec L HL n Hs) as [(t & _ & Ht) _].
      exists (- t). symmetry. apply rotZ_inv; [done..|]. by rewrite <- Ht.
    + intros [t ->]. split; [by rewrite rep_rotZ, Hr|].
      pose proof (rotZ_state L HL m t Hm) as [? ?]. lia.
Qed.

Lemma orbit_size_witness :
  (1 ≤ 4 ∧ is_state 4 5 ∧ py_min (Tlist_of 5 4) = Ok 5) ∧
  ∃ r, period_of 5 (Tlist_of 5 4) = Ok r ∧
       Z.of_nat (length (filter (λ n, py_min (Tlist_of n 4) = Ok 5)
                                (range0 (2 ^ 4)))) = r.
Proof.
  assert (is_state 4 5) as Hn by (unfold is_state; simpl; lia).
  split; [split; [lia|split; [exact Hn|reflexivity]]|].
  apply (orbit_size 4 5); [lia|exact Hn|reflexivity].
Defined.

Lemma in_sector_mod L k k' n :
  1 ≤ L → (k - k') mod L = 0 → in_sector L k n ↔ in_sector L k' n.
Proof.
  intros HL [q Hq]%Z.mod_divide; [|lia]. unfold in_sector.
  assert ((k * period L n) mod L = (k' * period L n) mod L) as ->; [|done].
  replace (k * period L n)
    with (k' * period L n + (q * period L n) * L) by nia.
  apply Z.mod_add. lia.
Qed.

Lemma in_sector_opp L k n : 1 ≤ L → in_sector L (- k) n ↔ in_sector L k n.
Proof.
  intros HL. unfold in_sector.
  replace (- k * period L n) with (- (k * period L n)) by lia.
  split; intros [Hr Hk]; (split; [done|]).
  - apply Z.mod_opp_l_z in Hk; [|lia]. by rewrite Z.opp_involutive in Hk.
  - apply Z.mod_opp_l_z; [lia|done].
Qed.

(** X12: for [L >= 1] the basis of a sector depends on the momentum
    modulo [L] only, and the sectors [k], [-k] and [L - k] have the same
    basis. *)
Theorem BuildBasisNk_momentum (L k : Z) :
  1 ≤ L →
  BuildBasisNk L (k mod L) = BuildBasisNk L k ∧
  BuildBasisNk L (- k) = BuildBasisNk L k ∧
  BuildBasisNk L (L - k) = BuildBasisNk L k.
Proof.
  intros HL. rewrite !BuildBasisNk_spec by done. unfold sector_basis.
  split; [|split]; f_equal; apply list_filter_iff; intros n.
  - apply in_sector_mod; [done|].
    rewrite Zminus_mod_idemp_l, Z.sub_diag. apply Z.mod_0_l. lia.
  - by apply in_sector_opp.
  - rewrite <- (in_sector_opp L k n HL). apply in_sector_mod; [done|].
    replace (L - k - - k) with L by lia. apply Z.mod_same. lia.
Qed.

Lemma BuildBasisNk_momentum_witness :
  1 ≤ 4 ∧
  BuildBasisNk 4 (7 mod 4) = BuildBasisNk 4 7 ∧
  BuildBasisNk 4 (- 7) = BuildBasisNk 4 7 ∧
  BuildBasisNk 4 (4 - 7) = BuildBasisNk 4 7.
Proof. split; [lia|]. apply (BuildBasisNk_momentum 4 7). lia. Defined.

Lemma filter_sublist_impl {A} (P Q : A → Prop)
    `{∀ x, Decision (P x)} `{∀ x, Decision (Q x)} (l : list A) :
  (∀ x, P x → Q x) → filter P l `sublist_of` filter Q l.
Proof.
  intros HPQ. induction l as [|x l IH]; [done|].
  rewrite !filter_cons. destruct (decide (P x)) as [HP|HP].
  - rewrite decide_True by auto. by apply sublist_skip.
  - destruct (decide (Q x)); [by apply sublist_cons|done].
Qed.

Lemma RotLBit_zero L s : 0 ≤ s ≤ L → RotLBit 0 L s = 0.
Proof.
  intros Hs. rewrite RotLBit_arith by done.
  by rewrite Z.mod_0_l, Z.div_0_l by (apply Z.pow_nonzero; lia).
Qed.

Lemma zero_state L : 0 ≤ L → is_state L 0.
Proof. intros HL. split; [done|]. apply Z.pow_pos_nonneg; lia. Qed.

Lemma uniform_rep_period L m :
  1 ≤ L → is_state L m → (∀ t, rotZ L m t = m) →
  rep L m = m ∧ period L m = 1.
Proof.
  intros HL Hm Hfix. split.
  - apply (rep_unique L HL m m 0); [done|by rewrite Hfix|].
    intros s. by rewrite Hfix.
  - apply period_unique; [done..|lia|done|]. intros t Ht. lia.
Qed.

Lemma rotZ_zero L t : 1 ≤ L → rotZ L 0 t = 0.
Proof.
  intros HL. unfold rotZ. apply RotLBit_zero.
  pose proof (Z.mod_pos_bound t L). lia.
Qed.

Lemma rotZ_ones L t : 1 ≤ L → rotZ L (2 ^ L - 1) t = 2 ^ L - 1.
Proof.
  intros HL. pose proof (ones_state L ltac:(lia)) as Hs.
  apply (state_ext L); [lia|by apply rotZ_state|done|].
  intros j Hj. rewrite (rotZ_testbit L HL) by done.
  rewrite !ones_testbit by (done || (apply Z.mod_pos_bound; lia)). done.
Qed.

Lemma in_sector_uniform L k m :
  1 ≤ L → is_state L m → (∀ t, rotZ L m t = m) →
  in_sector L k m ↔ k mod L = 0.
Proof.
  intros HL Hm Hfix.
  destruct (uniform_rep_period L m HL Hm Hfix) as [Hr Hp].
  unfold in_sector. rewrite Hr, Hp, Z.mul_1_r. tauto.
Qed.

Lemma one_state L : 1 ≤ L → is_state L 1.
Proof.
  intros HL. split; [lia|].
  apply (Z.lt_le_trans _ (2 ^ 1)); [done|]. apply Z.pow_le_mono_r; lia.
Qed.

Lemma rotZ_one L t : 1 ≤ L → rotZ L 1 t = 2 ^ (t mod L).
Proof.
  intros HL. unfold rotZ.
  pose proof (Z.mod_pos_bound t L ltac:(lia)) as Hb.
  rewrite RotLBit_arith by lia.
  assert (2 ^ 1 ≤ 2 ^ (L - t mod L)) by (apply Z.pow_le_mono_r; lia).
  rewrite Z.mod_small, Z.div_small by lia. lia.
Qed.

Lemma in_sector_one L k : 1 ≤ L → in_sector L k 1.
Proof.
  intros HL. pose proof (one_state L HL) as Hs.
  assert (rep L 1 = 1) as Hr.
  { apply (rep_unique L HL 1 1 0); [done|by rewrite rotZ_0|].
    intros s. rewrite rotZ_one by done.
    pose proof (Z.mod_pos_bound s L ltac:(lia)).
    assert (0 < 2 ^ (s mod L)) by (apply Z.pow_pos_nonneg; lia). lia. }
  assert (period L 1 = L) as Hp.
  { apply period_unique; [done..|by apply rotZ_L|].
    intros t Ht. rewrite rotZ_one, Z.mod_small by lia.
    assert (2 ^ 1 ≤ 2 ^ t) by (apply Z.pow_le_mono_r; lia). lia. }
  split; [done|]. rewrite Hp. apply Z.mod_mul. lia.
Qed.

(** X13: for [L >= 1], the basis of sector [k] is a sublist of the
    basis of sector [0]; the state [1] is in every sector, so no basis
    is empty; the all-zero state and the all-one state [2^L - 1] are in
    the basis exactly when [k] is a multiple of [L]. *)
Theorem BuildBasisNk_sectors (L k : Z) :
  1 ≤ L →
  ∃ basis0 basis,
    BuildBasisNk L 0 = Ok basis0 ∧ BuildBasisNk L k = Ok basis ∧
    basis `sublist_of` basis0 ∧
    1 ∈ basis ∧
    (0 ∈ basis ↔ k mod L = 0) ∧
    (2 ^ L - 1 ∈ basis ↔ k mod L = 0).
Proof.
  intros HL. exists (sector_basis L 0), (sector_basis L k).
  split; [by apply BuildBasisNk_spec|]. split; [by apply BuildBasisNk_spec|].
  split; [|split; [|split]].
  - apply filter_sublist_impl. intros n [Hr _]. split; [done|].
    rewrite Z.mul_0_l. apply Z.mod_0_l. lia.
  - apply sector_basis_elem. split; [by apply in_sector_one|by apply one_state].
  - rewrite sector_basis_elem.
    rewrite (in_sector_uniform L k 0 HL (zero_state L ltac:(lia)))
      by (intros t; by apply rotZ_zero).
    pose proof (zero_state L ltac:(lia)). tauto.
  - rewrite sector_basis_elem.
    rewrite (in_sector_uniform L k _ HL (ones_state L ltac:(lia)))
      by (intros t; by apply rotZ_ones).
    pose proof (ones_state L ltac:(lia)). tauto.
Qed.

Lemma BuildBasisNk_sectors_witness :
  1 ≤ 4 ∧
  ∃ basis0 basis,
    BuildBasisNk 4 0 = Ok basis0 ∧ BuildBasisNk 4 2 = Ok basis ∧
    basis `sublist_of` basis0 ∧
    1 ∈ basis ∧
    (0 ∈ basis ↔ 2 mod 4 = 0) ∧
    (2 ^ 4 - 1 ∈ basis ↔ 2 mod 4 = 0).
Proof. split; [lia|]. apply (BuildBasisNk_sectors 4 2). lia. Defined.

(** X14: in the sector [k = 0], the test [m_rs in basisNk] of [BuildHNk]
    never fails: the representative of every state that [ActingH] emits
    for a basis state is in the basis. *)
Theorem zero_sector_keeps_all (L : Z) (J g : R) :
  1 ≤ L →
  ∃ basis,
    BuildBasisNk L 0 = Ok basis ∧
    ∀ n m h, n ∈ basis → (m, h) ∈ ActingH n L J g →
      ∃ m_rs, py_min (Tlist_of m L) = Ok m_rs ∧ py_in m_rs basis = true.
Proof.
  intros HL. exists (sector_basis L 0).
  split; [by apply BuildBasisNk_spec|].
  intros n m h [_ Hn]%sector_basis_elem Hmh.
  pose proof (ActingH_state n L J g m h Hn Hmh) as Hm.
  exists (rep L m). split; [by apply py_min_rep|].
  apply py_in_spec, sector_basis_elem.
  split; [|by apply rep_state]. split; [by apply rep_idem|].
  rewrite Z.mul_0_l. apply Z.mod_0_l. lia.
Qed.

Lemma zero_sector_keeps_all_witness :
  1 ≤ 4 ∧
  ∃ basis,
    BuildBasisNk 4 0 = Ok basis ∧
    ∀ n m h, n ∈ basis → (m, h) ∈ ActingH n 4 1 1 →
      ∃ m_rs, py_min (Tlist_of m 4) = Ok m_rs ∧ py_in m_rs basis = true.
Proof. split; [lia|]. apply (zero_sector_keeps_all 4 1 1). lia. Defined.



(* ===================================================================== *)
(** * Further properties of [ActingH] *)
(* ===================================================================== *)

Lemma FilpBit_inj n i j : 0 ≤ i → 0 ≤ j → FilpBit n i = FilpBit n j → i = j.
Proof.
  intros Hi Hj E.
  assert (Z.testbit (FilpBit n i) i = Z.testbit (FilpBit n j) i) as Hb
    by by rewrite E.
  rewrite !FilpBit_testbit, Z.eqb_refl in Hb by lia.
  destruct (Z.eqb_spec j i); [done|]. by destruct (Z.testbit n i).
Qed.

Lemma FilpBit_ne n i : 0 ≤ i → FilpBit n i ≠ n.
Proof.
  intros Hi E.
  assert (Z.testbit (FilpBit n i) i = Z.testbit n i) as Hb by by rewrite E.
  rewrite FilpBit_testbit, Z.eqb_refl in Hb by lia.
  by destruct (Z.testbit n i).
Qed.

(** X16: the target states of [ActingH(n, L, J, g)] are pairwise
    distinct: different sites give different flipped states, and no
    flipped state is [n] itself. *)
Theorem ActingH_targets_distinct (n L : Z) (J g : R) :
  NoDup ((ActingH n L J g).*1).
Proof.
  rewrite ActingH_eq, fmap_app, <- list_fmap_compose. simpl.
  apply NoDup_app. split; [|split].
  - apply NoDup_fmap_2_strong; [|apply NoDup_seqZ].
    intros i j Hi%elem_of_seqZ Hj%elem_of_seqZ. apply FilpBit_inj; lia.
  - intros m (i & -> & Hi%elem_of_seqZ)%list_elem_of_fmap
             Hm%list_elem_of_singleton.
    simpl in Hm. by apply (FilpBit_ne n i); [lia|].
  - apply NoDup_singleton.
Qed.

Lemma Rsum_reindex (L : Z) (σ : Z → Z) (f : Z → R) :
  (∀ i, 0 ≤ i < L → 0 ≤ σ i < L) →
  (∀ i j, 0 ≤ i < L → 0 ≤ j < L → σ i = σ j → i = j) →
  Rsum (seqZ 0 L) (f ∘ σ) = Rsum (seqZ 0 L) f.
Proof.
  intros Hran Hinj. rewrite <- sum_over_fmap.
  apply sum_over_perm; [intros; lra..|]. by apply seqZ_reindex.
Qed.

Lemma bond_energy_rotZ L J n t i :
  1 ≤ L → is_state L n → 0 ≤ i < L →
  bond_energy (rotZ L n t) L J i = bond_energy n L J ((i + - t) mod L).
Proof.
  intros HL Hn Hi. unfold bond_energy.
  pose proof (Z.mod_pos_bound (i + 1) L ltac:(lia)).
  rewrite !(rotZ_testbit L HL) by (done || lia).
  replace (i - t) with (i + - t) by lia.
  assert (((i + 1) mod L - t) mod L = ((i + - t) mod L + 1) mod L) as ->;
    [|done].
  rewrite Zminus_mod_idemp_l, Zplus_mod_idemp_l. f_equal. lia.
Qed.

Lemma diag_of_rotZ L J n t :
  1 ≤ L → is_state L n → diag_of (rotZ L n t) L J = diag_of n L J.
Proof.
  intros HL Hn. rewrite !diag_of_diagSum. unfold diagSum, range0.
  rewrite <- (Rsum_reindex L (λ i, (i + - t) mod L) (bond_energy n L J)).
  - apply sum_over_ext. intros i Hi%elem_of_seqZ. simpl.
    apply bond_energy_rotZ; (done || lia).
  - intros i _. apply Z.mod_pos_bound. lia.
  - intros i j Hi Hj. by apply shift_inj.
Qed.

(** X17: the diagonal amplitude that [ActingH] emits last is the same
    for every rotation of an [L]-bit state: the Ising energy is
    translation invariant. *)
Theorem ActingH_diag_translation (n L s : Z) (J g : R) :
  1 ≤ L → is_state L n → 0 ≤ s ≤ L →
  ∃ d, last (ActingH n L J g) = Some (n, d) ∧
       last (ActingH (RotLBit n L s) L J g) = Some (RotLBit n L s, d).
Proof.
  intros HL Hn Hs. exists (diag_of n L J).
  rewrite !ActingH_eq, !last_snoc. split; [done|].
  rewrite (RotLBit_rotZ L HL n s Hn Hs). by rewrite diag_of_rotZ.
Qed.

Lemma ActingH_diag_translation_witness :
  (1 ≤ 4 ∧ is_state 4 6 ∧ 0 ≤ 3 ≤ 4) ∧
  ∃ d, last (ActingH 6 4 1 1) = Some (6, d) ∧
       last (ActingH (RotLBit 6 4 3) 4 1 1) = Some (RotLBit 6 4 3, d).
Proof.
  assert (is_state 4 6) as Hn by (unfold is_state; simpl; lia).
  split; [split; [lia|split; [exact Hn|lia]]|].
  apply (ActingH_diag_translation 6 4 3 1 1); [lia|exact Hn|lia].
Defined.

Lemma Rsum_bounds {I} (l : list I) (f : I → R) (J : R) :
  (∀ x, x ∈ l → (- J <= f x <= J)%R) →
  (- (INR (length l) * J) <= Rsum l f <= INR (length l) * J)%R.
Proof.
  induction l as [|x l IH]; intros Hf.
  - simpl. lra.
  - rewrite sum_over_cons. change (length (x :: l)) with (S (length l)).
    rewrite S_INR. pose proof (Hf x ltac:(by left)).
    pose proof (IH ltac:(intros y Hy; apply Hf; by right)). lra.
Qed.

Lemma Rsum_const_val {I} (l : list I) (f : I → R) (v : R) :
  (∀ x, x ∈ l → f x = v) → Rsum l f = (INR (length l) * v)%R.
Proof.
  induction l as [|x l IH]; intros Hf.
  - simpl. lra.
  - rewrite sum_over_cons. change (length (x :: l)) with (S (length l)).
    rewrite S_INR, (Hf x) by left.
    rewrite IH by (intros y Hy; apply Hf; by right). lra.
Qed.

Lemma INR_length_seqZ L : 0 ≤ L → INR (length (seqZ 0 L)) = IZR L.
Proof. intros HL. by rewrite length_seqZ, INR_IZR_INZ, Z2Nat.id. Qed.

(** X18: for [L >= 1] and [J >= 0] the diagonal amplitude of [ActingH]
    lies between [-L*J] and [L*J]; the all-zero and the all-one state
    reach the lower bound [-L*J]. *)
Theorem ActingH_diag_bounds (n L : Z) (J g : R) :
  1 ≤ L → (0 <= J)%R →
  (∃ d, last (ActingH n L J g) = Some (n, d) ∧
        (- (IZR L * J) <= d <= IZR L * J)%R) ∧
  last (ActingH 0 L J g) = Some (0, (- (IZR L * J))%R) ∧
  last (ActingH (2 ^ L - 1) L J g) = Some (2 ^ L - 1, (- (IZR L * J))%R).
Proof.
  intros HL HJ. rewrite !ActingH_eq, !last_snoc, !diag_of_diagSum.
  unfold diagSum, range0. split; [|split].
  - eexists. split; [done|]. rewrite <- (INR_length_seqZ L) by lia.
    apply Rsum_bounds. intros i _. unfold bond_energy.
    destruct (eqb _ _); lra.
  - do 2 f_equal. rewrite (Rsum_const_val _ _ (- J)%R).
    + rewrite INR_length_seqZ by lia. lra.
    + intros i _. unfold bond_energy. by rewrite !Z.bits_0.
  - do 2 f_equal. rewrite (Rsum_const_val _ _ (- J)%R).
    + rewrite INR_length_seqZ by lia. lra.
    + intros i Hi%elem_of_seqZ. unfold bond_energy.
      rewrite !ones_testbit; [done| |lia].
      apply Z.mod_pos_bound. lia.
Qed.

Lemma ActingH_diag_bounds_witness :
  (1 ≤ 4 ∧ (0 <= 1)%R) ∧
  (∃ d, last (ActingH 5 4 1 1) = Some (5, d) ∧
        (- (IZR 4 * 1) <= d <= IZR 4 * 1)%R) ∧
  last (ActingH 0 4 1 1) = Some (0, (- (IZR 4 * 1))%R) ∧
  last (ActingH (2 ^ 4 - 1) 4 1 1) = Some (2 ^ 4 - 1, (- (IZR 4 * 1))%R).
Proof.
  split; [split; [lia|lra]|].
  apply (ActingH_diag_bounds 5 4 1 1); [lia|lra].
Defined.

(* ===================================================================== *)
(** * Further properties of [BuildHNk] and of the sector loop of [Task] *)
(* ===================================================================== *)

Lemma acc_hermitian L k J g st :
  1 ≤ L → acc_inv (all_contribs L k J g (sector_basis L k)) st →
  ∀ r c : nat,
    matrix_entry (HNk_col st) (HNk_row st) (HNk_val st) r c =
    Cconj (matrix_entry (HNk_col st) (HNk_row st) (HNk_val st) c r).
Proof.
  intros HL Hinv b a. rewrite !(matrix_entry_inv _ _ _ _ Hinv).
  destruct (sector_basis L k !! a) as [y|] eqn:Ha;
    [destruct (sector_basis L k !! b) as [n|] eqn:Hb|].
  - rewrite (key_sum_elem L k J g a b n y Hb Ha).
    rewrite (key_sum_elem L k J g b a y n Ha Hb).
    apply elem_hermitian; [done|by eapply list_elem_of_lookup_2..].
  - apply lookup_ge_None in Hb.
    rewrite !key_sum_out_of_range by auto. by rewrite Cconj_0.
  - apply lookup_ge_None in Ha.
    rewrite !key_sum_out_of_range by auto. by rewrite Cconj_0.
Qed.

Lemma acc_slot cs st p :
  acc_inv cs st → (p < length (HNk_col st))%nat →
  ∃ a b, HNk_col st !! p = Some a ∧ HNk_row st !! p = Some b ∧
         pos st !! (a, b) = Some p ∧
         HNk_val st !! p = Some (key_sum cs (a, b)) ∧
         ∃ c, c ∈ cs ∧ c.1 = (a, b).
Proof.
  intros Hinv Hp.
  destruct (lookup_lt_is_Some_2 (HNk_col st) p Hp) as [a Ha].
  destruct (lookup_lt_is_Some_2 (HNk_row st) p) as [b Hb];
    [by rewrite (inv_len_row _ _ Hinv)|].
  assert (pos st !! (a, b) = Some p) as Hpos by by apply (inv_pos _ _ Hinv).
  exists a, b. split; [done|]. split; [done|]. split; [done|].
  split; [by apply (inv_val _ _ Hinv)|by apply (inv_present _ _ Hinv _ p)].
Qed.

Lemma length_omap_le {A B} (f : A → option B) (l : list A) :
  (length (omap f l) ≤ length l)%nat.
Proof.
  induction l as [|x l IH]; [done|].
  change (omap f (x :: l))
    with (match f x with Some y => y :: omap f l | None => omap f l end).
  destruct (f x); simpl; lia.
Qed.

Lemma length_bind_le {A B} (f : A → list B) (l : list A) (c : nat) :
  (∀ x, x ∈ l → (length (f x) ≤ c)%nat) →
  (length (l ≫= f) ≤ length l * c)%nat.
Proof.
  induction l as [|x l IH]; intros Hf; [done|].
  rewrite bind_cons, length_app. simpl.
  pose proof (Hf x ltac:(by left)).
  pose proof (IH ltac:(intros y Hy; apply Hf; by right)). lia.
Qed.

Lemma length_all_contribs L k J g basis :
  0 ≤ L →
  (length (all_contribs L k J g basis) ≤ length basis * Z.to_nat (L + 1))%nat.
Proof.
  intros HL. apply length_bind_le. intros n _.
  etrans; [apply length_omap_le|].
  rewrite ActingH_eq, length_app, length_fmap, length_seqZ. simpl. lia.
Qed.

Lemma acc_index_bounds L k J g basis st :
  acc_inv (all_contribs L k J g basis) st →
  Forall (λ a, a < length basis)%nat (HNk_col st) ∧
  Forall (λ b, b < length basis)%nat (HNk_row st).
Proof.
  intros Hinv. pose proof (inv_len_row _ _ Hinv) as Hlr. split.
  - apply Forall_lookup. intros p a Ha.
    destruct (acc_slot _ _ p Hinv) as (a' & b & Ha' & _ & _ & _ & c & Hc & Hk);
      [by eapply lookup_lt_Some|].
    apply all_contribs_key in Hc as [Hc _]. rewrite Hk in Hc. simpl in Hc.
    congruence.
  - apply Forall_lookup. intros p b Hb.
    destruct (acc_slot _ _ p Hinv) as (a & b' & _ & Hb' & _ & _ & c & Hc & Hk);
      [rewrite <- Hlr; by eapply lookup_lt_Some|].
    apply all_contribs_key in Hc as [_ Hc]. rewrite Hk in Hc. simpl in Hc.
    congruence.
Qed.

(** X19: for [L >= 1] the triplet lists of [BuildHNk] are well formed:
    they have the same length, every column and row index is below the
    dimension [len(basisNk)], no (column, row) pair occurs twice, and
    there are at most [L + 1] triplets per basis state. *)
Theorem BuildHNk_triplets_wellformed (L k : Z) (J g : R) :
  1 ≤ L →
  ∃ cols rows vals basis,
    BuildBasisNk L k = Ok basis ∧
    BuildHNk L k J g = Ok (cols, rows, vals, length basis, basis) ∧
    length rows = length cols ∧ length vals = length cols ∧
    Forall (λ a, a < length basis)%nat cols ∧
    Forall (λ b, b < length basis)%nat rows ∧
    NoDup (zip cols rows) ∧
    (length cols ≤ length basis * Z.to_nat (L + 1))%nat.
Proof.
  intros HL. destruct (BuildHNk_acc L k J g HL) as (st & Hst & Hinv).
  do 4 eexists. split; [by apply BuildBasisNk_spec|]. split; [exact Hst|].
  pose proof (inv_len_row _ _ Hinv) as Hlr.
  pose proof (inv_len_val _ _ Hinv) as Hlv.
  assert (NoDup (zip (HNk_col st) (HNk_row st))) as Hnd.
  { apply NoDup_alt. intros p p' [a b] Hp Hp'.
    apply lookup_zip_with_Some in Hp as (a1 & b1 & [= <- <-] & Ha & Hb).
    apply lookup_zip_with_Some in Hp' as (a2 & b2 & [= <- <-] & Ha' & Hb').
    assert (pos st !! (a, b) = Some p) by by apply (inv_pos _ _ Hinv).
    assert (pos st !! (a, b) = Some p') by by apply (inv_pos _ _ Hinv).
    congruence. }
  destruct (acc_index_bounds _ _ _ _ _ _ Hinv) as [Hbc Hbr].
  split; [done|]. split; [done|]. split; [done|]. split; [done|].
  split; [done|].
  etrans; [|apply (length_all_contribs L k J g); lia].
  rewrite <- (length_fmap fst (all_contribs _ _ _ _ _)).
  replace (length (HNk_col st)) with (length (zip (HNk_col st) (HNk_row st)))
    by (rewrite length_zip_with; lia).
  apply submseteq_length, NoDup_submseteq; [done|].
  intros [a b] [p Hp]%list_elem_of_lookup.
  apply lookup_zip_with_Some in Hp as (a1 & b1 & [= <- <-] & Ha & Hb).
  destruct (acc_slot _ _ p Hinv) as (a' & b' & Ha' & Hb' & _ & _ & c & Hc & Hk);
    [by eapply lookup_lt_Some|].
  apply list_elem_of_fmap. exists c. split; [|done]. rewrite Hk. congruence.
Qed.

Lemma BuildHNk_triplets_wellformed_witness :
  1 ≤ 4 ∧
  ∃ cols rows vals basis,
    BuildBasisNk 4 1 = Ok basis ∧
    BuildHNk 4 1 1 1 = Ok (cols, rows, vals, length basis, basis) ∧
    length rows = length cols ∧ length vals = length cols ∧
    Forall (λ a, a < length basis)%nat cols ∧
    Forall (λ b, b < length basis)%nat rows ∧
    NoDup (zip cols rows) ∧
    (length cols ≤ length basis * Z.to_nat (4 + 1))%nat.
Proof. split; [lia|]. apply (BuildHNk_triplets_wellformed 4 1 1 1). lia. Defined.

Lemma Csum_real {I} (l : list I) (f : I → C) :
  (∀ x, x ∈ l → (f x).2 = 0%R) → (Csum l f).2 = 0%R.
Proof.
  induction l as [|x l IH]; intros Hf; [done|].
  rewrite sum_over_cons. change ((f x).2 + (Csum l f).2 = 0)%R.
  rewrite (Hf x) by left.
  rewrite IH by (intros y Hy; apply Hf; by right). lra.
Qed.

Lemma all_contribs_elem L k J g basis c :
  c ∈ all_contribs L k J g basis →
  ∃ n m h, n ∈ basis ∧ (m, h) ∈ ActingH n L J g ∧
           c.2 = contribution h k (dist L m) L (period L n) (period L m).
Proof.
  unfold all_contribs. rewrite list_elem_of_bind.
  intros (n & Hc & Hn). apply list_elem_of_omap in Hc as ([m h] & Hmh & Hc).
  unfold contrib_of in Hc. simpl in Hc.
  destruct (py_in (rep L m) basis); [|done]. injection Hc as <-.
  by exists n, m, h.
Qed.

Lemma acc_vals_forall (P : C → Prop) cs st :
  acc_inv cs st → P C0 → (∀ x y, P x → P y → P (Cadd x y)) →
  (∀ c, c ∈ cs → P c.2) → Forall P (HNk_val st).
Proof.
  intros Hinv H0 Hadd Hcs. apply Forall_lookup. intros p v Hv.
  destruct (acc_slot cs st p Hinv) as (a & b & _ & _ & _ & Hv' & _);
    [rewrite <- (inv_len_val _ _ Hinv); by eapply lookup_lt_Some|].
  assert (v = key_sum cs (a, b)) as -> by congruence.
  unfold key_sum. clear -H0 Hadd Hcs.
  induction cs as [|c cs IH]; [done|].
  rewrite sum_over_cons. apply Hadd.
  - destruct (decide _); [apply Hcs; by left|done].
  - apply IH. intros c' Hc'. apply Hcs. by right.
Qed.

Lemma contribution_real_momentum h k d L Rn Rm :
  1 ≤ L → (2 * k) mod L = 0 → (contribution h k d L Rn Rm).2 = 0%R.
Proof.
  intros HL [q Hq]%Z.mod_divide; [|lia].
  assert (IZR L ≠ 0%R) as HL0 by (apply not_0_IZR; lia).
  rewrite contribution_ph. unfold Rmulc, ph. simpl.
  rewrite (sin_eq_0_1 (theta k L (Z.of_nat d))); [ring|].
  exists (q * Z.of_nat d). unfold theta.
  assert (IZR (k * Z.of_nat d) * 2 = IZR (q * Z.of_nat d) * IZR L)%R as E.
  { rewrite <- (mult_IZR _ 2), <- mult_IZR. f_equal.
    transitivity (2 * k * Z.of_nat d); [ring|]. rewrite Hq. ring. }
  transitivity (IZR (k * Z.of_nat d) * 2 * PI / IZR L)%R;
    [unfold Rdiv; ring|].
  rewrite E. by field.
Qed.

(** X20: in a sector with [2 k] a multiple of [L] (the momenta [0] and,
    for even [L], [L / 2]) every value that [BuildHNk] stores is real
    (its imaginary part is [0]) and the matrix of the triplets is
    symmetric. *)
Theorem real_sectors (L k : Z) (J g : R) :
  1 ≤ L → (2 * k) mod L = 0 →
  ∃ cols rows vals dim basis,
    BuildHNk L k J g = Ok (cols, rows, vals, dim, basis) ∧
    Forall (λ v, v.2 = 0%R) vals ∧
    ∀ r c : nat,
      matrix_entry cols rows vals r c = matrix_entry cols rows vals c r.
Proof.
  intros HL Hk. destruct (BuildHNk_acc L k J g HL) as (st & Hst & Hinv).
  do 5 eexists. split; [exact Hst|].
  assert (Forall (λ v : C, v.2 = 0%R) (HNk_val st)) as Hreal.
  { apply (acc_vals_forall _ _ _ Hinv); [done| |].
    - intros x y Hx Hy. unfold Cadd. simpl. rewrite Hx, Hy. lra.
    - intros c (n & m & h & _ & _ & ->)%all_contribs_elem.
      by apply contribution_real_momentum. }
  split; [done|]. intros r c.
  rewrite (acc_hermitian L k J g st HL Hinv r c).
  assert ((matrix_entry (HNk_col st) (HNk_row st) (HNk_val st) c r).2 = 0%R)
    as Him.
  { unfold matrix_entry. apply Csum_real.
    intros [[a b] v] [p (_ & _ & Hv)%triplet_lookup]%list_elem_of_lookup.
    simpl in *. destruct (decide _); [|done].
    rewrite Forall_lookup in Hreal. by apply (Hreal p). }
  destruct (matrix_entry _ _ _ c r) as [x y]. simpl in Him. subst y.
  unfold Cconj. simpl. f_equal. lra.
Qed.

Lemma real_sectors_witness :
  (1 ≤ 4 ∧ (2 * 2) mod 4 = 0) ∧
  ∃ cols rows vals dim basis,
    BuildHNk 4 2 1 1 = Ok (cols, rows, vals, dim, basis) ∧
    Forall (λ v, v.2 = 0%R) vals ∧
    ∀ r c : nat,
      matrix_entry cols rows vals r c = matrix_entry cols rows vals c r.
Proof.
  split; [split; [lia|reflexivity]|].
  apply (real_sectors 4 2 1 1); [lia|reflexivity].
Defined.

Lemma diag_of_zero_coupling n L : diag_of n L 0 = 0%R.
Proof.
  rewrite diag_of_diagSum. unfold diagSum.
  rewrite (Rsum_const_val _ _ 0%R); [lra|].
  intros i _. unfold bond_energy. destruct (eqb _ _); lra.
Qed.

Lemma matrix_entry_app X1 Y1 N1 X2 Y2 N2 r c :
  length Y1 = length X1 → length N1 = length X1 →
  matrix_entry (X1 ++ X2) (Y1 ++ Y2) (N1 ++ N2) r c =
    Cadd (matrix_entry X1 Y1 N1 r c) (matrix_entry X2 Y2 N2 r c).
Proof.
  intros HY HN. unfold matrix_entry.
  rewrite (zip_with_app pair X1 X2 Y1 Y2) by done.
  rewrite zip_with_app by (rewrite length_zip_with; lia).
  apply Csum_app.
Qed.

Lemma matrix_entry_shift X Y N (count r c : nat) :
  matrix_entry ((λ p, p + count)%nat <$> X) ((λ p, p + count)%nat <$> Y) N r c
  = if decide (count ≤ r ∧ count ≤ c)%nat
    then matrix_entry X Y N (r - count) (c - count)
    else C0.
Proof.
  unfold matrix_entry. revert Y N.
  induction X as [|x X IH]; intros [|y Y] [|v N];
    try (simpl; by destruct (decide _)).
  rewrite !fmap_cons. simpl zip_with. rewrite !sum_over_cons, IH. simpl.
  destruct (decide (count ≤ r ∧ count ≤ c)%nat) as [Hrc|Hrc].
  - f_equal. destruct (decide (y = r - count ∧ x = c - count)%nat).
    + rewrite decide_True; [done|lia].
    + rewrite decide_False; [done|lia].
  - rewrite decide_False, Cadd_0_l; [done|lia].
Qed.

Lemma Cconj_Cadd x y : Cconj (Cadd x y) = Cadd (Cconj x) (Cconj y).
Proof. unfold Cconj, Cadd. simpl. f_equal. lra. Qed.

Lemma Task_step_inv L k acc :
  1 ≤ L → Task_inv acc →
  ∃ acc', Task_step L acc k = Ok acc' ∧ Task_inv acc' ∧
          acc'.2 = (acc.2 + length (sector_basis L k))%nat.
Proof.
  intros HL. destruct acc as [[[Hx Hy] Hn] count].
  intros (HlY & HlN & HbX & HbY & Hh).
  destruct (BuildHNk_acc L k 1 1 HL) as (st & Hst & Hinv).
  unfold Task_step. rewrite Hst. simpl. eexists. split; [done|].
  split; [|done].
  pose proof (inv_len_row _ _ Hinv) as Hlr.
  pose proof (inv_len_val _ _ Hinv) as Hlv.
  destruct (acc_index_bounds _ _ _ _ _ _ Hinv) as [Hbc Hbr].
  split; [by rewrite !length_app, !length_fmap, HlY, Hlr|].
  split; [by rewrite !length_app, !length_fmap, HlN, Hlv|].
  split; [|split].
  - apply Forall_app. split.
    + eapply Forall_impl; [exact HbX|]. intros x Hlt. simpl in Hlt. lia.
    + apply Forall_fmap. eapply Forall_impl; [exact Hbc|].
      intros x Hlt. simpl in *. lia.
  - apply Forall_app. split.
    + eapply Forall_impl; [exact HbY|]. intros x Hlt. simpl in Hlt. lia.
    + apply Forall_fmap. eapply Forall_impl; [exact Hbr|].
      intros x Hlt. simpl in *. lia.
  - intros r c. rewrite !matrix_entry_app, !matrix_entry_shift by done.
    rewrite Cconj_Cadd, <- Hh. f_equal.
    destruct (decide (count ≤ r ∧ count ≤ c)%nat).
    + rewrite decide_True by lia. by apply (acc_hermitian L k 1 1).
    + rewrite decide_False by lia. by rewrite Cconj_0.
Qed.

Lemma Task_loop_inv L l acc :
  1 ≤ L → Task_inv acc →
  ∃ acc', for_each (Task_step L) l acc = Ok acc' ∧ Task_inv acc' ∧
          Z.of_nat acc'.2 =
            Z.of_nat acc.2 + Zsum l (λ k, Z.of_nat (length (sector_basis L k))).
Proof.
  intros HL. revert acc. induction l as [|k l IH]; intros acc Hacc.
  - exists acc. split; [done|]. split; [done|]. simpl. lia.
  - destruct (Task_step_inv L k acc HL Hacc) as (acc1 & Hs & Hi & Hc).
    destruct (IH acc1 Hi) as (acc' & Hf & Hi' & Hc').
    exists acc'. split; [simpl; by rewrite Hs|]. split; [done|].
    rewrite Hc', Hc, sum_over_cons. lia.
Qed.

Lemma Task_inv_init : Task_inv ([], [], [], 0%nat).
Proof.
  repeat split; try done. intros r c. unfold matrix_entry. simpl.
  by rewrite Cconj_0.
Qed.

Lemma Task_triplets_inv L :
  1 ≤ L →
  ∃ acc, Task_triplets L = Ok acc ∧ Task_inv acc ∧ Z.of_nat acc.2 = 2 ^ L.
Proof.
  intros HL.
  destruct (Task_loop_inv L (range0 L) _ HL Task_inv_init)
    as (acc & Hf & Hi & Hc).
  exists acc. split; [done|]. split; [done|].
  rewrite Hc. simpl. unfold range0. by apply sector_dims_sum.
Qed.

(** X22: for [L >= 1] the sector loop of [Task] (with its couplings
    [J = g = 1]) raises nothing; the dimension [count] it reaches, the
    shape given to [coo_matrix], is [2^L]; the three merged lists have
    one length and every index in them is below [count]. *)
Theorem Task_triplets_shape (L : Z) :
  1 ≤ L →
  ∃ Hx Hy Hn count,
    Task_triplets L = Ok (Hx, Hy, Hn, count) ∧
    Z.of_nat count = 2 ^ L ∧
    length Hy = length Hx ∧ length Hn = length Hx ∧
    Forall (λ x, x < count)%nat Hx ∧ Forall (λ y, y < count)%nat Hy.
Proof.
  intros HL.
  destruct (Task_triplets_inv L HL)
    as ([[[Hx Hy] Hn] count] & Ht & (H1 & H2 & H3 & H4 & _) & Hc).
  by exists Hx, Hy, Hn, count.
Qed.

Lemma Task_triplets_shape_witness :
  1 ≤ 4 ∧
  ∃ Hx Hy Hn count,
    Task_triplets 4 = Ok (Hx, Hy, Hn, count) ∧
    Z.of_nat count = 2 ^ 4 ∧
    length Hy = length Hx ∧ length Hn = length Hx ∧
    Forall (λ x, x < count)%nat Hx ∧ Forall (λ y, y < count)%nat Hy.
Proof. split; [lia|]. apply (Task_triplets_shape 4). lia. Defined.

(** X23: for [L >= 1] the matrix of the triplets that [Task] merges
    over all sectors is Hermitian (in exact arithmetic), whichever of
    the two index lists is read as the rows. *)
Theorem Task_triplets_hermitian (L : Z) :
  1 ≤ L →
  ∃ Hx Hy Hn count,
    Task_triplets L = Ok (Hx, Hy, Hn, count) ∧
    (∀ r c : nat,
       matrix_entry Hx Hy Hn r c = Cconj (matrix_entry Hx Hy Hn c r)) ∧
    (∀ r c : nat,
       matrix_entry Hy Hx Hn r c = Cconj (matrix_entry Hy Hx Hn c r)).
Proof.
  intros HL.
  destruct (Task_triplets_inv L HL)
    as ([[[Hx Hy] Hn] count] & Ht & (H1 & H2 & H3 & H4 & Hh) & Hc).
  exists Hx, Hy, Hn, count. split; [done|]. split; [done|].
  assert (∀ r c, matrix_entry Hy Hx Hn r c = matrix_entry Hx Hy Hn c r) as Ht'.
  { intros r c. unfold matrix_entry. clear.
    revert Hy Hn. induction Hx as [|x Hx IH]; intros [|y Hy] [|v Hn];
      try done.
    simpl zip_with. rewrite !sum_over_cons, IH. simpl. f_equal.
    destruct (decide (x = r ∧ y = c)).
    - by rewrite decide_True by tauto.
    - by rewrite decide_False by tauto. }
  intros r c. by rewrite !Ht'.
Qed.

Lemma Task_triplets_hermitian_witness :
  1 ≤ 4 ∧
  ∃ Hx Hy Hn count,
    Task_triplets 4 = Ok (Hx, Hy, Hn, count) ∧
    (∀ r c : nat,
       matrix_entry Hx Hy Hn r c = Cconj (matrix_entry Hx Hy Hn c r)) ∧
    (∀ r c : nat,
       matrix_entry Hy Hx Hn r c = Cconj (matrix_entry Hy Hx Hn c r)).
Proof. split; [lia|]. apply (Task_triplets_hermitian 4). lia. Defined.

(** X24: for [L >= 1], [BuildBasisN] returns the [2^L] states, and
    every one of them is rotated by [RotLBit] onto exactly one state of
    the basis of sector [0]: the orbits partition the states and the
    sector [0] holds one representative of each. *)
Theorem orbits_partition (L : Z) :
  1 ≤ L →
  ∃ states basis0,
    BuildBasisN L = Ok states ∧ BuildBasisNk L 0 = Ok basis0 ∧
    Z.of_nat (length states) = 2 ^ L ∧
    ∀ n, n ∈ states →
      ∃ m, m ∈ basis0 ∧ (∃ s, 0 ≤ s ≤ L ∧ RotLBit n L s = m) ∧
           ∀ m', m' ∈ basis0 → (∃ s, 0 ≤ s ≤ L ∧ RotLBit n L s = m') →
                 m' = m.
Proof.
  intros HL. exists (range0 (2 ^ L)), (sector_basis L 0).
  assert (0 ≤ 2 ^ L) by (apply Z.pow_nonneg; lia).
  split; [unfold BuildBasisN; by destruct (Z.ltb_spec L 0); [lia|]|].
  split; [by apply BuildBasisNk_spec|].
  split; [unfold range0; rewrite length_seqZ; lia|].
  intros n Hn%elem_of_seqZ.
  assert (is_state L n) as Hs by (unfold is_state; lia).
  exists (rep L n). split; [|split].
  - apply sector_basis_elem. split; [|by apply rep_state].
    split; [by apply rep_idem|]. rewrite Z.mul_0_l. apply Z.mod_0_l. lia.
  - destruct (rep_spec L HL n Hs) as [(t & Ht & Hr) _].
    exists t. split; [lia|]. rewrite RotLBit_rotZ by (done || lia). done.
  - intros m' [[Hr' _] _]%sector_basis_elem (s & Hs' & <-).
    rewrite <- Hr' at 1. rewrite RotLBit_rotZ by done. by apply rep_rotZ.
Qed.

Lemma orbits_partition_witness :
  1 ≤ 4 ∧
  ∃ states basis0,
    BuildBasisN 4 = Ok states ∧ BuildBasisNk 4 0 = Ok basis0 ∧
    Z.of_nat (length states) = 2 ^ 4 ∧
    ∀ n, n ∈ states →
      ∃ m, m ∈ basis0 ∧ (∃ s, 0 ≤ s ≤ 4 ∧ RotLBit n 4 s = m) ∧
           ∀ m', m' ∈ basis0 → (∃ s, 0 ≤ s ≤ 4 ∧ RotLBit n 4 s = m') →
                 m' = m.
Proof. split; [lia|]. apply (orbits_partition 4). lia. Defined.

Lemma all_contribs_elem_key L k J g basis c :
  c ∈ all_contribs L k J g basis ↔
  ∃ n m h, n ∈ basis ∧ (m, h) ∈ ActingH n L J g ∧ rep L m ∈ basis ∧
           c = ((idx basis (rep L m), idx basis n),
                contribution h k (dist L m) L (period L n) (period L m)).
Proof.
  unfold all_contribs. rewrite list_elem_of_bind. split.
  - intros (n & Hc & Hn). apply list_elem_of_omap in Hc as ([m h] & Hmh & Hc).
    unfold contrib_of in Hc. simpl in Hc.
    destruct (py_in (rep L m) basis) eqn:Hin; [|done].
    apply py_in_spec in Hin. injection Hc as <-. by exists n, m, h.
  - intros (n & m & h & Hn & Hmh & Hin & ->). exists n. split; [|done].
    apply list_elem_of_omap. exists (m, h). split; [done|].
    unfold contrib_of. simpl. by rewrite (proj2 (py_in_spec _ _) Hin).
Qed.

Lemma key_present cs st a b :
  acc_inv cs st →
  (a, b) ∈ zip (HNk_col st) (HNk_row st) ↔ ∃ c, c ∈ cs ∧ c.1 = (a, b).
Proof.
  intros Hinv. split.
  - intros [p Hp]%list_elem_of_lookup.
    apply lookup_zip_with_Some in Hp as (a1 & b1 & [= <- <-] & Ha & Hb).
    destruct (acc_slot _ _ p Hinv) as (a' & b' & Ha' & Hb' & _ & _ & c & Hc & Hk);
      [by eapply lookup_lt_Some|].
    exists c. split; [done|]. rewrite Hk. congruence.
  - intros (c & Hc & Hk).
    destruct (pos st !! (a, b)) as [p|] eqn:Hp.
    + apply (inv_pos _ _ Hinv) in Hp as [Ha Hb]. simpl in *.
      apply list_elem_of_lookup. exists p. apply lookup_zip_with_Some.
      by exists a, b.
    + by destruct (inv_absent _ _ Hinv _ Hp _ Hc).
Qed.

Lemma contribs_key_swap L k J g a b :
  1 ≤ L →
  (∃ c, c ∈ all_contribs L k J g (sector_basis L k) ∧ c.1 = (a, b)) →
  ∃ c, c ∈ all_contribs L k J g (sector_basis L k) ∧ c.1 = (b, a).
Proof.
  intros HL (c & Hc & Hk). pose proof Hc as Hc'.
  apply all_contribs_elem_key in Hc' as (n & m & h & Hn & Hmh & Hy & ->).
  simpl in Hk. injection Hk as <- <-.
  pose proof Hn as [[Hrn _] Hsn]%sector_basis_elem.
  pose proof Hy as [_ Hsy]%sector_basis_elem.
  apply ActingH_elem in Hmh as [(i & Hi & -> & _)|[-> _]].
  - pose proof (FilpBit_state L n i Hi Hsn) as Hsm.
    destruct (dist_Ok L HL _ Hsm) as (_ & Hrot & _).
    apply (flip_rot_swap L HL n (rep L (FilpBit n i)) i) in Hrot;
      [|done..].
    set (y := rep L (FilpBit n i)) in *.
    set (j := (i + Z.of_nat (dist L (FilpBit n i))) mod L) in *.
    assert (0 ≤ j < L) as Hj by (apply Z.mod_pos_bound; lia).
    assert (rep L (FilpBit y j) = n) as Hrep.
    { clearbody y j. transitivity (rep L n); [|done].
      rewrite <- Hrot. symmetry. apply rep_rotZ; [done|].
      by apply FilpBit_state. }
    exists ((idx (sector_basis L k) n, idx (sector_basis L k) y),
            contribution (- J * g) k (dist L (FilpBit y j)) L
              (period L y) (period L (FilpBit y j))).
    split; [|done].
    apply all_contribs_elem_key. exists y, (FilpBit y j), (- J * g)%R.
    split; [done|]. split.
    + rewrite ActingH_eq. apply elem_of_app. left. apply list_elem_of_fmap.
      exists j. split; [done|]. apply elem_of_seqZ. lia.
    + rewrite Hrep. split; [done|reflexivity].
  - rewrite Hrn in Hc |- *. eexists. split; [exact Hc|done].
Qed.

(** X25: the sparsity pattern of [BuildHNk] is symmetric: a triplet is
    stored for the pair (column [a], row [b]) exactly when one is stored
    for (column [b], row [a]). *)
Theorem BuildHNk_pattern_symmetric (L k : Z) (J g : R) :
  1 ≤ L →
  ∃ cols rows vals dim basis,
    BuildHNk L k J g = Ok (cols, rows, vals, dim, basis) ∧
    ∀ a b : nat, (a, b) ∈ zip cols rows ↔ (b, a) ∈ zip cols rows.
Proof.
  intros HL. destruct (BuildHNk_acc L k J g HL) as (st & Hst & Hinv).
  do 5 eexists. split; [exact Hst|]. intros a b.
  rewrite !(key_present _ _ _ _ Hinv).
  split; by apply contribs_key_swap.
Qed.

Lemma BuildHNk_pattern_symmetric_witness :
  1 ≤ 4 ∧
  ∃ cols rows vals dim basis,
    BuildHNk 4 1 1 1 = Ok (cols, rows, vals, dim, basis) ∧
    ∀ a b : nat, (a, b) ∈ zip cols rows ↔ (b, a) ∈ zip cols rows.
Proof. split; [lia|]. apply (BuildHNk_pattern_symmetric 4 1 1 1). lia. Defined.

Lemma BuildHNk_for_each L k J g :
  1 ≤ L →
  BuildHNk L k J g =
    st ← for_each acc_step (all_contribs L k J g (sector_basis L k)) HNk_init ;
    mret (HNk_col st, HNk_row st, HNk_val st,
          length (sector_basis L k), sector_basis L k).
Proof.
  intros HL. unfold BuildHNk. rewrite BuildBasisNk_spec by done. simpl.
  unfold all_contribs. rewrite for_each_bind.
  erewrite for_each_ext; [done|].
  intros s n Hn. simpl. apply HNk_outer_spec; [done| |done].
  by apply sector_basis_elem in Hn as [_ ?].
Qed.

Lemma ph_congr_momentum k k' L t :
  1 ≤ L → (k - k') mod L = 0 → ph k L t = ph k' L t.
Proof.
  intros HL [q Hq]%Z.mod_divide; [|lia].
  assert (∀ x, ph x L t = ph 1 L (x * t)) as Hone
    by (intros x; unfold ph, theta; by rewrite Z.mul_1_l).
  rewrite (Hone k), (Hone k'). apply ph_congr; [done|].
  rewrite !Z.mul_1_l. replace (k * t) with (k' * t + (q * t) * L) by nia.
  apply Z.mod_add. lia.
Qed.

Lemma contrib_of_momentum L k k' basis n mh :
  1 ≤ L → (k - k') mod L = 0 →
  contrib_of L k basis n mh = contrib_of L k' basis n mh.
Proof.
  intros HL Hk. unfold contrib_of.
  destruct (py_in _ _); [|done]. do 2 f_equal.
  rewrite !contribution_ph. f_equal. by apply ph_congr_momentum.
Qed.

Lemma contrib_of_conj L k basis n mh :
  contrib_of L (- k) basis n mh = conj_contrib <$> contrib_of L k basis n mh.
Proof.
  unfold contrib_of. destruct (py_in _ _); [|done]. simpl.
  unfold conj_contrib. simpl. do 2 f_equal.
  rewrite !contribution_ph. unfold Rmulc, Cconj, ph. simpl.
  assert (theta (- k) L (Z.of_nat (dist L mh.1))
          = (- theta k L (Z.of_nat (dist L mh.1)))%R) as ->.
  { unfold theta. rewrite Z.mul_opp_l, opp_IZR. unfold Rdiv. ring. }
  rewrite cos_neg, sin_neg. f_equal. ring.
Qed.

Lemma omap_ext_fun {A B} (f f' : A → option B) (l : list A) :
  (∀ x, f x = f' x) → omap f l = omap f' l.
Proof.
  intros Hf. induction l as [|x l IH]; [done|].
  change (omap f (x :: l))
    with (match f x with Some y => y :: omap f l | None => omap f l end).
  change (omap f' (x :: l))
    with (match f' x with Some y => y :: omap f' l | None => omap f' l end).
  by rewrite Hf, IH.
Qed.

Lemma omap_fmap_fun {A B B'} (f : A → option B) (h : B → B') (l : list A) :
  omap (λ x, h <$> f x) l = h <$> omap f l.
Proof.
  induction l as [|x l IH]; [done|].
  change (omap f (x :: l))
    with (match f x with Some y => y :: omap f l | None => omap f l end).
  change (omap (λ x, h <$> f x) (x :: l))
    with (match h <$> f x with
          | Some y => y :: omap (λ x, h <$> f x) l
          | None => omap (λ x, h <$> f x) l
          end).
  destruct (f x); simpl; by rewrite IH.
Qed.

Lemma bind_ext_fun {A B} (f f' : A → list B) (l : list A) :
  (∀ x, f x = f' x) → l ≫= f = l ≫= f'.
Proof.
  intros Hf. induction l as [|x l IH]; [done|].
  by rewrite !bind_cons, Hf, IH.
Qed.

Lemma bind_fmap_fun {A B B'} (f : A → list B) (h : B → B') (l : list A) :
  l ≫= (λ x, h <$> f x) = h <$> (l ≫= f).
Proof.
  induction l as [|x l IH]; [done|].
  by rewrite !bind_cons, fmap_app, IH.
Qed.

Lemma all_contribs_congr L k k' J g basis :
  1 ≤ L → (k - k') mod L = 0 →
  all_contribs L k J g basis = all_contribs L k' J g basis.
Proof.
  intros HL Hk. unfold all_contribs. apply bind_ext_fun. intros n.
  apply omap_ext_fun. intros mh. by apply contrib_of_momentum.
Qed.

Lemma all_contribs_conj L k J g basis :
  all_contribs L (- k) J g basis = conj_contrib <$> all_contribs L k J g basis.
Proof.
  unfold all_contribs. rewrite <- bind_fmap_fun. apply bind_ext_fun. intros n.
  rewrite <- omap_fmap_fun. apply omap_ext_fun. intros mh.
  apply contrib_of_conj.
Qed.

Lemma sector_basis_congr L k k' :
  1 ≤ L → (k - k') mod L = 0 → sector_basis L k = sector_basis L k'.
Proof.
  intros HL Hk. apply list_filter_iff. intros n. by apply in_sector_mod.
Qed.

Lemma sector_basis_opp L k : 1 ≤ L → sector_basis L (- k) = sector_basis L k.
Proof.
  intros HL. apply list_filter_iff. intros n. by apply in_sector_opp.
Qed.

(** X26: for [L >= 1], [BuildHNk] depends on the momentum modulo [L]
    only: [BuildHNk(L, k mod L, J, g)] and [BuildHNk(L, k, J, g)] return
    the same triplets. *)
Theorem BuildHNk_momentum_mod (L k : Z) (J g : R) :
  1 ≤ L → BuildHNk L (k mod L) J g = BuildHNk L k J g.
Proof.
  intros HL.
  assert ((k mod L - k) mod L = 0) as Hk.
  { rewrite Zminus_mod_idemp_l, Z.sub_diag. apply Z.mod_0_l. lia. }
  rewrite !BuildHNk_for_each by done.
  by rewrite (sector_basis_congr L _ k HL Hk),
             (all_contribs_congr L _ k J g _ HL Hk).
Qed.

Lemma BuildHNk_momentum_mod_witness :
  1 ≤ 4 ∧ BuildHNk 4 (7 mod 4) 1 1 = BuildHNk 4 7 1 1.
Proof. split; [lia|]. apply (BuildHNk_momentum_mod 4 7 1 1). lia. Defined.

Lemma accumulate_conj a b v st :
  accumulate a b (Cconj v) (conj_state st) =
    st' ← accumulate a b v st ; mret (conj_state st').
Proof.
  unfold accumulate, conj_state. simpl.
  destruct (pos st !! (a, b)) as [p|]; simpl.
  - unfold py_get. rewrite list_lookup_fmap.
    destruct (HNk_val st !! p) as [x|]; simpl; [|done].
    by rewrite list_fmap_insert, Cconj_Cadd.
  - by rewrite fmap_app.
Qed.

Lemma for_each_acc_conj cs st :
  for_each acc_step (conj_contrib <$> cs) (conj_state st) =
    st' ← for_each acc_step cs st ; mret (conj_state st').
Proof.
  revert st. induction cs as [|c cs IH]; intros st; [done|].
  rewrite fmap_cons.
  change (for_each acc_step (conj_contrib c :: (conj_contrib <$> cs))
            (conj_state st))
    with (accumulate c.1.1 c.1.2 (Cconj c.2) (conj_state st)
            ≫= for_each acc_step (conj_contrib <$> cs)).
  change (for_each acc_step (c :: cs) st)
    with (accumulate c.1.1 c.1.2 c.2 st ≫= for_each acc_step cs).
  rewrite accumulate_conj.
  destruct (accumulate c.1.1 c.1.2 c.2 st) as [st1|e]; simpl; [apply IH|done].
Qed.

(** X27: for [L >= 1] the sectors [k], [-k] and [L - k] give the same
    column and row lists and complex-conjugate values: [BuildHNk] of the
    opposite momentum returns the conjugate matrix. *)
Theorem BuildHNk_opposite_momentum (L k : Z) (J g : R) :
  1 ≤ L →
  ∃ cols rows vals dim basis,
    BuildHNk L k J g = Ok (cols, rows, vals, dim, basis) ∧
    BuildHNk L (- k) J g = Ok (cols, rows, Cconj <$> vals, dim, basis) ∧
    BuildHNk L (L - k) J g = Ok (cols, rows, Cconj <$> vals, dim, basis).
Proof.
  intros HL. destruct (BuildHNk_acc L k J g HL) as (st & Hst & Hinv).
  do 5 eexists. split; [exact Hst|].
  assert (BuildHNk L (- k) J g =
          Ok (HNk_col st, HNk_row st, Cconj <$> HNk_val st,
              length (sector_basis L k), sector_basis L k)) as Hopp.
  { rewrite BuildHNk_for_each in Hst |- * by done.
    rewrite sector_basis_opp, all_contribs_conj by done.
    change HNk_init with (conj_state HNk_init). rewrite for_each_acc_conj.
    destruct (for_each acc_step _ HNk_init) as [st'|e]; [|done].
    simpl in *. by injection Hst as <- <- <-. }
  split; [done|]. rewrite <- Hopp.
  assert ((L - k - - k) mod L = 0) as Hk.
  { replace (L - k - - k) with L by lia. apply Z.mod_same. lia. }
  rewrite !BuildHNk_for_each by done.
  by rewrite (sector_basis_congr L _ (- k) HL Hk),
             (all_contribs_congr L _ (- k) J g _ HL Hk).
Qed.

Lemma BuildHNk_opposite_momentum_witness :
  1 ≤ 4 ∧
  ∃ cols rows vals dim basis,
    BuildHNk 4 1 1 1 = Ok (cols, rows, vals, dim, basis) ∧
    BuildHNk 4 (- 1) 1 1 = Ok (cols, rows, Cconj <$> vals, dim, basis) ∧
    BuildHNk 4 (4 - 1) 1 1 = Ok (cols, rows, Cconj <$> vals, dim, basis).
Proof. split; [lia|]. apply (BuildHNk_opposite_momentum 4 1 1 1). lia. Defined.

Lemma accumulate_slots a b v v' st st' st1 :
  same_slots st st' → accumulate a b v st = Ok st1 →
  ∃ st1', accumulate a b v' st' = Ok st1' ∧ same_slots st1 st1'.
Proof.
  intros (Hc & Hr & Hp & Hl). unfold accumulate. rewrite Hp, Hc, Hr.
  destruct (pos st !! (a, b)) as [p|]; simpl.
  - unfold py_get. destruct (HNk_val st !! p) as [x|] eqn:Hx; simpl; [|done].
    intros [= <-].
    destruct (lookup_lt_is_Some_2 (HNk_val st') p) as [x' Hx'];
      [rewrite Hl; by eapply lookup_lt_Some|].
    rewrite Hx'. simpl. eexists. split; [done|].
    unfold same_slots. simpl. by rewrite !length_insert.
  - intros [= <-]. eexists. split; [done|].
    unfold same_slots. simpl. rewrite !length_app, Hl. done.
Qed.

Lemma for_each_acc_slots cs cs' st st' st1 :
  cs.*1 = cs'.*1 → same_slots st st' →
  for_each acc_step cs st = Ok st1 →
  ∃ st1', for_each acc_step cs' st' = Ok st1' ∧ same_slots st1 st1'.
Proof.
  revert cs' st st'. induction cs as [|c cs IH]; intros [|c' cs'] st st' Hk Hs;
    try done.
  - intros [= <-]. by exists st'.
  - injection Hk as Hk1 Hk.
    change (for_each acc_step (c :: cs) st)
      with (accumulate c.1.1 c.1.2 c.2 st ≫= for_each acc_step cs).
    change (for_each acc_step (c' :: cs') st')
      with (accumulate c'.1.1 c'.1.2 c'.2 st' ≫= for_each acc_step cs').
    destruct (accumulate c.1.1 c.1.2 c.2 st) as [s1|e] eqn:Hacc; [|done].
    simpl. intros Hrest.
    destruct (accumulate_slots _ _ _ c'.2 _ _ _ Hs Hacc) as (s1' & Hacc' & Hs1).
    rewrite <- Hk1, Hacc'. simpl. by apply (IH cs' s1 s1').
Qed.

Lemma omap_contrib_keys L k k' basis n (l l' : list (Z * R)) :
  l.*1 = l'.*1 →
  (omap (contrib_of L k basis n) l).*1 = (omap (contrib_of L k' basis n) l').*1.
Proof.
  revert l'. induction l as [|[m h] l IH]; intros [|[m' h'] l'] Hl; try done.
  injection Hl as -> Hl.
  change (omap (contrib_of L k basis n) ((m', h) :: l))
    with (match contrib_of L k basis n (m', h) with
          | Some y => y :: omap (contrib_of L k basis n) l
          | None => omap (contrib_of L k basis n) l
          end).
  change (omap (contrib_of L k' basis n) ((m', h') :: l'))
    with (match contrib_of L k' basis n (m', h') with
          | Some y => y :: omap (contrib_of L k' basis n) l'
          | None => omap (contrib_of L k' basis n) l'
          end).
  unfold contrib_of. simpl.
  destruct (py_in (rep L m') basis); [|by apply IH].
  rewrite !fmap_cons. f_equal. by apply IH.
Qed.

Lemma ActingH_targets n L J g J' g' :
  (ActingH n L J g).*1 = (ActingH n L J' g').*1.
Proof.
  rewrite !ActingH_eq, !fmap_app, <- !list_fmap_compose. reflexivity.
Qed.

Lemma all_contribs_keys L k J g J' g' basis :
  (all_contribs L k J g basis).*1 = (all_contribs L k J' g' basis).*1.
Proof.
  unfold all_contribs. generalize basis at 2 4 as l.
  induction l as [|n l IH]; [done|].
  rewrite !bind_cons, !fmap_app, IH. f_equal.
  apply omap_contrib_keys, ActingH_targets.
Qed.

Lemma same_slots_refl st : same_slots st st.
Proof. done. Qed.

(** X21: with [J = 0] every value that [BuildHNk] stores is zero,
    whatever [g], and the triplets are still created: there are as many
    values as indices, every basis state has its triplet on the
    diagonal, every spin flip whose representative is in the basis has
    its triplet, and the column and row lists are those that [BuildHNk]
    returns for any other couplings. *)
Theorem zero_coupling_zero_values (L k : Z) (g : R) :
  1 ≤ L →
  ∃ cols rows vals basis,
    BuildBasisNk L k = Ok basis ∧
    BuildHNk L k 0 g = Ok (cols, rows, vals, length basis, basis) ∧
    Forall (λ v, v = C0) vals ∧
    length vals = length cols ∧
    (∀ (b : nat) n, basis !! b = Some n → (b, b) ∈ zip cols rows) ∧
    (∀ (b : nat) n i, basis !! b = Some n → 0 ≤ i < L →
       ∀ m_rs, py_min (Tlist_of (FilpBit n i) L) = Ok m_rs →
       ∀ a, py_index m_rs basis = Ok a → (a, b) ∈ zip cols rows) ∧
    (∀ J' g', ∃ vals',
       BuildHNk L k J' g' = Ok (cols, rows, vals', length basis, basis) ∧
       length vals' = length vals).
Proof.
  intros HL. destruct (BuildHNk_acc L k 0 g HL) as (st & Hst & Hinv).
  do 4 eexists. split; [by apply BuildBasisNk_spec|]. split; [exact Hst|].
  split; [|split; [by apply (inv_len_val _ _ Hinv)|split; [|split]]].
  - apply (acc_vals_forall _ _ _ Hinv); [done| |].
    + intros x y -> ->. apply Cadd_0_l.
    + intros c (n & m & h & _ & Hmh & ->)%all_contribs_elem.
      assert (h = 0%R) as ->.
      { apply ActingH_elem in Hmh as [(i & _ & _ & ->)|[_ ->]]; [lra|].
        apply diag_of_zero_coupling. }
      rewrite contribution_ph.
      replace (0 * sqrt (IZR (period L n)) / sqrt (IZR (period L m)))%R
        with 0%R by (unfold Rdiv; ring).
      apply Rmulc_0_l.
  - intros b n Hb. apply (key_present _ _ _ _ Hinv).
    destruct (diag_contrib_elem L k 0 g n HL) as [v Hv];
      [by eapply list_elem_of_lookup_2|].
    rewrite (idx_NoDup _ b n (sector_basis_NoDup L k) Hb) in Hv.
    by exists (b, b, v).
  - intros b n i Hb Hi m_rs Hm a Ha. apply (key_present _ _ _ _ Hinv).
    assert (rep L (FilpBit n i) = m_rs) as Hrep by (unfold rep; by rewrite Hm).
    assert (m_rs ∈ sector_basis L k) as Hin.
    { apply py_index_Ok in Ha as [Ha _]. by eapply list_elem_of_lookup_2. }
    eexists. split.
    + apply all_contribs_elem_key.
      exists n, (FilpBit n i), (- 0 * g)%R.
      split; [by eapply list_elem_of_lookup_2|]. split.
      * rewrite ActingH_eq. apply elem_of_app. left. apply list_elem_of_fmap.
        exists i. split; [done|]. apply elem_of_seqZ. lia.
      * rewrite Hrep. split; [done|reflexivity].
    + simpl. f_equal.
      * unfold idx. by rewrite Ha.
      * by apply idx_NoDup; [apply sector_basis_NoDup|].
  - intros J' g'.
    destruct (BuildHNk_acc L k J' g' HL) as (st' & Hst' & _).
    exists (HNk_val st'). rewrite Hst'.
    rewrite BuildHNk_for_each in Hst, Hst' by done.
    destruct (for_each acc_step (all_contribs L k 0 g _) HNk_init)
      as [s|e] eqn:Hs; [|done].
    destruct (for_each_acc_slots _ (all_contribs L k J' g' (sector_basis L k))
                _ _ _ (all_contribs_keys L k 0 g J' g' _)
                (same_slots_refl HNk_init) Hs) as (s' & Hs' & Hc & Hr & _ & Hl).
    rewrite Hs' in Hst'. simpl in Hst, Hst'.
    injection Hst as <- <- <-. injection Hst' as <- <- <-.
    by rewrite Hc, Hr, Hl.
Qed.

Lemma zero_coupling_zero_values_witness :
  1 ≤ 4 ∧
  ∃ cols rows vals basis,
    BuildBasisNk 4 1 = Ok basis ∧
    BuildHNk 4 1 0 1 = Ok (cols, rows, vals, length basis, basis) ∧
    Forall (λ v, v = C0) vals ∧
    length vals = length cols ∧
    (∀ (b : nat) n, basis !! b = Some n → (b, b) ∈ zip cols rows) ∧
    (∀ (b : nat) n i, basis !! b = Some n → 0 ≤ i < 4 →
       ∀ m_rs, py_min (Tlist_of (FilpBit n i) 4) = Ok m_rs →
       ∀ a, py_index m_rs basis = Ok a → (a, b) ∈ zip cols rows) ∧
    (∀ J' g', ∃ vals',
       BuildHNk 4 1 J' g' = Ok (cols, rows, vals', length basis, basis) ∧
       length vals' = length vals).
Proof. split; [lia|]. apply (zero_coupling_zero_values 4 1 1). lia. Defined.
